(** * angular-es6: the expression engine ([src/parse.js], [src/filter.js])
    and the dirty-checking scope, embedded in Rocq.

    Layout of the development:
    - strings and characters as UTF-16 code units, thrown errors, results;
    - [Lexer]: text to tokens;
    - the AST with its [constant] / [toWatch] analyses and the recursive
      descent parser of class [AST];
    - [ASTCompiler]: the code generator, producing a small JavaScript
      fragment, and the meaning of that fragment;
    - the [parse] entry point;
    - the digest loop of the scope;
    - the theorems. *)

From Stdlib Require Import String Ascii ZArith NArith Lia List Bool.
From stdpp Require Import base option list gmap pretty.

Set Default Proof Using "Type".
Set Warnings "-register-all".

(** ** Strings

    A JavaScript string is a sequence of 16-bit code units. *)

Definition char := N.
Definition str := list char.

Definition code (a : ascii) : char := N_of_ascii a.
Arguments code : simpl never.

Fixpoint js (s : string) : str :=
  match s with
  | EmptyString => []
  | String a s' => code a :: js s'
  end.

Definition str_eqb (a b : str) : bool := bool_decide (a = b).

(** [a <= b] on JavaScript strings: lexicographic on code units. *)
Fixpoint str_leb (a b : str) : bool :=
  match a, b with
  | [], _ => true
  | _ :: _, [] => false
  | x :: a', y :: b' =>
      if (x <? y)%N then true else if (x =? y)%N then str_leb a' b' else false
  end.

(** [_.includes(list, x)] on strings. *)
Definition includes (l : list str) (x : str) : bool := existsb (str_eqb x) l.

(** ** Errors

    Every [throw new Error(msg)] of the source is one constructor; the
    three last ones are the errors the JavaScript runtime itself raises. *)

Inductive exn :=
| InvalidExponent                    (* 'Invalid exponent' *)
| InvalidUnicodeEscape               (* 'Invalid unicode escape' *)
| UnmatchedQuote                     (* 'Unmatched Quote' *)
| UnexpectedNextCharacter (ch : char) (* `Unexpected next character: ${ch}` *)
| UnexpectedExpected (e : option str) (* `Unexpected. Expected ${e}` *)
| UnexpectedTerminates               (* 'Unexpected terminates.' *)
| NotAnIdentifier (text : str)       (* `Tokenize Error: ${text} is not an identifier` *)
| DisallowedField                    (* 'Attempting to access a disallowed field' *)
| ReferencingWindow                  (* 'Referencing window is not allowed' *)
| ReferencingFunction                (* 'Referencing Function is not allowed' *)
| ReferencingObject                  (* 'Referencing Object is not allowed' *)
| ReferencingDOMNode                 (* 'Referencing DOM node is not allowed' *)
| ReferencingCallApplyBind           (* 'Referencing call, apply or bind is not allowed' *)
| UnableToGetLeftContext             (* `Unable to get leftContext info: ...` *)
| UnknownASTNodeType                 (* 'Unknown ASTNode Type' *)
| NotCorrectlyRegistering            (* 'Not correctly registering' *)
| DigestLimit                        (* the digest ran out of iterations *)
| PhaseInProgress                    (* a digest or apply is already running *)
| TypeError                          (* raised by the runtime *)
| ReferenceError                     (* raised by the runtime *)
| SyntaxError.                       (* raised by [new Function] *)

(** The errors of the three sandbox guards. *)
Definition is_security_error (e : exn) : bool :=
  match e with
  | DisallowedField | ReferencingWindow | ReferencingFunction
  | ReferencingObject | ReferencingDOMNode | ReferencingCallApplyBind => true
  | _ => false
  end.

(** The errors of the lexer. *)
Definition is_lex_error (e : exn) : bool :=
  match e with
  | InvalidExponent | InvalidUnicodeEscape | UnmatchedQuote
  | UnexpectedNextCharacter _ => true
  | _ => false
  end.

(** A computation returns, throws, or (for the functions defined by
    recursion on a step budget) runs out of budget. *)
Inductive res (A : Type) :=
| Ok (a : A)
| Throw (e : exn)
| OutOfFuel.
Arguments Ok {A} a.
Arguments Throw {A} e.
Arguments OutOfFuel {A}.

Definition bind {A B} (m : res A) (f : A -> res B) : res B :=
  match m with
  | Ok a => f a
  | Throw e => Throw e
  | OutOfFuel => OutOfFuel
  end.

Declare Scope res_scope.
Delimit Scope res_scope with res.
Notation "x <- m ;; k" := (bind m (fun x => k))
  (at level 100, m at next level, right associativity) : res_scope.
Local Open Scope res_scope.

Definition throws {A} (m : res A) : bool :=
  match m with Throw _ => true | _ => false end.

Definition returns {A} (m : res A) : bool :=
  match m with Ok _ => true | _ => false end.

(** ** The numbers of the host

    Numbers are IEEE doubles in JavaScript; the engine only converts
    literal text to a number ([_.toNumber]) and hands numbers to the
    operators of the host language, so they are kept abstract. *)

Class JSNumber := {
  num : Type;
  num_eq_dec :: EqDecision num;
  toNumber : str -> num;        (* _.toNumber on the text of a literal *)
  num_zero : num;               (* the literal 0 *)
  num_truthy : num -> bool;     (* false for 0 and NaN *)
  num_strict_eq : num -> num -> bool;  (* === on two numbers *)
  num_to_str : num -> str;      (* String(n) *)
  num_of_nat : nat -> num;
}.

(** ** Lexer *)

Record LexToken `{JSNumber} := mkToken {
  text : str;
  value : option (num + str);   (* number and string literals carry a value *)
  identifier : bool;
}.
Arguments mkToken {_} _ _ _.

Section Lexer.
Context `{JSNumber}.

(** The lexer keeps the text and an index; here the state is the suffix
    [rest] of the text that starts at the index, so [charAt(index)] is the
    head of [rest] and [index < text.length] says that [rest] is not empty. *)

(** [isNumber], [isExpOperator], [isIdentifier], [isWhiteSpace]: the
    argument is a string, or [None] for null / undefined. *)
Definition isNumber (ch : option str) : bool :=
  match ch with
  | None => false
  | Some c => str_leb (js "0") c && str_leb c (js "9")
  end.

Definition isExpOperator (ch : option str) : bool :=
  match ch with
  | None => false
  | Some c => str_eqb c (js "-") || str_eqb c (js "+") || isNumber ch
  end.

Definition isIdentifier (ch : option str) : bool :=
  match ch with
  | None => false
  | Some c =>
      (str_leb (js "a") c && str_leb c (js "z")) ||
      (str_leb (js "A") c && str_leb c (js "Z")) ||
      str_eqb c (js "_") || str_eqb c (js "$")
  end.

Definition isWhiteSpace (ch : option str) : bool :=
  match ch with
  | None => false
  | Some c =>
      str_eqb c (js " ") || str_eqb c [13%N] || str_eqb c [9%N] ||
      str_eqb c [10%N] || str_eqb c [11%N] || str_eqb c [160%N]
  end.

(** A string is truthy when it is not empty; null is falsy. *)
Definition truthy_str (s : option str) : bool :=
  match s with
  | None | Some [] => false
  | Some _ => true
  end.

(** [peek(offset)]: null when [index > text.length - offset], that is when
    fewer than [offset] characters are left from the index on; otherwise
    [text.substr(index + 1, offset)], which is shorter than [offset] near
    the end of the text. *)
Definition peek (rest : str) (offset : nat) : option str :=
  if (length rest <? offset)%nat then None
  else Some (take offset (tail rest)).

(** [ch.toLocaleLowerCase()] on one code unit.  Outside A-Z the unit is
    kept: no other character lower-cases to a digit, a sign, a dot or
    [e], which is all the lexer compares the result with. *)
Definition toLocaleLowerCase (c : char) : char :=
  if ((65 <=? c) && (c <=? 90))%N then (c + 32)%N else c.

(** [number[number.length - 1]] *)
Definition lastChar (number : str) : option str :=
  match last number with
  | Some c => Some [c]
  | None => None
  end.

Definition is_e (c : option str) : bool :=
  match c with Some s => str_eqb s (js "e") | None => false end.

(** The loop of [readNumber]: returns the text of the number and the rest
    of the input. *)
Fixpoint readNumber_loop (rest : str) (number : str) : res (str * str) :=
  match rest with
  | [] => Ok (number, [])
  | c :: tl =>
      let ch := toLocaleLowerCase c in
      if str_eqb [ch] (js ".") || isNumber (Some [ch]) then
        readNumber_loop tl (number ++ [ch])
      else
        let nextCh := peek rest 1 in
        let prevCh := lastChar number in
        if str_eqb [ch] (js "e") && isExpOperator nextCh then
          readNumber_loop tl (number ++ [ch])
        else if is_e prevCh && isExpOperator (Some [ch]) &&
                truthy_str nextCh && isNumber nextCh then
          readNumber_loop tl (number ++ [ch])
        else if isExpOperator (Some [ch]) && is_e prevCh &&
                (negb (truthy_str nextCh) || negb (isNumber nextCh)) then
          Throw InvalidExponent
        else Ok (number, rest)
  end.

Definition readNumber (rest : str) : res (LexToken * str) :=
  r <- readNumber_loop rest [] ;;
  let '(number, rest') := r in
  Ok (mkToken number (Some (inl (toNumber number))) false, rest').

(** The loop of [readString], entered after the opening quote.  After a
    backslash and [u], [peek(4)] is null or shorter than four characters
    unless four characters follow the [u]; the index then moves past
    them. *)
Definition isHexDigit (c : char) : bool :=
  (((48 <=? c) && (c <=? 57)) || ((97 <=? c) && (c <=? 102)) ||
   ((65 <=? c) && (c <=? 70)))%N.

(** [hex.match(/[\da-f]{4}/i)] on a string of at most four characters. *)
Definition matchHex4 (hex : str) : bool :=
  (length hex =? 4)%nat && forallb isHexDigit hex.

Definition hexValue (c : char) : N :=
  (if (48 <=? c) && (c <=? 57) then c - 48
   else if (97 <=? c) && (c <=? 102) then c - 87
   else c - 55)%N.

(** [parseInt(hex, 16)] on hexadecimal digits. *)
Definition parseInt16 (hex : str) : N :=
  fold_left (fun acc c => (16 * acc + hexValue c)%N) hex 0%N.

Definition ESCAPE_MAP (ch : char) : option str :=
  if str_eqb [ch] (js "n") then Some [10%N]
  else if str_eqb [ch] (js "f") then Some [12%N]
  else if str_eqb [ch] (js "r") then Some [13%N]
  else if str_eqb [ch] (js "t") then Some [9%N]
  else if str_eqb [ch] (js "v") then Some [11%N]
  else if str_eqb [ch] (js "'") then Some (js "'")
  else if str_eqb [ch] [34%N] then Some [34%N]
  else None.

Fixpoint readString_loop (quote : char) (rest : str) (s rawString : str)
    (escape : bool) : res (LexToken * str) :=
  match rest with
  | [] => Throw UnmatchedQuote
  | ch :: tl =>
      let rawString := rawString ++ [ch] in
      if escape then
        if str_eqb [ch] (js "u") then
          match peek rest 4 with
          | None => Throw InvalidUnicodeEscape
          | Some hex =>
              if negb (matchHex4 hex) then Throw InvalidUnicodeEscape
              else
                match tl with
                | _ :: _ :: _ :: _ :: tl' =>
                    readString_loop quote tl' (s ++ [parseInt16 hex]) rawString false
                | _ => Throw InvalidUnicodeEscape
                end
          end
        else
          match ESCAPE_MAP ch with
          | Some replacement =>
              readString_loop quote tl (s ++ replacement) rawString false
          | None => readString_loop quote tl (s ++ [ch]) rawString false
          end
      else if (ch =? quote)%N then
        Ok (mkToken rawString (Some (inr s)) false, tl)
      else if str_eqb [ch] [92%N] then
        readString_loop quote tl s rawString true
      else readString_loop quote tl (s ++ [ch]) rawString false
  end.

(** [readString(quote)]: [rest] starts at the opening quote. *)
Definition readString (quote : char) (rest : str) : res (LexToken * str) :=
  readString_loop quote (tail rest) [] [] false.

Fixpoint readIdentifier_loop (rest : str) (txt : str) : str * str :=
  match rest with
  | [] => (txt, [])
  | ch :: tl =>
      if isIdentifier (Some [ch]) || isNumber (Some [ch]) then
        readIdentifier_loop tl (txt ++ [ch])
      else (txt, rest)
  end.

Definition readIdentifier (rest : str) : LexToken * str :=
  let '(txt, rest') := readIdentifier_loop rest [] in
  (mkToken txt None true, rest').

Definition OperatorsMap : list str :=
  map js ["+"; "!"; "-"; "*"; "/"; "%"; "="; "=="; "!="; "==="; "!==";
          "<"; ">"; "<="; ">="; "&&"; "||"; "|"]%string.

(** [_.includes(s, ch)] for a one-character [ch]: [ch] occurs in [s]. *)
Definition includesChar (s : str) (ch : char) : bool :=
  existsb (N.eqb ch) s.

(** The candidates for an operator at the index: the character, then the
    character followed by [peek(1)] and by [peek(2)] where those are
    truthy. *)
Definition nextStrings (rest : str) (ch : char) : list str :=
  [ch] :: flat_map (fun offset =>
            match peek rest offset with
            | Some nextChars =>
                if truthy_str (Some nextChars) then [ch :: nextChars] else []
            | None => []
            end) [1; 2]%nat.

(** [_.findLast(l, p)] *)
Definition findLast {A} (p : A -> bool) (l : list A) : option A :=
  List.find p (rev l).

Fixpoint lex_loop (fuel : nat) (rest : str) (tokens : list LexToken)
    : res (list LexToken) :=
  match rest with
  | [] => Ok tokens
  | ch :: tl =>
      match fuel with
      | O => OutOfFuel
      | S fuel' =>
          if isNumber (Some [ch]) ||
             (str_eqb [ch] (js ".") && isNumber (peek rest 1)) then
            r <- readNumber rest ;;
            lex_loop fuel' (snd r) (tokens ++ [fst r])
          else if includesChar (39%N :: [34%N]) ch then
            r <- readString ch rest ;;
            lex_loop fuel' (snd r) (tokens ++ [fst r])
          else if includesChar (js "[],{}:.()?;") ch then
            lex_loop fuel' tl (tokens ++ [mkToken [ch] None false])
          else if isIdentifier (Some [ch]) then
            let r := readIdentifier rest in
            lex_loop fuel' (snd r) (tokens ++ [fst r])
          else if isWhiteSpace (Some [ch]) then
            lex_loop fuel' tl tokens
          else
            match findLast (includes OperatorsMap) (nextStrings rest ch) with
            | Some findOp =>
                lex_loop fuel' (drop (length findOp) rest)
                  (tokens ++ [mkToken findOp None false])
            | None => Throw (UnexpectedNextCharacter ch)
            end
      end
  end.

(** [lex(text)]: every round of the loop moves the index forward, so the
    length of the text bounds the number of rounds. *)
Definition lex (text : str) : res (list LexToken) :=
  lex_loop (length text) text [].

End Lexer.

(** ** Values of the host language *)

(** Functions are opaque to the engine.  The sandbox tells four of them
    apart: [Function] itself and [Function.prototype.call], [apply], [bind];
    all others are functions of the program that uses the engine. *)
Inductive func :=
| FunctionCtor
| FunctionCall
| FunctionApply
| FunctionBind
| HostFn (id : N).

Inductive val `{JSNumber} :=
| VUndefined
| VNull
| VBool (b : bool)
| VNum (n : num)
| VStr (s : str)
| VObj (l : N)          (* a reference to an object of the heap *)
| VFun (f : func).

#[global] Instance func_eq_dec : EqDecision func.
Proof. solve_decision. Defined.
#[global] Instance value_eq_dec `{JSNumber} : EqDecision val.
Proof. solve_decision. Defined.

(** The heap: every object is the map of its own properties.  [callLog]
    records every function the evaluated code invoked, with the receiver
    and the arguments, most recent first. *)
Record store `{JSNumber} := mkStore {
  heap : gmap N (gmap str val);
  nextLoc : N;
  callLog : list (func * val * list val);
}.
Arguments mkStore {_} _ _ _.

(** What the engine uses of the host language besides numbers. *)
Class JSHost `{JSNumber} := {
  (* [Object.prototype[name]]: what a plain object inherits; undefined
     when there is no such member *)
  object_prototype : str -> val;
  (* [v[name]] for a string, number, boolean or function *)
  prim_get : val -> str -> val;
  (* [v.hasOwnProperty(name)] for a string, number, boolean or function *)
  prim_hasOwnProperty : val -> str -> bool;
  (* the property key a value that is not a string stands for *)
  to_property_key : val -> str;
  (* the unary and binary operators *)
  unary_op : str -> val -> val;
  binary_op : str -> val -> val -> val;
  (* [typeof Node === 'object'], and then [o instanceof Node] *)
  typeof_Node_is_object : bool;
  instanceof_Node : val -> bool;
  (* calling a function on a receiver and arguments *)
  call_function : func -> val -> list val -> store -> res (val * store);
}.

(** ** filter.js: the registry *)

(** A filter is a function, which may carry a [$stateful] property. *)
Record FilterFunction := mkFilter {
  filter_fn : func;
  filter_stateful : bool;     (* [$stateful] is truthy *)
}.

(** [filters]: a plain object used as a map from names to filters. *)
Definition FiltersMap := gmap str FilterFunction.

Section Registry.
Context `{JSHost}.

(** [register(name, factory)] for a string [name]: [factory()] has produced
    [f].  The name is not [__proto__]: [filters['__proto__'] = f] would
    store no property but replace what the object inherits. *)
Definition register (name : str) (f : FilterFunction) (filters : FiltersMap)
    : FiltersMap :=
  <[name := f]> filters.

(** [filter(name)] is [filters[name]]: the registered filter, else what the
    plain object [filters] inherits under that name, else undefined. *)
Definition filter (filters : FiltersMap) (name : str) : val :=
  match filters !! name with
  | Some f => VFun (filter_fn f)
  | None => object_prototype name
  end.

(** [filter(name).$stateful], read as a boolean.  Reading a property of
    undefined or null is a TypeError; the members of [Object.prototype]
    carry no [$stateful]. *)
Definition filter_stateful_of (filters : FiltersMap) (name : str) : res bool :=
  match filters !! name with
  | Some f => Ok (filter_stateful f)
  | None =>
      match object_prototype name with
      | VUndefined | VNull => Throw TypeError
      | _ => Ok false
      end
  end.

End Registry.

(** ** The AST

    One constructor per node class.  [constant] and [toWatch] are assigned
    once by the constructors of the classes from the same fields of the
    children and never changed, so they are functions of the tree here.
    A member node keeps the name of its property (an [ASTIdentifierNode]),
    a filter node the name of its callee and the [stateless] flag its
    constructor computed from the registry.  The program node, which is
    only ever the root and has no [toWatch], is a type of its own. *)

Inductive ObjectKey `{JSNumber} :=
| KeyIdentifier (name : str)       (* key instanceof ASTIdentifierNode *)
| KeyLiteral (v : val).            (* key instanceof ASTLiteralNode *)

Inductive ASTNode `{JSNumber} :=
| ASTLiteralNode (v : val)
| ASTArrayExpressionNode (elements : list ASTNode)
| ASTObjectNode (properties : list (ObjectKey * ASTNode))
| ASTIdentifierNode (name : str)
| ASTThisExpressionNode
| ASTNonComputedMemberExpressionNode (object : ASTNode) (property : str)
| ASTComputedMemberExpressionNode (object property : ASTNode)
| ASTCallExpressionNode (callee : ASTNode) (arguments : list ASTNode)
| ASTFilterExpressionNode (callee : str) (arguments : list ASTNode)
    (stateless : bool)
| ASTAssignmentExpressionNode (left right : ASTNode)
| ASTUnaryExpressionNode (operator : str) (argument : ASTNode)
| ASTBinaryExpressionNode (operator : str) (left right : ASTNode)
| ASTLogicalExpressionNode (operator : str) (left right : ASTNode)
| ASTConditionalExpressionNode (test consequent alternate : ASTNode)
| ASTNGValueParamter.

Record ASTProgramNode `{JSNumber} := mkProgram { body : list ASTNode }.
Arguments mkProgram {_} _.

Section Analyses.
Context `{JSNumber}.

(** [node.constant] *)
Fixpoint constant (n : ASTNode) : bool :=
  match n with
  | ASTLiteralNode _ => true
  | ASTArrayExpressionNode elements => forallb constant elements
  | ASTObjectNode properties =>
      forallb (fun p => match p with (_, v) => constant v end) properties
  | ASTIdentifierNode _ => false
  | ASTThisExpressionNode => false
  | ASTNonComputedMemberExpressionNode object _ => constant object
  | ASTComputedMemberExpressionNode object property =>
      constant object && constant property
  | ASTCallExpressionNode _ _ => false
  | ASTFilterExpressionNode _ args stateless =>
      stateless && forallb constant args
  | ASTAssignmentExpressionNode l r => constant l && constant r
  | ASTUnaryExpressionNode _ argument => constant argument
  | ASTBinaryExpressionNode _ l r => constant l && constant r
  | ASTLogicalExpressionNode _ l r => constant l && constant r
  | ASTConditionalExpressionNode test consequent alternate =>
      constant test && constant consequent && constant alternate
  | ASTNGValueParamter => false
  end.

(** [node.toWatch].  [[n]] stands for [[this]].  For arrays and objects
    the source partitions the children by [constant] and flat-maps
    [toWatch] over the non-constant ones, in order. *)
Fixpoint toWatch (n : ASTNode) : list ASTNode :=
  match n with
  | ASTLiteralNode _ => []
  | ASTArrayExpressionNode elements =>
      flat_map (fun e => if constant e then [] else toWatch e) elements
  | ASTObjectNode properties =>
      flat_map (fun p => match p with
                         | (_, v) => if constant v then [] else toWatch v
                         end) properties
  | ASTIdentifierNode _ => [n]
  | ASTThisExpressionNode => []
  | ASTNonComputedMemberExpressionNode _ _ => [n]
  | ASTComputedMemberExpressionNode _ _ => [n]
  | ASTCallExpressionNode _ _ => [n]
  | ASTFilterExpressionNode _ args stateless =>
      if stateless then flat_map toWatch args else [n]
  | ASTAssignmentExpressionNode _ _ => [n]
  | ASTUnaryExpressionNode _ argument => toWatch argument
  | ASTBinaryExpressionNode _ l r => toWatch l ++ toWatch r
  | ASTLogicalExpressionNode _ _ _ => [n]
  | ASTConditionalExpressionNode _ _ _ => [n]
  | ASTNGValueParamter => []
  end.

(** [program.constant]: [body.every(n => n.constant)] *)
Definition program_constant (p : ASTProgramNode) : bool :=
  forallb constant (body p).

(** The number of nodes of a tree. *)
Fixpoint node_size (n : ASTNode) : nat :=
  match n with
  | ASTLiteralNode _ | ASTIdentifierNode _ | ASTThisExpressionNode
  | ASTNGValueParamter => 1
  | ASTArrayExpressionNode l | ASTFilterExpressionNode _ l _ =>
      S (list_sum (map node_size l))
  | ASTObjectNode ps =>
      S (list_sum (map (fun p => match p with (_, v) => node_size v end) ps))
  | ASTCallExpressionNode c l => S (node_size c + list_sum (map node_size l))
  | ASTNonComputedMemberExpressionNode o _ | ASTUnaryExpressionNode _ o =>
      S (node_size o)
  | ASTComputedMemberExpressionNode a b | ASTAssignmentExpressionNode a b
  | ASTBinaryExpressionNode _ a b | ASTLogicalExpressionNode _ a b =>
      S (node_size a + node_size b)
  | ASTConditionalExpressionNode a b c =>
      S (node_size a + node_size b + node_size c)
  end.

End Analyses.

(** ** The parser (class [AST]) *)

Section Parser.
Context `{JSHost}.
Variable filters : FiltersMap.

Definition Tokens := list LexToken.

(** [peek(...expectations)]: the first token when its text is one of the
    expectations, or when every expectation is null or undefined. *)
Definition peekToken (expectations : list (option str)) (tokens : Tokens)
    : option LexToken :=
  match tokens with
  | [] => None
  | t :: _ =>
      if existsb (fun e => bool_decide (e = Some (text t))) expectations ||
         forallb (fun e => bool_decide (e = None)) expectations
      then Some t else None
  end.

(** [expect(...expectations)]: shifts the token [peek] accepts. *)
Definition expect (expectations : list (option str)) (tokens : Tokens)
    : option LexToken * Tokens :=
  match peekToken expectations tokens with
  | Some t => (Some t, tail tokens)
  | None => (None, tokens)
  end.

Definition consume (e : option str) (tokens : Tokens)
    : res (LexToken * Tokens) :=
  match expect [e] tokens with
  | (Some t, tokens') => Ok (t, tokens')
  | (None, _) => Throw (UnexpectedExpected e)
  end.

Definition exp1 (s : string) : list (option str) := [Some (js s)].
Definition exps (l : list string) : list (option str) :=
  map (fun s => Some (js s)) l.

(** [constant()] *)
Definition parse_constant (tokens : Tokens) : res (ASTNode * Tokens) :=
  r <- consume None tokens ;;
  let '(node, tokens) := r in
  Ok (ASTLiteralNode
        (match value node with
         | Some (inl n) => VNum n
         | Some (inr s) => VStr s
         | None => VUndefined
         end), tokens).

(** [identifier()], returning the name of the [ASTIdentifierNode]. *)
Definition parse_identifier (tokens : Tokens) : res (str * Tokens) :=
  r <- consume None tokens ;;
  let '(node, tokens) := r in
  if negb (identifier node) then Throw (NotAnIdentifier (text node))
  else Ok (text node, tokens).

(** [LanguageConstants] *)
Definition LanguageConstants (name : str) : option ASTNode :=
  if str_eqb name (js "this") then Some ASTThisExpressionNode
  else if str_eqb name (js "null") then Some (ASTLiteralNode VNull)
  else if str_eqb name (js "true") then Some (ASTLiteralNode (VBool true))
  else if str_eqb name (js "false") then Some (ASTLiteralNode (VBool false))
  else if str_eqb name (js "undefined") then Some (ASTLiteralNode VUndefined)
  else None.

(** [new ASTFilterExpressionNode(callee, args)]: its first statement reads
    [filter(callee.name).$stateful]. *)
Definition new_ASTFilterExpressionNode (callee : str) (args : list ASTNode)
    : res ASTNode :=
  stateful <- filter_stateful_of filters callee ;;
  Ok (ASTFilterExpressionNode callee args (negb stateful)).

(** A left-associative level: [while (token = expect(ops)) { right = sub();
    left = new Node(token.text, left, right) }]. *)
Fixpoint binaryLoop (fuel : nat) (ops : list (option str))
    (mk : str -> ASTNode -> ASTNode -> ASTNode)
    (sub : Tokens -> res (ASTNode * Tokens))
    (lhs : ASTNode) (tokens : Tokens) : res (ASTNode * Tokens) :=
  match fuel with
  | O => OutOfFuel
  | S n =>
      match expect ops tokens with
      | (Some token, tokens) =>
          r <- sub tokens ;;
          binaryLoop n ops mk sub (mk (text token) lhs (fst r)) (snd r)
      | (None, tokens) => Ok (lhs, tokens)
      end
  end.

Definition binaryLevel (fuel : nat) (ops : list (option str))
    (mk : str -> ASTNode -> ASTNode -> ASTNode)
    (sub : Tokens -> res (ASTNode * Tokens))
    (tokens : Tokens) : res (ASTNode * Tokens) :=
  r <- sub tokens ;;
  binaryLoop fuel ops mk sub (fst r) (snd r).

Definition mkBinary (op : str) (l r : ASTNode) := ASTBinaryExpressionNode op l r.
Definition mkLogical (op : str) (l r : ASTNode) := ASTLogicalExpressionNode op l r.

(** The levels between [ternary] and [unary]; [unary] is the routine they
    bottom out in. *)
Section Levels.
Variable fuel : nat.
Variable unary : Tokens -> res (ASTNode * Tokens).

Definition multiplicative := binaryLevel fuel (exps ["*"; "/"; "%"]%string) mkBinary unary.
Definition additive := binaryLevel fuel (exps ["+"; "-"]%string) mkBinary multiplicative.
Definition relational :=
  binaryLevel fuel (exps ["<"; ">"; ">="; "<="]%string) mkBinary additive.
Definition equality :=
  binaryLevel fuel (exps ["=="; "!="; "==="; "!=="]%string) mkBinary relational.
Definition logicalAND := binaryLevel fuel (exp1 "&&") mkLogical equality.
Definition logicalOR := binaryLevel fuel (exp1 "||") mkLogical logicalAND.
End Levels.

Definition literalValue (n : ASTNode) : val :=
  match n with ASTLiteralNode v => v | _ => VUndefined end.

(** The mutually recursive routines.  Every call spends one unit of [fuel];
    a routine is only re-entered after a token has been shifted. *)
Fixpoint parse_filter (fuel : nat) (tokens : Tokens) {struct fuel}
    : res (ASTNode * Tokens) :=
  match fuel with
  | O => OutOfFuel
  | S n =>
      r <- assignment n tokens ;;
      filterLoop n (fst r) (snd r)
  end
with filterLoop (fuel : nat) (lhs : ASTNode) (tokens : Tokens) {struct fuel}
    : res (ASTNode * Tokens) :=
  match fuel with
  | O => OutOfFuel
  | S n =>
      match expect (exp1 "|") tokens with
      | (Some _, tokens) =>
          c <- parse_identifier tokens ;;
          a <- filterArgs n [lhs] (snd c) ;;
          node <- new_ASTFilterExpressionNode (fst c) (fst a) ;;
          filterLoop n node (snd a)
      | (None, tokens) => Ok (lhs, tokens)
      end
  end
with filterArgs (fuel : nat) (args : list ASTNode) (tokens : Tokens)
    {struct fuel} : res (list ASTNode * Tokens) :=
  match fuel with
  | O => OutOfFuel
  | S n =>
      match expect (exp1 ":") tokens with
      | (Some _, tokens) =>
          a <- assignment n tokens ;;
          filterArgs n (args ++ [fst a]) (snd a)
      | (None, tokens) => Ok (args, tokens)
      end
  end
with assignment (fuel : nat) (tokens : Tokens) {struct fuel}
    : res (ASTNode * Tokens) :=
  match fuel with
  | O => OutOfFuel
  | S n =>
      l <- ternary n tokens ;;
      match expect (exp1 "=") (snd l) with
      | (Some _, tokens) =>
          r <- ternary n tokens ;;
          Ok (ASTAssignmentExpressionNode (fst l) (fst r), snd r)
      | (None, tokens) => Ok (fst l, tokens)
      end
  end
with ternary (fuel : nat) (tokens : Tokens) {struct fuel}
    : res (ASTNode * Tokens) :=
  match fuel with
  | O => OutOfFuel
  | S n =>
      t <- logicalOR n (unary n) tokens ;;
      match expect (exp1 "?") (snd t) with
      | (Some _, tokens) =>
          c <- assignment n tokens ;;
          k <- consume (Some (js ":")) (snd c) ;;
          a <- assignment n (snd k) ;;
          Ok (ASTConditionalExpressionNode (fst t) (fst c) (fst a), snd a)
      | (None, tokens) => Ok (fst t, tokens)
      end
  end
with unary (fuel : nat) (tokens : Tokens) {struct fuel}
    : res (ASTNode * Tokens) :=
  match fuel with
  | O => OutOfFuel
  | S n =>
      match expect (exps ["+"; "!"; "-"]%string) tokens with
      | (Some token, tokens) =>
          a <- unary n tokens ;;
          Ok (ASTUnaryExpressionNode (text token) (fst a), snd a)
      | (None, tokens) => primary n tokens
      end
  end
with primary (fuel : nat) (tokens : Tokens) {struct fuel}
    : res (ASTNode * Tokens) :=
  match fuel with
  | O => OutOfFuel
  | S n =>
      p <- match expect (exp1 "(") tokens with
           | (Some _, tokens) =>
               r <- parse_filter n tokens ;;
               c <- consume (Some (js ")")) (snd r) ;;
               Ok (fst r, snd c)
           | (None, tokens) =>
           match expect (exp1 "[") tokens with
           | (Some _, tokens) => arrayDeclaration n tokens
           | (None, tokens) =>
           match expect (exp1 "{") tokens with
           | (Some _, tokens) => parse_object n tokens
           | (None, tokens) =>
           match tokens with
           | [] => Throw TypeError       (* [this.tokens[0].text] *)
           | t :: tl =>
               match LanguageConstants (text t) with
               | Some node => Ok (node, tl)    (* [consume()] shifts [t] *)
               | None =>
                   match peekToken [] tokens with
                   | Some pk =>
                       if identifier pk then
                         i <- parse_identifier tokens ;;
                         Ok (ASTIdentifierNode (fst i), snd i)
                       else parse_constant tokens
                   | None => parse_constant tokens
                   end
               end
           end end end end ;;
      postfix n (fst p) (snd p)
  end
with postfix (fuel : nat) (prim : ASTNode) (tokens : Tokens) {struct fuel}
    : res (ASTNode * Tokens) :=
  match fuel with
  | O => OutOfFuel
  | S n =>
      match expect (exps ["."; "["; "("]%string) tokens with
      | (Some next, tokens) =>
          if str_eqb (text next) (js "[") then
            (* computedMemberExpression *)
            property <- primary n tokens ;;
            c <- consume (Some (js "]")) (snd property) ;;
            postfix n (ASTComputedMemberExpressionNode prim (fst property)) (snd c)
          else if str_eqb (text next) (js ".") then
            (* nonComputedMemberExpression *)
            property <- parse_identifier tokens ;;
            postfix n (ASTNonComputedMemberExpressionNode prim (fst property))
              (snd property)
          else if str_eqb (text next) (js "(") then
            (* callExpression *)
            args <- match peekToken (exp1 ")") tokens with
                    | None => callArgs n [] tokens
                    | Some _ => Ok ([], tokens)
                    end ;;
            c <- consume (Some (js ")")) (snd args) ;;
            postfix n (ASTCallExpressionNode prim (fst args)) (snd c)
          else postfix n prim tokens
      | (None, tokens) => Ok (prim, tokens)
      end
  end
with callArgs (fuel : nat) (args : list ASTNode) (tokens : Tokens)
    {struct fuel} : res (list ASTNode * Tokens) :=
  match fuel with
  | O => OutOfFuel
  | S n =>
      a <- assignment n tokens ;;
      match expect (exp1 ",") (snd a) with
      | (Some _, tokens) => callArgs n (args ++ [fst a]) tokens
      | (None, tokens) => Ok (args ++ [fst a], tokens)
      end
  end
with parse_object (fuel : nat) (tokens : Tokens) {struct fuel}
    : res (ASTNode * Tokens) :=
  match fuel with
  | O => OutOfFuel
  | S n =>
      ps <- match peekToken (exp1 "}") tokens with
            | None => objectLoop n [] tokens
            | Some _ => Ok ([], tokens)
            end ;;
      c <- consume (Some (js "}")) (snd ps) ;;
      Ok (ASTObjectNode (fst ps), snd c)
  end
with objectLoop (fuel : nat) (properties : list (ObjectKey * ASTNode))
    (tokens : Tokens) {struct fuel}
    : res (list (ObjectKey * ASTNode) * Tokens) :=
  match fuel with
  | O => OutOfFuel
  | S n =>
      match peekToken [] tokens with
      | None => Throw UnexpectedTerminates
      | Some pk =>
          key <- (if identifier pk then
                    i <- parse_identifier tokens ;;
                    Ok (KeyIdentifier (fst i), snd i)
                  else
                    c <- parse_constant tokens ;;
                    Ok (KeyLiteral (literalValue (fst c)), snd c)) ;;
          k <- consume (Some (js ":")) (snd key) ;;
          v <- assignment n (snd k) ;;
          match expect (exp1 ",") (snd v) with
          | (Some _, tokens) =>
              objectLoop n (properties ++ [(fst key, fst v)]) tokens
          | (None, tokens) => Ok (properties ++ [(fst key, fst v)], tokens)
          end
      end
  end
with arrayDeclaration (fuel : nat) (tokens : Tokens) {struct fuel}
    : res (ASTNode * Tokens) :=
  match fuel with
  | O => OutOfFuel
  | S n =>
      es <- match peekToken (exp1 "]") tokens with
            | None => arrayLoop n [] tokens
            | Some _ => Ok ([], tokens)
            end ;;
      c <- consume (Some (js "]")) (snd es) ;;
      Ok (ASTArrayExpressionNode (fst es), snd c)
  end
with arrayLoop (fuel : nat) (elements : list ASTNode) (tokens : Tokens)
    {struct fuel} : res (list ASTNode * Tokens) :=
  match fuel with
  | O => OutOfFuel
  | S n =>
      match peekToken (exp1 "]") tokens with
      | Some _ => Ok (elements, tokens)        (* break *)
      | None =>
          a <- assignment n tokens ;;
          match expect (exp1 ",") (snd a) with
          | (Some _, tokens) => arrayLoop n (elements ++ [fst a]) tokens
          | (None, tokens) => Ok (elements ++ [fst a], tokens)
          end
      end
  end.

(** [program()]: [do { if (tokens.length) body.push(filter()) }
    while (expect(';'))].  What is left of the tokens when the loop ends
    is dropped. *)
Fixpoint programLoop (fuel : nat) (body : list ASTNode) (tokens : Tokens)
    : res ASTProgramNode :=
  match fuel with
  | O => OutOfFuel
  | S n =>
      r <- match tokens with
           | [] => Ok (body, tokens)
           | _ :: _ =>
               f <- parse_filter n tokens ;;
               Ok (body ++ [fst f], snd f)
           end ;;
      match expect (exp1 ";") (snd r) with
      | (Some _, tokens) => programLoop n (fst r) tokens
      | (None, _) => Ok (mkProgram (fst r))
      end
  end.

(** The depth of calls the routines reach on a token list: every shifted
    token allows for one more round through the levels. *)
Definition parseFuel (tokens : Tokens) : nat := 20 * S (length tokens).

Definition program (tokens : Tokens) : res ASTProgramNode :=
  programLoop (parseFuel tokens) [] tokens.

(** [ast(text)] *)
Definition ast (text : str) : res ASTProgramNode :=
  tokens <- lex text ;;
  program tokens.

End Parser.

(** Equality of trees is decidable. *)
#[global] Instance ObjectKey_eq_dec `{JSNumber} : EqDecision ObjectKey.
Proof. solve_decision. Defined.

#[global] Instance ASTNode_eq_dec `{JSNumber} : EqDecision ASTNode.
Proof.
  unfold EqDecision. fix go 1. intros a b.
  pose proof (go : EqDecision ASTNode) as Hnode.
  destruct a, b; try (right; discriminate);
    match goal with
    | |- Decision (?c ?x1 ?x2 ?x3 = ?c ?y1 ?y2 ?y3) =>
        destruct (decide (x1 = y1)); [|right; congruence];
        destruct (decide (x2 = y2)); [|right; congruence];
        destruct (decide (x3 = y3)); [|right; congruence];
        left; congruence
    | |- Decision (?c ?x1 ?x2 = ?c ?y1 ?y2) =>
        destruct (decide (x1 = y1)); [|right; congruence];
        destruct (decide (x2 = y2)); [|right; congruence];
        left; congruence
    | |- Decision (?c ?x1 = ?c ?y1) =>
        destruct (decide (x1 = y1)); [|right; congruence];
        left; congruence
    | |- _ => left; reflexivity
    end.
Defined.

Section StaticAnalyses.
Context `{JSNumber}.

(** [AST.isLiteral(ast)] *)
Definition isLiteral (ast : ASTProgramNode) : bool :=
  match body ast with
  | [] => true
  | [ASTLiteralNode _] | [ASTArrayExpressionNode _] | [ASTObjectNode _] => true
  | _ => false
  end.

(** [AST.getInputs(ast)].  [candidate[0] !== body[0]] compares references.
    The nodes of [body[0].toWatch] are nodes of the tree [body[0]], and a
    proper part of a tree is never equal to the tree, so comparing the
    trees decides the same (lemma [toWatch_self]). *)
Definition getInputs (ast : ASTProgramNode) : list ASTNode :=
  match body ast with
  | [e] =>
      let candidate := toWatch e in
      if negb (length candidate =? 1)%nat ||
         negb (bool_decide (head candidate = Some e))
      then candidate else []
  | _ => []
  end.

(** [AST.isAssignable(ast)] *)
Definition isAssignable (n : ASTNode) : bool :=
  match n with
  | ASTIdentifierNode _ | ASTNonComputedMemberExpressionNode _ _
  | ASTComputedMemberExpressionNode _ _ => true
  | _ => false
  end.

(** [AST.assignableAST(ast)] *)
Definition assignableAST (ast : ASTProgramNode) : option ASTNode :=
  match body ast with
  | [e] =>
      if isAssignable e
      then Some (ASTAssignmentExpressionNode e ASTNGValueParamter)
      else None
  | _ => None
  end.

End StaticAnalyses.

(** ** The generated code

    [ASTCompiler] assembles the text of a JavaScript function and hands it
    to [new Function].  The text is kept here as the syntax tree the
    JavaScript parser reads it as: one constructor per template of
    [recurse] and of the static helpers of [ASTCompiler]. *)

Inductive Guard := EnsureSafeObject | EnsureSafeFunction | EnsureSafeMemberName.

Inductive JSExpr `{JSNumber} :=
| ELit (v : val)                     (* [escape(value)], and the default [0] *)
| EVar (id : nat)                    (* [$$vv<id>] *)
| EScope                             (* [s] *)
| ELocals                            (* [l] *)
| EValueParam                        (* [v] *)
| EArray (elements : list JSExpr)    (* [[e1,e2]] *)
| EObject (properties : list (ObjectKey * JSExpr))   (* [{k1:e1,k2:e2}] *)
| EAnd (a b : JSExpr)                (* [a && b] *)
| ENot (a : JSExpr)                  (* [!(a)] *)
| ECond (c a b : JSExpr)             (* [c ? a : b] *)
| EHasOwn (o : JSExpr) (name : str)  (* [o.hasOwnProperty('name')] *)
| EMember (o : JSExpr) (name : str)  (* [(o).name] *)
| EIndex (o p : JSExpr)              (* [(o)[p]] *)
| ECall (callee : JSExpr) (args : list JSExpr)   (* [callee(a1,a2)] *)
| EGuard (g : Guard) (e : JSExpr)    (* [ensureSafeObject(e)] and the like *)
| EIsDefined (e : JSExpr) (d : val)  (* [isDefined(e, d)] *)
| EUnary (op : str) (e : JSExpr)     (* [op(e)] *)
| EBinary (op : str) (a b : JSExpr)  (* [(a) op (b)] *)
| EAssign (lhs rhs : JSExpr)         (* [lhs=rhs;], with its semicolon *)
| EObjectText.                       (* the text [[object Object]] *)

Inductive JSStmt `{JSNumber} :=
| SIf (test consequent : JSExpr)     (* [if(test){consequent}] *)
| SExpr (e : JSExpr)                 (* [e;] *)
| SReturn (e : JSExpr)               (* [return e;] *)
| SEmpty                             (* [{};] *)
| SInvalid.                          (* text that is not a statement *)

Section CodeText.
Context `{JSNumber}.

(** What [recurse] returns is a string of code, or for a literal the
    value [escape] returned: a quoted string, ['null'], or the number,
    boolean or undefined itself.  The truthiness of that result, which the
    source tests with [context && name]: *)
Definition truthy_code (e : JSExpr) : bool :=
  match e with
  | ELit VUndefined => false
  | ELit (VBool b) => b
  | ELit (VNum n) => num_truthy n
  | _ => true
  end.

(** [ASTCompiler.isDefined], [computedMember], [nonComputedMember],
    [assign], [not], [getHasOwnProperty] *)
Definition isDefined_ (value : JSExpr) : JSExpr := EIsDefined value (VNum num_zero).
Definition computedMember (l r : JSExpr) : JSExpr := EIndex l r.
Definition nonComputedMember (l : JSExpr) (r : str) : JSExpr := EMember l r.
Definition assign (name value : JSExpr) : JSExpr := EAssign name value.
Definition not_ (name : JSExpr) : JSExpr := ENot name.
Definition getHasOwnProperty (object : JSExpr) (property : str) : JSExpr :=
  EAnd object (EHasOwn object property).

(** [`${callee}(${args})`] where [callee] is spliced in without
    parentheses: the call binds tighter than [&&], than a unary operator
    and than the operator of [(a) op (b)], so it applies to the last
    operand of such a callee. *)
Fixpoint callText (callee : JSExpr) (args : list JSExpr) : JSExpr :=
  match callee with
  | EAnd a b => EAnd a (callText b args)
  | EUnary op e => EUnary op (ECall e args)
  | EBinary op a b => EBinary op a (ECall b args)
  | _ => ECall callee args
  end.

(** The words that cannot label a statement. *)
Definition reservedWords : list str :=
  map js ["break"; "case"; "catch"; "continue"; "debugger"; "default";
          "delete"; "do"; "else"; "finally"; "for"; "function"; "if"; "in";
          "instanceof"; "new"; "return"; "switch"; "this"; "throw"; "try";
          "typeof"; "var"; "void"; "while"; "with"; "class"; "const"; "enum";
          "export"; "extends"; "import"; "super"; "null"; "true";
          "false"]%string.

(** The text of an object key that can label a statement. *)
Definition labelOfKey (k : ObjectKey) : bool :=
  match k with
  | KeyIdentifier name => negb (includes reservedWords name)
  | KeyLiteral VUndefined => true          (* [undefined] *)
  | KeyLiteral (VNum n) => includes [js "NaN"; js "Infinity"] (num_to_str n)
  | KeyLiteral _ => false
  end.

(** Does the text start with a brace? *)
Fixpoint startsWithBrace (e : JSExpr) : bool :=
  match e with
  | EObject _ => true
  | EAnd a _ => startsWithBrace a
  | EAssign lhs _ => startsWithBrace lhs
  | ECall c _ => startsWithBrace c
  | _ => false
  end.

(** [e;] at the start of a statement.  A text that starts with a brace is
    read as a block: [{}] is the empty block, [{k:e}] the statement [e]
    labelled [k]; nothing else the compiler produces with a leading brace
    is a statement. *)
Fixpoint statementText (e : JSExpr) : JSStmt :=
  match e with
  | EObject [] => SEmpty
  | EObject [(k, v)] => if labelOfKey k then statementText v else SInvalid
  | _ => if startsWithBrace e then SInvalid else SExpr e
  end.

End CodeText.

(** ** The sandbox guards *)

Definition blacklist : list str :=
  map js ["constructor"; "__proto__"; "__defineGetter__"; "__defineSetter__";
          "__lookupGetter__"; "__lookupSetter__"]%string.

(** [ensureSafeMemberName(name)] on a string *)
Definition ensureSafeMemberName (name : str) : res unit :=
  if includes blacklist name then Throw DisallowedField else Ok tt.

(** ** ASTCompiler *)

Inductive Stage := StageMain | StageInputs | StageAssign.

(** The keys of [state.functions]: ['fn'], ['assign'], ['fn' + index]. *)
Inductive FnKey := FnMain | FnAssign | FnInput (index : nat).
#[global] Instance FnKey_eq_dec : EqDecision FnKey.
Proof. solve_decision. Defined.

Record FnCode `{JSNumber} := mkFnCode {
  fbody : list JSStmt;
  fvars : list nat;
}.
Arguments mkFnCode {_} _ _.

Record ASTCompilerState `{JSNumber} := mkState {
  functions : list (FnKey * FnCode);   (* an object, as a list of entries *)
  nextId : nat;
  sfilters : list (str * nat);      (* [state.filters], in insertion order *)
  computing : FnKey;
  inputs : list FnKey;
  stage : Stage;
}.
Arguments mkState {_} _ _ _ _ _ _.

(** The name a node leaves in a call context: the name of an identifier
    or of a non-computed property ([computed = false]), or the code of a
    computed property ([computed = true]). *)
Inductive ContextName `{JSNumber} :=
| NameOf (name : str)
| NameCode (code : JSExpr).

Record CallContext `{JSNumber} := mkContext {
  context : option JSExpr;
  name : option ContextName;
}.
Arguments mkContext {_} _ _.

Section Compiler.
Context `{JSHost}.

(** Code generation reads and updates the state and may throw. *)
Definition Gen (A : Type) := ASTCompilerState -> res (A * ASTCompilerState).

Definition ret {A} (a : A) : Gen A := fun st => Ok (a, st).
Definition gbind {A B} (m : Gen A) (f : A -> Gen B) : Gen B :=
  fun st => match m st with
            | Ok (a, st') => f a st'
            | Throw e => Throw e
            | OutOfFuel => OutOfFuel
            end.
Definition lift {A} (r : res A) : Gen A :=
  fun st => match r with
            | Ok a => Ok (a, st)
            | Throw e => Throw e
            | OutOfFuel => OutOfFuel
            end.
Definition getState : Gen ASTCompilerState := fun st => Ok (st, st).

Notation "x <~ m ;; k" := (gbind m (fun x => k))
  (at level 100, m at next level, right associativity).
Notation "m ;;; k" := (gbind m (fun _ => k))
  (at level 100, right associativity).

(** [functions[key]]; every key the compiler reads has been stored. *)
Definition getFunction (fs : list (FnKey * FnCode)) (key : FnKey) : FnCode :=
  match List.find (fun p => bool_decide (fst p = key)) fs with
  | Some p => snd p
  | None => mkFnCode [] []
  end.

(** [functions[key] = code] *)
Fixpoint setFunction (fs : list (FnKey * FnCode)) (key : FnKey) (code : FnCode)
    : list (FnKey * FnCode) :=
  match fs with
  | [] => [(key, code)]
  | (k, c) :: fs' =>
      if bool_decide (k = key) then (k, code) :: fs'
      else (k, c) :: setFunction fs' key code
  end.

(** [this.state.functions[this.state.computing].body.push(stmt)] *)
Definition push (stmt : JSStmt) : Gen unit :=
  fun st =>
    let c := computing st in
    let f := getFunction (functions st) c in
    Ok (tt, mkState
              (setFunction (functions st) c
                 (mkFnCode (fbody f ++ [stmt]) (fvars f)))
              (nextId st) (sfilters st) c (inputs st) (stage st)).

(** [nextId(skip)] *)
Definition nextId_ (skip : bool) : Gen nat :=
  fun st =>
    let id := nextId st in
    let c := computing st in
    let f := getFunction (functions st) c in
    Ok (id, mkState
              (if skip then functions st
               else setFunction (functions st) c
                      (mkFnCode (fbody f) (fvars f ++ [id])))
              (S id) (sfilters st) c (inputs st) (stage st)).

Definition assocGet {A} (l : list (str * A)) (k : str) : option A :=
  snd <$> List.find (fun p => str_eqb (fst p) k) l.

(** [filter(name)] of the compiler: the variable that holds the filter.
    [state.filters] is a plain object: storing a string under [__proto__]
    stores nothing, and reading [__proto__] gives the prototype object,
    whose text is [[object Object]]. *)
Definition filterVar (name : str) : Gen JSExpr :=
  st <~ getState ;;
  if str_eqb name (js "__proto__") then
    nextId_ true ;;; ret EObjectText
  else
    match assocGet (sfilters st) name with
    | Some id => ret (EVar id)
    | None =>
        id <~ nextId_ true ;;
        (fun st => Ok (EVar id,
           mkState (functions st) (nextId st) (sfilters st ++ [(name, id)])
             (computing st) (inputs st) (stage st)))
    end.

Definition if_ (test consequent : JSExpr) : Gen unit := push (SIf test consequent).
Definition addEnsureSafeFunction (e : JSExpr) : Gen unit :=
  push (SExpr (EGuard EnsureSafeFunction e)).
Definition addEnsureSafeMemberName (e : JSExpr) : Gen unit :=
  push (SExpr (EGuard EnsureSafeMemberName e)).
Definition addEnsureSafeObject (e : JSExpr) : Gen unit :=
  push (SExpr (EGuard EnsureSafeObject e)).

Definition truthy_name (n : option ContextName) : bool :=
  match n with
  | Some (NameOf s) => negb (bool_decide (s = []))
  | Some (NameCode c) => truthy_code c
  | None => false
  end.

Definition truthy_context (c : option JSExpr) : bool :=
  match c with Some e => truthy_code e | None => false end.

(** The member expression a filled call context stands for, when
    [context && name] holds. *)
Definition contextMember (c : CallContext) : option (JSExpr * JSExpr) :=
  if truthy_context (context c) && truthy_name (name c) then
    match context c, name c with
    | Some ctx, Some (NameOf n) => Some (ctx, nonComputedMember ctx n)
    | Some ctx, Some (NameCode r) => Some (ctx, computedMember ctx r)
    | _, _ => None
    end
  else None.

Definition emptyContext : CallContext := mkContext None None.

Definition when (b : bool) (m : Gen unit) : Gen unit := if b then m else ret tt.

(** [recurse(ast, inContext, create)].  The call context a caller passes
    is always a fresh object, which the node only writes to; the filled
    context is returned next to the code here. *)
Fixpoint recurse (ast : ASTNode) (create : bool) {struct ast}
    : Gen (JSExpr * CallContext) :=
  match ast with
  | ASTLiteralNode v => ret (ELit v, emptyContext)
  | ASTArrayExpressionNode elements =>
      es <~ (fix each (l : list ASTNode) : Gen (list JSExpr) :=
               match l with
               | [] => ret []
               | element :: l' =>
                   e <~ recurse element false ;;
                   es <~ each l' ;;
                   ret (fst e :: es)
               end) elements ;;
      ret (EArray es, emptyContext)
  | ASTObjectNode properties =>
      ps <~ (fix each (l : list (ObjectKey * ASTNode))
               : Gen (list (ObjectKey * JSExpr)) :=
               match l with
               | [] => ret []
               | (key, v) :: l' =>
                   e <~ recurse v false ;;
                   ps <~ each l' ;;
                   ret ((key, fst e) :: ps)
               end) properties ;;
      ret (EObject ps, emptyContext)
  | ASTIdentifierNode name =>
      lift (ensureSafeMemberName name) ;;;
      varId <~ nextId_ false ;;
      st <~ getState ;;
      let localsCheck :=
        match stage st with
        | StageInputs => ELit (VBool false)
        | _ => getHasOwnProperty ELocals name
        end in
      if_ localsCheck (assign (EVar varId) (nonComputedMember ELocals name)) ;;;
      when create
        (if_ (EAnd (EAnd (not_ localsCheck) EScope)
                   (not_ (getHasOwnProperty EScope name)))
             (assign (nonComputedMember EScope name) (EObject []))) ;;;
      if_ (EAnd (not_ localsCheck) EScope)
          (assign (EVar varId) (nonComputedMember EScope name)) ;;;
      addEnsureSafeObject (EVar varId) ;;;
      ret (EVar varId,
           mkContext (Some (ECond localsCheck ELocals EScope))
                     (Some (NameOf name)))
  | ASTThisExpressionNode => ret (EScope, emptyContext)
  | ASTComputedMemberExpressionNode object property =>
      varId <~ nextId_ false ;;
      l <~ recurse object create ;;
      r <~ recurse property false ;;
      addEnsureSafeMemberName (fst r) ;;;
      when create
        (if_ (not_ (computedMember (fst l) (fst r)))
             (assign (computedMember (fst l) (fst r)) (EObject []))) ;;;
      if_ (fst l)
          (assign (EVar varId)
             (EGuard EnsureSafeObject (computedMember (fst l) (fst r)))) ;;;
      ret (EVar varId, mkContext (Some (fst l)) (Some (NameCode (fst r))))
  | ASTNonComputedMemberExpressionNode object property =>
      varId <~ nextId_ false ;;
      l <~ recurse object create ;;
      lift (ensureSafeMemberName property) ;;;
      when create
        (if_ (not_ (nonComputedMember (fst l) property))
             (assign (nonComputedMember (fst l) property) (EObject []))) ;;;
      if_ (fst l)
          (assign (EVar varId)
             (EGuard EnsureSafeObject (nonComputedMember (fst l) property))) ;;;
      ret (EVar varId, mkContext (Some (fst l)) (Some (NameOf property)))
  | ASTCallExpressionNode callee arguments =>
      c <~ recurse callee false ;;
      args <~ (fix each (l : list ASTNode) : Gen (list JSExpr) :=
                 match l with
                 | [] => ret []
                 | arg :: l' =>
                     e <~ recurse arg false ;;
                     es <~ each l' ;;
                     ret (EGuard EnsureSafeObject (fst e) :: es)
                 end) arguments ;;
      callee' <~ match contextMember (snd c) with
                 | Some (ctx, member) =>
                     addEnsureSafeObject ctx ;;; ret member
                 | None => ret (fst c)
                 end ;;
      addEnsureSafeFunction callee' ;;;
      ret (EAnd callee' (EGuard EnsureSafeObject (callText callee' args)),
           emptyContext)
  | ASTFilterExpressionNode name arguments _ =>
      callee <~ filterVar name ;;
      args <~ (fix each (l : list ASTNode) : Gen (list JSExpr) :=
                 match l with
                 | [] => ret []
                 | arg :: l' =>
                     e <~ recurse arg false ;;
                     es <~ each l' ;;
                     ret (fst e :: es)
                 end) arguments ;;
      ret (ECall callee args, emptyContext)
  | ASTAssignmentExpressionNode l r =>
      lc <~ recurse l true ;;
      match contextMember (snd lc) with
      | None => lift (Throw UnableToGetLeftContext)
      | Some (_, leftExpr) =>
          rc <~ recurse r false ;;
          ret (assign leftExpr (EGuard EnsureSafeObject (fst rc)), emptyContext)
      end
  | ASTUnaryExpressionNode operator argument =>
      a <~ recurse argument false ;;
      ret (EUnary operator (isDefined_ (fst a)), emptyContext)
  | ASTBinaryExpressionNode operator l r =>
      lc <~ recurse l false ;;
      rc <~ recurse r false ;;
      if str_eqb operator (js "+") || str_eqb operator (js "-") then
        ret (EBinary operator (isDefined_ (fst lc)) (isDefined_ (fst rc)),
             emptyContext)
      else ret (EBinary operator (fst lc) (fst rc), emptyContext)
  | ASTLogicalExpressionNode operator l r =>
      varId <~ nextId_ false ;;
      lc <~ recurse l false ;;
      push (SExpr (assign (EVar varId) (fst lc))) ;;;
      rc <~ recurse r false ;;
      if_ (if str_eqb operator (js "&&") then EVar varId else not_ (EVar varId))
          (assign (EVar varId) (fst rc)) ;;;
      ret (EVar varId, emptyContext)
  | ASTConditionalExpressionNode test consequent alternate =>
      varId <~ nextId_ false ;;
      testId <~ nextId_ false ;;
      t <~ recurse test false ;;
      push (SExpr (assign (EVar testId) (fst t))) ;;;
      c <~ recurse consequent false ;;
      if_ (EVar testId) (assign (EVar varId) (fst c)) ;;;
      a <~ recurse alternate false ;;
      if_ (not_ (EVar testId)) (assign (EVar varId) (fst a)) ;;;
      ret (EVar varId, emptyContext)
  | ASTNGValueParamter => ret (EValueParam, emptyContext)
  end.

(** [recurse] on the program node: every statement but the last is pushed
    followed by [';'], the last one is returned.  With an empty body,
    [_.last] is undefined, which is no node. *)
Fixpoint recurseBody (body : list ASTNode) : Gen unit :=
  match body with
  | [] => lift (Throw UnknownASTNodeType)
  | [lastStmt] =>
      e <~ recurse lastStmt false ;;
      push (SReturn (fst e))
  | stmt :: rest =>
      e <~ recurse stmt false ;;
      push (statementText (fst e)) ;;;
      recurseBody rest
  end.

Definition recurseProgram (ast : ASTProgramNode) : Gen unit :=
  recurseBody (body ast).

End Compiler.

(** ** The meaning of the generated code *)

(** The parameters of a generated function ([s], [l], [v]; [None] for a
    name that is not a parameter of the function at hand) and its
    variables [$$vv<id>].  The variables of the filters, which live in the
    enclosing function, are in the same map; a variable that has not been
    assigned is undefined. *)
Record Params `{JSNumber} := mkParams {
  param_s : option val;
  param_l : option val;
  param_v : option val;
}.
Arguments mkParams {_} _ _ _.

Record RState `{JSNumber} := mkRState {
  rvars : gmap nat val;
  rstore : store;
}.
Arguments mkRState {_} _ _.

Section Runtime.
Context `{JSHost}.

Definition truthy (v : val) : bool :=
  match v with
  | VUndefined | VNull => false
  | VBool b => b
  | VNum n => num_truthy n
  | VStr s => negb (bool_decide (s = []))
  | VObj _ | VFun _ => true
  end.

(** [a === b] *)
Definition strictEq (a b : val) : bool :=
  match a, b with
  | VUndefined, VUndefined | VNull, VNull => true
  | VBool x, VBool y => bool_decide (x = y)
  | VNum x, VNum y => num_strict_eq x y
  | VStr x, VStr y => str_eqb x y
  | VObj x, VObj y => bool_decide (x = y)
  | VFun x, VFun y => bool_decide (x = y)
  | _, _ => false
  end.

Definition ownProps (st : store) (l : N) : gmap str val :=
  default ∅ (heap st !! l).

(** [v[name]] where [v] is neither undefined nor null: an own property of
    an object, else what it inherits. *)
Definition getMember (st : store) (v : val) (name : str) : val :=
  match v with
  | VObj l => default (object_prototype name) (ownProps st l !! name)
  | _ => prim_get v name
  end.

(** [v[name]]: a TypeError on undefined and null. *)
Definition getProp (st : store) (v : val) (name : str) : res val :=
  match v with
  | VUndefined | VNull => Throw TypeError
  | _ => Ok (getMember st v name)
  end.

(** [v[name] = x] once [v] is known to be neither undefined nor null.
    Only the objects of the heap keep what is stored. *)
Definition putProp (st : store) (v : val) (name : str) (x : val) : store :=
  match v with
  | VObj l =>
      mkStore (<[l := <[name := x]> (ownProps st l)]> (heap st))
              (nextLoc st) (callLog st)
  | _ => st
  end.

(** A new object with the given own properties. *)
Definition alloc (st : store) (props : gmap str val) : val * store :=
  (VObj (nextLoc st),
   mkStore (<[nextLoc st := props]> (heap st)) (N.succ (nextLoc st)) (callLog st)).

(** The name of the property a key of an object literal stands for. *)
Definition keyName (k : ObjectKey) : str :=
  match k with
  | KeyIdentifier name => name
  | KeyLiteral (VStr s) => s
  | KeyLiteral v => to_property_key v
  end.

Definition propertyKey (v : val) : str :=
  match v with
  | VStr s => s
  | _ => to_property_key v
  end.

Definition objectProps (ps : list (ObjectKey * val)) : gmap str val :=
  fold_left (fun m p => <[keyName (fst p) := snd p]> m) ps ∅.

Fixpoint arrayProps (i : nat) (vs : list val) : gmap str val :=
  match vs with
  | [] => {[ js "length" := VNum (num_of_nat i) ]}
  | v :: vs' => <[js (pretty i) := v]> (arrayProps (S i) vs')
  end.

(** [o.hasOwnProperty(name)], the method every object inherits. *)
Definition hasOwnProperty (st : store) (o : val) (name : str) : res val :=
  match o with
  | VUndefined | VNull => Throw TypeError
  | VObj l => Ok (VBool (bool_decide (is_Some (ownProps st l !! name))))
  | _ => Ok (VBool (prim_hasOwnProperty o name))
  end.

(** [isDOMNode(o)] *)
Definition isDOMNode (st : store) (o : val) : bool :=
  if typeof_Node_is_object then instanceof_Node o
  else truthy o &&
       match o with VObj _ => true | _ => false end &&
       match getMember st o (js "nodeType") with VNum _ => true | _ => false end &&
       match getMember st o (js "nodeName") with VStr _ => true | _ => false end.

(** [ensureSafeObject(obj)] *)
Definition ensureSafeObject (st : store) (obj : val) : res val :=
  if truthy obj then
    if truthy (getMember st obj (js "document")) &&
       truthy (getMember st obj (js "location")) &&
       truthy (getMember st obj (js "alert")) &&
       truthy (getMember st obj (js "setTimeout")) then Throw ReferencingWindow
    else if strictEq (getMember st obj (js "constructor")) obj then
      Throw ReferencingFunction
    else if truthy (getMember st obj (js "getOwnPropertyNames")) ||
            truthy (getMember st obj (js "getOwnPropertyDescriptor")) then
      Throw ReferencingObject
    else if isDOMNode st obj then Throw ReferencingDOMNode
    else Ok obj
  else Ok obj.

(** [ensureSafeFunction(obj)] *)
Definition ensureSafeFunction (st : store) (obj : val) : res val :=
  if truthy obj then
    if strictEq (getMember st obj (js "constructor")) obj then
      Throw ReferencingFunction
    else if strictEq obj (VFun FunctionCall) || strictEq obj (VFun FunctionApply) ||
            strictEq obj (VFun FunctionBind) then
      Throw ReferencingCallApplyBind
    else Ok obj
  else Ok obj.

(** [ensureSafeMemberName(name)] on a value: [_.includes] finds only a
    string that is one of the six names.  The function returns nothing. *)
Definition ensureSafeMemberNameV (name : val) : res val :=
  match name with
  | VStr s => _ <- ensureSafeMemberName s ;; Ok VUndefined
  | _ => Ok VUndefined
  end.

Definition guard (g : Guard) (st : store) (v : val) : res val :=
  match g with
  | EnsureSafeObject => ensureSafeObject st v
  | EnsureSafeFunction => ensureSafeFunction st v
  | EnsureSafeMemberName => ensureSafeMemberNameV v
  end.

(** Calling [f] on the receiver [this]: a TypeError unless [f] is a
    function; the call is logged. *)
Definition callValue (f this : val) (args : list val) (st : store)
    : res (val * store) :=
  match f with
  | VFun fn =>
      call_function fn this args
        (mkStore (heap st) (nextLoc st) ((fn, this, args) :: callLog st))
  | _ => Throw TypeError
  end.

(** The object does not define [hasOwnProperty] itself: the method it has
    is the one every object inherits. *)
Definition plainHasOwn (st : store) (o : val) : bool :=
  match o with
  | VObj l => bool_decide (ownProps st l !! js "hasOwnProperty" = None)
  | _ => true
  end.

(** The call [o.hasOwnProperty(name)]: of the property [hasOwnProperty] of
    the object when it has one of its own, else of the inherited method. *)
Definition callHasOwnProperty (st : store) (o : val) (name : str)
    : res (val * store) :=
  match o with
  | VObj l =>
      match ownProps st l !! js "hasOwnProperty" with
      | Some f => callValue f o [VStr name] st
      | None => v <- hasOwnProperty st o name ;; Ok (v, st)
      end
  | _ => v <- hasOwnProperty st o name ;; Ok (v, st)
  end.

Definition getVar (st : RState) (id : nat) : val :=
  default VUndefined (rvars st !! id).

Definition setVar (st : RState) (id : nat) (v : val) : RState :=
  mkRState (<[id := v]> (rvars st)) (rstore st).

Definition withStore (st : RState) (s : store) : RState :=
  mkRState (rvars st) s.

Definition readParam (p : option val) (st : RState) : res (val * RState) :=
  match p with
  | Some v => Ok (v, st)
  | None => Throw ReferenceError
  end.

Definition coercible (v : val) : res unit :=
  match v with
  | VUndefined | VNull => Throw TypeError
  | _ => Ok tt
  end.

(** The value of an expression.  Operands are evaluated from left to
    right; a call through a member expression passes the object as the
    receiver, any other call passes undefined; an assignment evaluates
    the object and the key of its target, then its right-hand side. *)
Fixpoint evalExpr (ps : Params) (e : JSExpr) (st : RState) {struct e}
    : res (val * RState) :=
  let evalList :=
    fix evalList (es : list JSExpr) (st : RState) : res (list val * RState) :=
      match es with
      | [] => Ok ([], st)
      | e :: es' =>
          r <- evalExpr ps e st ;;
          rs <- evalList es' (snd r) ;;
          Ok (fst r :: fst rs, snd rs)
      end in
  match e with
  | ELit v => Ok (v, st)
  | EVar id => Ok (getVar st id, st)
  | EScope => readParam (param_s ps) st
  | ELocals => readParam (param_l ps) st
  | EValueParam => readParam (param_v ps) st
  | EArray es =>
      rs <- evalList es st ;;
      let '(o, s') := alloc (rstore (snd rs)) (arrayProps 0 (fst rs)) in
      Ok (o, withStore (snd rs) s')
  | EObject properties =>
      rs <- (fix evalProps (l : list (ObjectKey * JSExpr)) (st : RState)
               : res (list (ObjectKey * val) * RState) :=
               match l with
               | [] => Ok ([], st)
               | (k, e) :: l' =>
                   r <- evalExpr ps e st ;;
                   rs <- evalProps l' (snd r) ;;
                   Ok ((k, fst r) :: fst rs, snd rs)
               end) properties st ;;
      let '(o, s') := alloc (rstore (snd rs)) (objectProps (fst rs)) in
      Ok (o, withStore (snd rs) s')
  | EAnd a b =>
      r <- evalExpr ps a st ;;
      if truthy (fst r) then evalExpr ps b (snd r) else Ok r
  | ENot a =>
      r <- evalExpr ps a st ;;
      Ok (VBool (negb (truthy (fst r))), snd r)
  | ECond c a b =>
      r <- evalExpr ps c st ;;
      if truthy (fst r) then evalExpr ps a (snd r) else evalExpr ps b (snd r)
  | EHasOwn o name =>
      r <- evalExpr ps o st ;;
      out <- callHasOwnProperty (rstore (snd r)) (fst r) name ;;
      Ok (fst out, withStore (snd r) (snd out))
  | EMember o name =>
      r <- evalExpr ps o st ;;
      v <- getProp (rstore (snd r)) (fst r) name ;;
      Ok (v, snd r)
  | EIndex o p =>
      r <- evalExpr ps o st ;;
      k <- evalExpr ps p (snd r) ;;
      v <- getProp (rstore (snd k)) (fst r) (propertyKey (fst k)) ;;
      Ok (v, snd k)
  | ECall callee args =>
      c <- match callee with
           | EMember o name =>
               r <- evalExpr ps o st ;;
               f <- getProp (rstore (snd r)) (fst r) name ;;
               Ok (f, fst r, snd r)
           | EIndex o p =>
               r <- evalExpr ps o st ;;
               k <- evalExpr ps p (snd r) ;;
               f <- getProp (rstore (snd k)) (fst r) (propertyKey (fst k)) ;;
               Ok (f, fst r, snd k)
           | _ =>
               r <- evalExpr ps callee st ;;
               Ok (fst r, VUndefined, snd r)
           end ;;
      let '(f, this, st1) := c in
      rs <- evalList args st1 ;;
      out <- callValue f this (fst rs) (rstore (snd rs)) ;;
      Ok (fst out, withStore (snd rs) (snd out))
  | EGuard g e =>
      r <- evalExpr ps e st ;;
      v <- guard g (rstore (snd r)) (fst r) ;;
      Ok (v, snd r)
  | EIsDefined e d =>
      r <- evalExpr ps e st ;;
      Ok (match fst r with VUndefined => d | v => v end, snd r)
  | EUnary op e =>
      r <- evalExpr ps e st ;;
      Ok (unary_op op (fst r), snd r)
  | EBinary op a b =>
      r <- evalExpr ps a st ;;
      q <- evalExpr ps b (snd r) ;;
      Ok (binary_op op (fst r) (fst q), snd q)
  | EAssign lhs rhs =>
      match lhs with
      | EVar id =>
          r <- evalExpr ps rhs st ;;
          Ok (fst r, setVar (snd r) id (fst r))
      | EMember o name =>
          r <- evalExpr ps o st ;;
          _ <- coercible (fst r) ;;
          x <- evalExpr ps rhs (snd r) ;;
          Ok (fst x, withStore (snd x) (putProp (rstore (snd x)) (fst r) name (fst x)))
      | EIndex o p =>
          r <- evalExpr ps o st ;;
          k <- evalExpr ps p (snd r) ;;
          _ <- coercible (fst r) ;;
          x <- evalExpr ps rhs (snd k) ;;
          Ok (fst x, withStore (snd x)
                       (putProp (rstore (snd x)) (fst r) (propertyKey (fst k)) (fst x)))
      | _ => Throw ReferenceError
      end
  | EObjectText => Throw SyntaxError
  end.

(** Running the statements of a function body: the returned value, or
    [None] when the end of the body is reached. *)
Fixpoint execStmts (ps : Params) (body : list JSStmt) (st : RState)
    : res (option val * RState) :=
  match body with
  | [] => Ok (None, st)
  | stmt :: rest =>
      match stmt with
      | SIf test consequent =>
          r <- evalExpr ps test st ;;
          if truthy (fst r) then
            c <- evalExpr ps consequent (snd r) ;;
            execStmts ps rest (snd c)
          else execStmts ps rest (snd r)
      | SExpr e =>
          r <- evalExpr ps e st ;;
          execStmts ps rest (snd r)
      | SReturn e =>
          r <- evalExpr ps e st ;;
          Ok (Some (fst r), snd r)
      | SEmpty => execStmts ps rest st
      | SInvalid => Throw SyntaxError
      end
  end.

(** Calling a function with the given body: a function that does not
    return yields undefined. *)
Definition callBody (ps : Params) (filterVars : gmap nat val)
    (body : list JSStmt) (st : store) : res (val * store) :=
  r <- execStmts ps body (mkRState filterVars st) ;;
  Ok (default VUndefined (fst r), rstore (snd r)).

End Runtime.

(** ** [compile] and [new Function] *)

Record CompiledFunction `{JSNumber} := mkCompiled {
  fn : list JSStmt;                   (* the body of [fn = function(s, l)] *)
  fn_inputs : list (list JSStmt);     (* the bodies of [fn.inputs]; the
                                         attribute is absent when empty *)
  fn_assign : option (list JSStmt);   (* the body of [fn.assign = function
                                         (s, v, l)]; [None] for the empty
                                         function *)
  fn_filters : gmap nat val;          (* the variables of the filters *)
  fn_literal : bool;
  fn_constant : bool;
}.
Arguments mkCompiled {_} _ _ _ _ _ _.

Section Compile.
Context `{JSHost}.
Variable filters : FiltersMap.

(** Text in a place where an expression is expected: an assignment, which
    carries its semicolon, is a syntax error there. *)
Fixpoint exprOk (e : JSExpr) : bool :=
  match e with
  | ELit _ | EVar _ | EScope | ELocals | EValueParam => true
  | EArray es => forallb exprOk es
  | EObject ps => forallb (fun p => match p with (_, v) => exprOk v end) ps
  | EAnd a b | EBinary _ a b | EIndex a b => exprOk a && exprOk b
  | ENot a | EHasOwn a _ | EMember a _ | EGuard _ a | EIsDefined a _
  | EUnary _ a => exprOk a
  | ECond c a b => exprOk c && exprOk a && exprOk b
  | ECall c args => exprOk c && forallb exprOk args
  | EAssign _ _ | EObjectText => false
  end.

(** Text at the end of a statement, where the semicolon of an assignment
    is an empty statement. *)
Fixpoint tailOk (e : JSExpr) : bool :=
  match e with
  | EAssign lhs rhs => exprOk lhs && tailOk rhs
  | _ => exprOk e
  end.

Definition stmtOk (s : JSStmt) : bool :=
  match s with
  | SIf test consequent => exprOk test && tailOk consequent
  | SExpr e | SReturn e => tailOk e
  | SEmpty => true
  | SInvalid => false
  end.

Definition initialState : ASTCompilerState :=
  mkState [(FnMain, mkFnCode [] []); (FnAssign, mkFnCode [] [])]
    0 [] FnMain [] StageMain.

Definition setStage (s : Stage) : Gen unit :=
  fun st => Ok (tt, mkState (functions st) (nextId st) (sfilters st)
                      (computing st) (inputs st) s).

Definition setComputing (k : FnKey) : Gen unit :=
  fun st => Ok (tt, mkState (functions st) (nextId st) (sfilters st)
                      k (inputs st) (stage st)).

(** [this.state.functions[inputKey] = { body: [], vars: [] }] *)
Definition resetFunction (k : FnKey) : Gen unit :=
  fun st => Ok (tt, mkState
                      (setFunction (functions st) k (mkFnCode [] []))
                      (nextId st) (sfilters st) (computing st) (inputs st)
                      (stage st)).

Definition pushInput (k : FnKey) : Gen unit :=
  fun st => Ok (tt, mkState (functions st) (nextId st) (sfilters st)
                      (computing st) (inputs st ++ [k]) (stage st)).

(** [_.each(AST.getInputs(ast), (input, index) => ...)] *)
Fixpoint compileInputs (l : list ASTNode) (index : nat) : Gen unit :=
  match l with
  | [] => ret tt
  | input :: rest =>
      gbind (resetFunction (FnInput index)) (fun _ =>
      gbind (setComputing (FnInput index)) (fun _ =>
      gbind (recurse input false) (fun e =>
      gbind (push (SReturn (fst e))) (fun _ =>
      gbind (pushInput (FnInput index)) (fun _ =>
      compileInputs rest (S index))))))
  end.

(** The statements of [compile] up to the call of [new Function]. *)
Definition generate (ast : ASTProgramNode) : Gen (option ASTNode) :=
  gbind (setStage StageInputs) (fun _ =>
  gbind (compileInputs (getInputs ast) 0) (fun _ =>
  gbind (setStage StageAssign) (fun _ =>
  let assignable := assignableAST ast in
  gbind (match assignable with
         | Some a =>
             gbind (setComputing FnAssign) (fun _ =>
             gbind (recurse a false) (fun e => push (SExpr (fst e))))
         | None => ret tt
         end) (fun _ =>
  gbind (setComputing FnMain) (fun _ =>
  gbind (setStage StageMain) (fun _ =>
  gbind (recurseProgram ast) (fun _ =>
  ret assignable))))))).

(** [filterPrefix()]: every variable of [state.filters] is bound to
    [filter(name)] when the enclosing function runs. *)
Definition filterPrefix (st : ASTCompilerState) : gmap nat val :=
  fold_left (fun m p => <[snd p := filter filters (fst p)]> m) (sfilters st) ∅.

(** [new Function(..., fnString)(...)]: the text must parse; it holds the
    body of [fn], the bodies of the watch functions and, when the
    expression is assignable, the body of [fn.assign]. *)
Definition newFunction (ast : ASTProgramNode) (assignable : option ASTNode)
    (st : ASTCompilerState) : res CompiledFunction :=
  let main := fbody (getFunction (functions st) FnMain) in
  let watchFns := map (fun k => fbody (getFunction (functions st) k)) (inputs st) in
  let assignFn :=
    match assignable with
    | Some _ => Some (fbody (getFunction (functions st) FnAssign))
    | None => None
    end in
  if forallb stmtOk main && forallb (forallb stmtOk) watchFns &&
     forallb stmtOk (default [] assignFn)
  then Ok (mkCompiled main watchFns assignFn (filterPrefix st)
             (isLiteral ast) (program_constant ast))
  else Throw SyntaxError.

(** [compile(text)] after the call of [this.astBuilder.ast(text)] *)
Definition compileProgram (ast : ASTProgramNode) : res CompiledFunction :=
  r <- generate ast initialState ;;
  newFunction ast (fst r) (snd r).

(** [compile(text)] *)
Definition compile (text : str) : res CompiledFunction :=
  ast <- ast filters text ;;
  compileProgram ast.

(** ** The [parse] entry point *)

(** What [parse] returns: a compiled function with its [oneTime]
    attribute, the function it was given, or [_.noop]. *)
Inductive ParsedFunction :=
| Compiled (f : CompiledFunction) (oneTime : bool)
| TheFunction (f : func)
| Noop.

(** [parse(expr)], by [typeof expr]. *)
Definition parse (expr : val) : res ParsedFunction :=
  match expr with
  | VStr s =>
      let '(oneTime, s) :=
        if bool_decide (s !! 0%nat = Some (code ":")) &&
           bool_decide (s !! 1%nat = Some (code ":"))
        then (true, drop 2 s) else (false, s) in
      parsedFn <- compile s ;;
      Ok (Compiled parsedFn oneTime)
  | VFun f => Ok (TheFunction f)
  | _ => Ok Noop
  end.

(** The [oneTime] attribute [parse] has set. *)
Definition oneTime (f : ParsedFunction) : option bool :=
  match f with
  | Compiled _ b => Some b
  | _ => None
  end.

(** Calling what [parse] returned on [(scope, locals)]. *)
Definition callParsed (f : ParsedFunction) (scope locals : val) (st : store)
    : res (val * store) :=
  match f with
  | Compiled c _ =>
      callBody (mkParams (Some scope) (Some locals) None) (fn_filters c) (fn c) st
  | TheFunction g => callValue (VFun g) VUndefined [scope; locals] st
  | Noop => Ok (VUndefined, st)
  end.

(** Calling [fn.inputs[i]] on a scope and [fn.assign] on
    [(scope, value, locals)]. *)
Definition callInput (c : CompiledFunction) (i : nat) (scope : val) (st : store)
    : res (val * store) :=
  match fn_inputs c !! i with
  | Some body => callBody (mkParams (Some scope) None None) (fn_filters c) body st
  | None => Throw TypeError
  end.

Definition callAssign (c : CompiledFunction) (scope v locals : val) (st : store)
    : res (val * store) :=
  match fn_assign c with
  | Some body =>
      callBody (mkParams (Some scope) (Some locals) (Some v)) (fn_filters c) body st
  | None => Ok (VUndefined, st)
  end.

End Compile.

(** ** A host to run examples on

    Numbers are exact decimals [m * 10^e] (no rounding, no infinities), so
    that literals and sums of literals are what they are in JavaScript;
    division and remainder are not provided and yield NaN.  The functions
    of the host are a few fixed ones. *)
Module ExampleHost.

Inductive dec := NaN | Dec (m e : Z).

#[global] Instance dec_eq_dec : EqDecision dec.
Proof. solve_decision. Defined.

Fixpoint normalize (fuel : nat) (m e : Z) : dec :=
  match fuel with
  | O => Dec m e
  | S n =>
      if (m =? 0)%Z then Dec 0 0
      else if (m mod 10 =? 0)%Z then normalize n (m / 10) (e + 1)
      else Dec m e
  end.

Definition mkDec (m e : Z) : dec := normalize (S (Z.to_nat (Z.log2 (Z.abs m)))) m e.

Definition isDigit (c : char) : bool := ((48 <=? c) && (c <=? 57))%N.

Definition digitsValue (ds : str) : Z :=
  fold_left (fun acc c => (10 * acc + (Z.of_N c - 48))%Z) ds 0%Z.

Fixpoint span (p : char -> bool) (s : str) : str * str :=
  match s with
  | c :: s' => if p c then let '(a, b) := span p s' in (c :: a, b) else ([], s)
  | [] => ([], [])
  end.

(** [_.toNumber] on the text of a number: digits, an optional fraction,
    an optional exponent; anything else is NaN. *)
Definition parseNumber (s : str) : dec :=
  let '(ip, r1) := span isDigit s in
  let '(fp, r2) :=
    match r1 with
    | 46%N :: r => span isDigit r
    | _ => ([], r1)
    end in
  if (length ip + length fp =? 0)%nat then NaN
  else
    let m := digitsValue (ip ++ fp) in
    let sh := (- Z.of_nat (length fp))%Z in
    match r2 with
    | [] => mkDec m sh
    | 101%N :: r =>
        let '(sign, ds) :=
          match r with
          | 43%N :: d => (1%Z, d)
          | 45%N :: d => ((-1)%Z, d)
          | _ => (1%Z, r)
          end in
        if negb (length ds =? 0)%nat && forallb isDigit ds
        then mkDec m (sh + sign * digitsValue ds)
        else NaN
    | _ => NaN
    end.

Definition align (a b : dec) : option (Z * Z * Z) :=
  match a, b with
  | Dec m1 e1, Dec m2 e2 =>
      let e := Z.min e1 e2 in
      Some ((m1 * 10 ^ (e1 - e))%Z, (m2 * 10 ^ (e2 - e))%Z, e)
  | _, _ => None
  end.

Definition add (a b : dec) : dec :=
  match align a b with Some (x, y, e) => mkDec (x + y) e | None => NaN end.
Definition sub (a b : dec) : dec :=
  match align a b with Some (x, y, e) => mkDec (x - y) e | None => NaN end.
Definition mul (a b : dec) : dec :=
  match a, b with
  | Dec m1 e1, Dec m2 e2 => mkDec (m1 * m2) (e1 + e2)
  | _, _ => NaN
  end.
Definition ltb (a b : dec) : bool :=
  match align a b with Some (x, y, _) => (x <? y)%Z | None => false end.
Definition eqb (a b : dec) : bool :=
  match align a b with Some (x, y, _) => (x =? y)%Z | None => false end.

Definition toStr (d : dec) : str :=
  match d with
  | NaN => js "NaN"
  | Dec m 0 => js (pretty m)
  | Dec m e => js (pretty m) ++ js "e" ++ js (pretty e)
  end.

#[global] Instance number : JSNumber := {|
  num := dec;
  toNumber := parseNumber;
  num_zero := Dec 0 0;
  num_truthy := fun d => match d with NaN | Dec 0 _ => false | _ => true end;
  num_strict_eq := eqb;
  num_to_str := toStr;
  num_of_nat := fun n => mkDec (Z.of_nat n) 0;
|}.

(** The functions of the example host, by their number. *)
Definition fnObject : func := HostFn 100.        (* [Object] *)
Definition fnToString : func := HostFn 101.      (* [Object.prototype.toString] *)
Definition fnThis : func := HostFn 0.            (* [function () { return this }] *)
Definition fnFirst : func := HostFn 1.           (* [function (x) { return x }] *)
(* [function () { if (this.called) return 'constructor';
                  this.called = true; return 'value' }] *)
Definition fnOnce : func := HostFn 2.

Definition wrap (v : val) : val :=
  match v with VUndefined => VNum (Dec 0 0) | _ => v end.

Definition unary (op : str) (v : val) : val :=
  if str_eqb op (js "!") then
    VBool (match v with
           | VUndefined | VNull => true
           | VBool b => negb b
           | VNum d => negb (num_truthy d)
           | VStr s => bool_decide (s = [])
           | _ => false
           end)
  else match v with
       | VNum d => if str_eqb op (js "-") then VNum (sub (Dec 0 0) d) else VNum d
       | _ => VNum NaN
       end.

Definition sameValue (a b : val) : bool :=
  match a, b with
  | VNum x, VNum y => eqb x y
  | _, _ => bool_decide (a = b)
  end.

Definition binary (op : str) (a b : val) : val :=
  if str_eqb op (js "===") then VBool (sameValue a b)
  else if str_eqb op (js "!==") then VBool (negb (sameValue a b))
  else match a, b with
       | VNum x, VNum y =>
           if str_eqb op (js "+") then VNum (add x y)
           else if str_eqb op (js "-") then VNum (sub x y)
           else if str_eqb op (js "*") then VNum (mul x y)
           else if str_eqb op (js "<") then VBool (ltb x y)
           else if str_eqb op (js ">") then VBool (ltb y x)
           else if str_eqb op (js "<=") then VBool (ltb x y || eqb x y)
           else if str_eqb op (js ">=") then VBool (ltb y x || eqb x y)
           else if str_eqb op (js "==") then VBool (eqb x y)
           else if str_eqb op (js "!=") then VBool (negb (eqb x y))
           else VNum NaN
       | VStr x, VStr y =>
           if str_eqb op (js "+") then VStr (x ++ y) else VNum NaN
       | _, _ => VNum NaN
       end.

Definition objectPrototype (name : str) : val :=
  if str_eqb name (js "constructor") then VFun fnObject
  else if str_eqb name (js "toString") then VFun fnToString
  else if str_eqb name (js "__proto__") then VObj 0
  else if includes (map js ["hasOwnProperty"; "valueOf"; "isPrototypeOf";
                            "propertyIsEnumerable"; "toLocaleString";
                            "__defineGetter__"; "__defineSetter__";
                            "__lookupGetter__"; "__lookupSetter__"]%string)
                   name then VFun (HostFn 102)
  else VUndefined.

Definition primGet (v : val) (name : str) : val :=
  match v with
  | VFun f =>
      if str_eqb name (js "constructor") then VFun FunctionCtor
      else if str_eqb name (js "call") then VFun FunctionCall
      else if str_eqb name (js "apply") then VFun FunctionApply
      else if str_eqb name (js "bind") then VFun FunctionBind
      else if bool_decide (f = fnObject) &&
              includes [js "getOwnPropertyNames"; js "getOwnPropertyDescriptor"] name
      then VFun (HostFn 103)
      else objectPrototype name
  | VStr s =>
      if str_eqb name (js "length") then VNum (mkDec (Z.of_nat (length s)) 0)
      else objectPrototype name
  | _ => objectPrototype name
  end.

Definition callFunction (f : func) (this : val) (args : list val) (st : store)
    : res (val * store) :=
  if bool_decide (f = fnThis) then Ok (this, st)
  else if bool_decide (f = fnFirst) then Ok (default VUndefined (head args), st)
  else if bool_decide (f = fnToString) then Ok (VStr (js "[object Object]"), st)
  else if bool_decide (f = fnOnce) then
    match this with
    | VObj l =>
        match default ∅ (heap st !! l) !! js "called" with
        | Some _ => Ok (VStr (js "constructor"), st)
        | None =>
            Ok (VStr (js "value"),
                mkStore (<[l := <[js "called" := VBool true]>
                                  (default ∅ (heap st !! l))]> (heap st))
                        (nextLoc st) (callLog st))
        end
    | _ => Ok (VUndefined, st)
    end
  else Ok (VUndefined, st).

#[global] Instance host : JSHost := {|
  object_prototype := objectPrototype;
  prim_get := primGet;
  prim_hasOwnProperty := fun v name =>
    match v with VStr _ => str_eqb name (js "length") | _ => false end;
  to_property_key := fun v =>
    match v with
    | VUndefined => js "undefined"
    | VNull => js "null"
    | VBool true => js "true"
    | VBool false => js "false"
    | VNum d => toStr d
    | VStr s => s
    | VObj _ => js "[object Object]"
    | VFun _ => js "function"
    end;
  unary_op := unary;
  binary_op := binary;
  typeof_Node_is_object := false;
  instanceof_Node := fun _ => false;
  call_function := callFunction;
|}.

(** A store holding the given objects at the locations 1, 2, ... *)
Definition storeOf (objects : list (list (string * val))) : store :=
  mkStore
    (list_to_map
       (imap (fun i o => (N.of_nat (S i),
                          list_to_map (map (fun p => (js (fst p), snd p)) o)))
             objects))
    (N.of_nat (S (length objects))) [].

End ExampleHost.

(** ** The scope *)

(** Modelled from the spec: [src/scope.js] is not among the sources; only
    its tests are.  The digest of section 4.6.2 of the specification is
    written out: the TTL loop bounded at 10 iterations, the async queue
    drained before each pass over the watchers, the pass in registration
    order with the [lastDirty] short cut, the post-digest queue drained
    once after the loop, and the phase.  The functions of the user (watch
    functions, listeners, queued tasks) are named by numbers and given
    their meaning by [callWatch], [callListener] and [callTask]; a function
    that throws leaves the scope as it found it. *)
Module Digest.
Section Digest.

Variable U : Type.                   (* the properties of the scope object *)
Variable V : Type.                   (* the watched values *)
Variable same : V -> V -> bool.      (* [===], with NaN equal to NaN *)
Variable deepEqual : V -> V -> bool. (* structural equality *)
Variable cloneDeep : V -> V.

Inductive Phase := PhaseDigest | PhaseApply.

Record Watcher := mkWatcher {
  wid : nat;                         (* the identity of the watcher *)
  watch : nat;
  listener : option nat;
  byValue : bool;
  last : option V;                   (* [None]: the never-seen sentinel *)
}.

Record Scope := mkScope {
  data : U;
  watchers : list Watcher;
  asyncQueue : list nat;
  applyAsyncQueue : list nat;
  postDigestQueue : list nat;
  phase : option Phase;
  applyAsyncId : option nat;
  lastDirty : option nat;
  logged : list exn;                 (* what the injected logger received *)
}.

Variable callWatch : nat -> Scope -> exn + (V * Scope).
Variable callListener : nat -> V -> V -> Scope -> exn + Scope.
Variable callTask : nat -> Scope -> exn + Scope.

Definition TTL : nat := 10.

Definition setPhase (p : option Phase) (sc : Scope) : Scope :=
  mkScope (data sc) (watchers sc) (asyncQueue sc) (applyAsyncQueue sc)
    (postDigestQueue sc) p (applyAsyncId sc) (lastDirty sc) (logged sc).

Definition setLastDirty (d : option nat) (sc : Scope) : Scope :=
  mkScope (data sc) (watchers sc) (asyncQueue sc) (applyAsyncQueue sc)
    (postDigestQueue sc) (phase sc) (applyAsyncId sc) d (logged sc).

Definition logError (e : exn) (sc : Scope) : Scope :=
  mkScope (data sc) (watchers sc) (asyncQueue sc) (applyAsyncQueue sc)
    (postDigestQueue sc) (phase sc) (applyAsyncId sc) (lastDirty sc)
    (logged sc ++ [e]).

Definition setLast (id : nat) (v : V) (sc : Scope) : Scope :=
  mkScope (data sc)
    (map (fun w => if (wid w =? id)%nat
                   then mkWatcher (wid w) (watch w) (listener w) (byValue w) (Some v)
                   else w) (watchers sc))
    (asyncQueue sc) (applyAsyncQueue sc) (postDigestQueue sc) (phase sc)
    (applyAsyncId sc) (lastDirty sc) (logged sc).

(** A task or listener whose exception is caught and logged. *)
Definition guarded (r : exn + Scope) (sc : Scope) : Scope :=
  match r with
  | inr sc' => sc'
  | inl e => logError e sc
  end.

(** Every task that is pending is evaluated, in order; what the tasks
    enqueue stays in the queue. *)
Fixpoint runTasks (tasks : list nat) (sc : Scope) : Scope :=
  match tasks with
  | [] => sc
  | t :: rest => runTasks rest (guarded (callTask t sc) sc)
  end.

Definition drainAsyncQueue (sc : Scope) : Scope :=
  let pending := asyncQueue sc in
  runTasks pending
    (mkScope (data sc) (watchers sc) [] (applyAsyncQueue sc)
       (postDigestQueue sc) (phase sc) (applyAsyncId sc) (lastDirty sc)
       (logged sc)).

Definition drainPostDigestQueue (sc : Scope) : Scope :=
  let pending := postDigestQueue sc in
  runTasks pending
    (mkScope (data sc) (watchers sc) (asyncQueue sc) (applyAsyncQueue sc)
       [] (phase sc) (applyAsyncId sc) (lastDirty sc) (logged sc)).

(** A digest that begins while a flush of the applyAsync queue is
    scheduled cancels the flush and drains that queue inline. *)
Definition flushApplyAsync (sc : Scope) : Scope :=
  match applyAsyncId sc with
  | None => sc
  | Some _ =>
      let pending := applyAsyncQueue sc in
      runTasks pending
        (mkScope (data sc) (watchers sc) (asyncQueue sc) []
           (postDigestQueue sc) (phase sc) None (lastDirty sc) (logged sc))
  end.

Definition areEqual (w : Watcher) (newValue : V) : bool :=
  match last w with
  | None => false
  | Some old => if byValue w then deepEqual newValue old else same newValue old
  end.

(** Modelled from the spec: one pass over the watchers that were
    registered when the pass began,
    in order; a watcher that has vanished is not dispatched.  Returns
    whether some watcher was dirty. *)
Fixpoint digestOnce (ids : list nat) (dirty : bool) (sc : Scope)
    : bool * Scope :=
  match ids with
  | [] => (dirty, sc)
  | id :: rest =>
      match List.find (fun w => (wid w =? id)%nat) (watchers sc) with
      | None => digestOnce rest dirty sc
      | Some w =>
          match callWatch (watch w) sc with
          | inl e => digestOnce rest dirty (logError e sc)
          | inr (newValue, sc1) =>
              if areEqual w newValue then
                if bool_decide (lastDirty sc1 = Some id) then (dirty, sc1)
                else digestOnce rest dirty sc1
              else
                let sc2 :=
                  setLast id (if byValue w then cloneDeep newValue else newValue)
                    (setLastDirty (Some id) sc1) in
                let previous := default newValue (last w) in
                let sc3 :=
                  match listener w with
                  | Some l => guarded (callListener l newValue previous sc2) sc2
                  | None => sc2
                  end in
                digestOnce rest true sc3
          end
      end
  end.

(** Modelled from the spec: the TTL loop; [ttl] iterations are left, [n] have been run.  Returns
    the number of iterations run and whether the watchers stabilised. *)
Fixpoint digestLoop (ttl n : nat) (sc : Scope) : nat * bool * Scope :=
  match ttl with
  | O => (n, false, sc)
  | S ttl' =>
      let sc1 := drainAsyncQueue sc in
      let '(dirty, sc2) := digestOnce (map wid (watchers sc1)) false sc1 in
      if dirty || negb (bool_decide (asyncQueue sc2 = []))
      then digestLoop ttl' (S n) sc2
      else (S n, true, sc2)
  end.

(** Modelled from the spec: [digest()]; the outer iterations run, the error raised if any, and
    the scope afterwards. *)
Definition digest (sc : Scope) : nat * option exn * Scope :=
  match phase sc with
  | Some _ => (O, Some PhaseInProgress, sc)
  | None =>
      let sc0 := flushApplyAsync (setLastDirty None (setPhase (Some PhaseDigest) sc)) in
      let '(n, stable, sc1) := digestLoop TTL 0 sc0 in
      if stable then (n, None, drainPostDigestQueue (setPhase None sc1))
      else (n, Some DigestLimit, setPhase None sc1)
  end.

End Digest.
End Digest.

(** ** Predicates used in the statements *)

(** The characters of a number before its exponent: digits and dots. *)
Definition isDigitChar (c : char) : bool := ((48 <=? c) && (c <=? 57))%N.
Definition isMantissaChar (c : char) : bool := (c =? 46)%N || isDigitChar c.

Section FilterPredicates.
Context `{JSHost}.
Variable filters : FiltersMap.

(** Every filter node of the tree names a filter that [filter(name)]
    finds. *)
Fixpoint filtersResolved (n : ASTNode) : bool :=
  match n with
  | ASTArrayExpressionNode l => forallb filtersResolved l
  | ASTObjectNode ps =>
      forallb (fun p => match p with (_, v) => filtersResolved v end) ps
  | ASTNonComputedMemberExpressionNode o _ | ASTUnaryExpressionNode _ o =>
      filtersResolved o
  | ASTComputedMemberExpressionNode a b | ASTAssignmentExpressionNode a b
  | ASTBinaryExpressionNode _ a b | ASTLogicalExpressionNode _ a b =>
      filtersResolved a && filtersResolved b
  | ASTCallExpressionNode c l => filtersResolved c && forallb filtersResolved l
  | ASTFilterExpressionNode c l _ =>
      negb (throws (filter_stateful_of filters c)) && forallb filtersResolved l
  | ASTConditionalExpressionNode a b c =>
      filtersResolved a && filtersResolved b && filtersResolved c
  | _ => true
  end.

(** The tree has a filter node whose callee is named [f]. *)
Fixpoint usesFilter (f : str) (n : ASTNode) : bool :=
  match n with
  | ASTArrayExpressionNode l => existsb (usesFilter f) l
  | ASTObjectNode ps =>
      existsb (fun p => match p with (_, v) => usesFilter f v end) ps
  | ASTNonComputedMemberExpressionNode o _ | ASTUnaryExpressionNode _ o =>
      usesFilter f o
  | ASTComputedMemberExpressionNode a b | ASTAssignmentExpressionNode a b
  | ASTBinaryExpressionNode _ a b | ASTLogicalExpressionNode _ a b =>
      usesFilter f a || usesFilter f b
  | ASTCallExpressionNode c l => usesFilter f c || existsb (usesFilter f) l
  | ASTFilterExpressionNode c l _ => str_eqb c f || existsb (usesFilter f) l
  | ASTConditionalExpressionNode a b c =>
      usesFilter f a || usesFilter f b || usesFilter f c
  | _ => false
  end.

End FilterPredicates.

Section Predicates.
Context `{JSNumber}.

(** The node classes whose constructor sets [toWatch = [this]] and whose
    [constant] can be true. *)
Definition watchesItself (n : ASTNode) : bool :=
  match n with
  | ASTNonComputedMemberExpressionNode _ _
  | ASTComputedMemberExpressionNode _ _
  | ASTAssignmentExpressionNode _ _
  | ASTLogicalExpressionNode _ _ _
  | ASTConditionalExpressionNode _ _ _ => true
  | _ => false
  end.

(** No node of one of these classes occurs in the tree. *)
Fixpoint withoutSelfWatch (n : ASTNode) : bool :=
  negb (watchesItself n) &&
  match n with
  | ASTArrayExpressionNode l | ASTFilterExpressionNode _ l _ =>
      forallb withoutSelfWatch l
  | ASTObjectNode ps =>
      forallb (fun p => match p with (_, v) => withoutSelfWatch v end) ps
  | ASTCallExpressionNode c l => withoutSelfWatch c && forallb withoutSelfWatch l
  | ASTUnaryExpressionNode _ a => withoutSelfWatch a
  | ASTBinaryExpressionNode _ a b => withoutSelfWatch a && withoutSelfWatch b
  | _ => true
  end.

(** Unary, binary and stateless filter nodes pass the [toWatch] of their
    operands on; [passesNothingOn n] holds when no node that watches itself
    is reached from [n] through nodes of these three classes. *)
Fixpoint passesNothingOn (n : ASTNode) : bool :=
  match n with
  | ASTUnaryExpressionNode _ a => passesNothingOn a
  | ASTBinaryExpressionNode _ a b => passesNothingOn a && passesNothingOn b
  | ASTFilterExpressionNode _ args _ => forallb passesNothingOn args
  | _ => negb (watchesItself n)
  end.

End Predicates.

Section IdentifierPredicates.
Context `{JSHost}.

(** A name as [readIdentifier] reads it: a letter, [_] or [$], then
    letters, [_], [$] and digits. *)
Definition isIdentifierName (name : str) : bool :=
  match name with
  | [] => false
  | c :: rest =>
      isIdentifier (Some [c]) &&
      forallb (fun ch => isIdentifier (Some [ch]) || isNumber (Some [ch])) rest
  end.

(** [o.hasOwnProperty(name)] read as a boolean. *)
Definition ownsProperty (st : store) (o : val) (name : str) : bool :=
  match hasOwnProperty st o name with
  | Ok (VBool b) => b
  | _ => false
  end.

(** The value an identifier [name] stands for on [(s, l)]: the locals'
    own property, else the scope's property, else undefined. *)
Definition resolveIdentifier (st : store) (s l : val) (name : str) : val :=
  if truthy l && ownsProperty st l name then getMember st l name
  else if truthy s then getMember st s name
  else VUndefined.


(** The body of [fn.assign] of the expression [name]. *)
Definition identifierAssign (name : str) : list JSStmt :=
  [SIf (EAnd ELocals (EHasOwn ELocals name))
     (EAssign (EVar 0) (EMember ELocals name));
   SIf (EAnd (EAnd (ENot (EAnd ELocals (EHasOwn ELocals name))) EScope)
             (ENot (EAnd EScope (EHasOwn EScope name))))
     (EAssign (EMember EScope name) (EObject []));
   SIf (EAnd (ENot (EAnd ELocals (EHasOwn ELocals name))) EScope)
     (EAssign (EVar 0) (EMember EScope name));
   SExpr (EGuard EnsureSafeObject (EVar 0));
   SExpr (EAssign
            (EMember (ECond (EAnd ELocals (EHasOwn ELocals name)) ELocals EScope)
               name)
            (EGuard EnsureSafeObject EValueParam))].


(** The statements of an identifier in the main stage, with variable
    [id]. *)
Definition identifierMain (name : str) (id : nat) : list JSStmt :=
  [SIf (EAnd ELocals (EHasOwn ELocals name)) (EAssign (EVar id) (EMember ELocals name));
   SIf (EAnd (ENot (EAnd ELocals (EHasOwn ELocals name))) EScope)
     (EAssign (EVar id) (EMember EScope name));
   SExpr (EGuard EnsureSafeObject (EVar id));
   SReturn (EVar id)].

(** The statements of an identifier in the inputs stage, where
    [localsCheck] is the text [false]. *)
Definition identifierInput (name : str) (id : nat) : list JSStmt :=
  [SIf (ELit (VBool false)) (EAssign (EVar id) (EMember ELocals name));
   SIf (EAnd (ENot (ELit (VBool false))) EScope)
     (EAssign (EVar id) (EMember EScope name));
   SExpr (EGuard EnsureSafeObject (EVar id));
   SReturn (EVar id)].

(** The value of an identifier in a watch function, which has the scope
    only. *)
Definition resolveInput (st : store) (s : val) (name : str) : val :=
  if truthy s then getMember st s name else VUndefined.

(** The object a call of the identifier [callee] is made on: the locals
    when they own [callee], else the scope. *)
Definition calleeContext (callee : str) : JSExpr :=
  ECond (EAnd ELocals (EHasOwn ELocals callee)) ELocals EScope.

(** The body of the function compiled from [callee()]. *)
Definition callIdentifierBody (callee : str) : list JSStmt :=
  [SIf (EAnd ELocals (EHasOwn ELocals callee))
     (EAssign (EVar 0) (EMember ELocals callee));
   SIf (EAnd (ENot (EAnd ELocals (EHasOwn ELocals callee))) EScope)
     (EAssign (EVar 0) (EMember EScope callee));
   SExpr (EGuard EnsureSafeObject (EVar 0));
   SExpr (EGuard EnsureSafeObject (calleeContext callee));
   SExpr (EGuard EnsureSafeFunction (EMember (calleeContext callee) callee));
   SReturn (EAnd (EMember (calleeContext callee) callee)
              (EGuard EnsureSafeObject
                 (ECall (EMember (calleeContext callee) callee) [])))].

End IdentifierPredicates.

Section FuelPredicates.
Context `{JSHost}.

(** A routine of the parser never returns more tokens than it was given. *)
Definition shrinks {A} (f : Tokens -> res (A * Tokens)) : Prop :=
  forall toks r, f toks = Ok r -> length (snd r) <= length toks.

(** [fuel] is enough for a routine when it covers the [rank] of the routine,
    the length of the longest chain of calls that shift no token, and seven
    units for every token. *)
Definition enough {A} (rank fuel : nat) (f : Tokens -> res (A * Tokens)) : Prop :=
  forall toks, rank + 7 * length toks <= fuel -> f toks <> OutOfFuel.

(** A step of the code generator that returns or throws on every state. *)
Definition safeGen {A} (m : Gen A) : Prop := forall st, m st <> OutOfFuel.

(** A step of the code generator that returns on every state. *)
Definition okGen {A} (m : Gen A) : Prop := forall st, returns (m st) = true.

End FuelPredicates.

Section SandboxPredicates.
Context `{JSHost}.

(** The tree reads [name] as a bare identifier or as the property of a
    non-computed member. *)
Fixpoint readsName (name : str) (n : ASTNode) : bool :=
  match n with
  | ASTIdentifierNode x => str_eqb x name
  | ASTNonComputedMemberExpressionNode o x =>
      readsName name o || str_eqb x name
  | ASTArrayExpressionNode l => existsb (readsName name) l
  | ASTObjectNode ps =>
      existsb (fun p => match p with (_, v) => readsName name v end) ps
  | ASTUnaryExpressionNode _ o => readsName name o
  | ASTComputedMemberExpressionNode a b | ASTAssignmentExpressionNode a b
  | ASTBinaryExpressionNode _ a b | ASTLogicalExpressionNode _ a b =>
      readsName name a || readsName name b
  | ASTCallExpressionNode c l => readsName name c || existsb (readsName name) l
  | ASTFilterExpressionNode _ l _ => existsb (readsName name) l
  | ASTConditionalExpressionNode a b c =>
      readsName name a || readsName name b || readsName name c
  | _ => false
  end.

(** The tree has an assignment node. *)
Fixpoint hasAssignment (n : ASTNode) : bool :=
  match n with
  | ASTAssignmentExpressionNode _ _ => true
  | ASTNonComputedMemberExpressionNode o _ | ASTUnaryExpressionNode _ o =>
      hasAssignment o
  | ASTArrayExpressionNode l | ASTFilterExpressionNode _ l _ =>
      existsb hasAssignment l
  | ASTObjectNode ps =>
      existsb (fun p => match p with (_, v) => hasAssignment v end) ps
  | ASTComputedMemberExpressionNode a b
  | ASTBinaryExpressionNode _ a b | ASTLogicalExpressionNode _ a b =>
      hasAssignment a || hasAssignment b
  | ASTCallExpressionNode c l => hasAssignment c || existsb hasAssignment l
  | ASTConditionalExpressionNode a b c =>
      hasAssignment a || hasAssignment b || hasAssignment c
  | _ => false
  end.

(** A step of the code generator that throws nothing but the two errors of
    [recurse]. *)
Definition throwsOnly {A} (m : Gen A) : Prop :=
  forall st e, m st = Throw e -> e = DisallowedField \/ e = UnableToGetLeftContext.

(** A step of the code generator that throws nothing but 'disallowed
    field'. *)
Definition throwsField {A} (m : Gen A) : Prop :=
  forall st e, m st = Throw e -> e = DisallowedField.

(** The value and the number of logged calls of a result. *)
Definition resultOf {A B} (r : res (A * B)) : option A :=
  match r with Ok (v, _) => Some v | _ => None end.
Definition callsOf (r : res (val * store)) : option nat :=
  match r with Ok (_, st) => Some (length (callLog st)) | _ => None end.

End SandboxPredicates.

(** The scope of the test 'throws error when halted by $evalAsyncs added by
    watch' of the Scope tests: one watcher without listener. *)
Definition haltedScope : Digest.Scope unit unit :=
  Digest.mkScope unit unit tt [Digest.mkWatcher unit 0 0 None false None]
    [] [] [] None None None [].
(** Its watch function, which enqueues a task on the async queue. *)
Definition haltedWatch (w : nat) (sc : Digest.Scope unit unit)
    : exn + (unit * Digest.Scope unit unit) :=
  inr (tt, Digest.mkScope unit unit (Digest.data _ _ sc) (Digest.watchers _ _ sc)
             (Digest.asyncQueue _ _ sc ++ [0%nat]) (Digest.applyAsyncQueue _ _ sc)
             (Digest.postDigestQueue _ _ sc) (Digest.phase _ _ sc)
             (Digest.applyAsyncId _ _ sc) (Digest.lastDirty _ _ sc)
             (Digest.logged _ _ sc)).

Section MorePredicates.
Context `{JSHost}.

(** The tree reads one of the blacklisted names as a bare identifier or as
    the property of a non-computed member. *)
Fixpoint readsBlacklisted (n : ASTNode) : bool :=
  match n with
  | ASTIdentifierNode x => includes blacklist x
  | ASTNonComputedMemberExpressionNode o x =>
      readsBlacklisted o || includes blacklist x
  | ASTArrayExpressionNode l => existsb readsBlacklisted l
  | ASTObjectNode ps =>
      existsb (fun p => match p with (_, v) => readsBlacklisted v end) ps
  | ASTUnaryExpressionNode _ o => readsBlacklisted o
  | ASTComputedMemberExpressionNode a b | ASTAssignmentExpressionNode a b
  | ASTBinaryExpressionNode _ a b | ASTLogicalExpressionNode _ a b =>
      readsBlacklisted a || readsBlacklisted b
  | ASTCallExpressionNode c l => readsBlacklisted c || existsb readsBlacklisted l
  | ASTFilterExpressionNode _ l _ => existsb readsBlacklisted l
  | ASTConditionalExpressionNode a b c =>
      readsBlacklisted a || readsBlacklisted b || readsBlacklisted c
  | _ => false
  end.

(** A text of white space only. *)
Definition isBlank (text : str) : bool :=
  forallb (fun c => isWhiteSpace (Some [c])) text.

(** A routine of the parser that shifts at least one token when it
    returns. *)
Definition consumes {A} (f : Tokens -> res (A * Tokens)) : Prop :=
  forall toks r, f toks = Ok r -> length (snd r) < length toks.

End MorePredicates.

(** * Theorems *)

(** ** Induction on trees *)

Section NodeInduction.
Context `{JSNumber}.
Variable P : ASTNode -> Prop.
Hypothesis HLiteral : forall v, P (ASTLiteralNode v).
Hypothesis HArray : forall l, Forall P l -> P (ASTArrayExpressionNode l).
Hypothesis HObject :
  forall ps, Forall (fun p => P (snd p)) ps -> P (ASTObjectNode ps).
Hypothesis HIdentifier : forall n, P (ASTIdentifierNode n).
Hypothesis HThis : P ASTThisExpressionNode.
Hypothesis HNonComputed :
  forall o n, P o -> P (ASTNonComputedMemberExpressionNode o n).
Hypothesis HComputed :
  forall o p, P o -> P p -> P (ASTComputedMemberExpressionNode o p).
Hypothesis HCall :
  forall c l, P c -> Forall P l -> P (ASTCallExpressionNode c l).
Hypothesis HFilter :
  forall c l s, Forall P l -> P (ASTFilterExpressionNode c l s).
Hypothesis HAssignment :
  forall l r, P l -> P r -> P (ASTAssignmentExpressionNode l r).
Hypothesis HUnary : forall op a, P a -> P (ASTUnaryExpressionNode op a).
Hypothesis HBinary :
  forall op l r, P l -> P r -> P (ASTBinaryExpressionNode op l r).
Hypothesis HLogical :
  forall op l r, P l -> P r -> P (ASTLogicalExpressionNode op l r).
Hypothesis HConditional :
  forall t c a, P t -> P c -> P a -> P (ASTConditionalExpressionNode t c a).
Hypothesis HValueParam : P ASTNGValueParamter.

Fixpoint ASTNode_induction (n : ASTNode) : P n :=
  match n with
  | ASTLiteralNode v => HLiteral v
  | ASTArrayExpressionNode l =>
      HArray l ((fix go l : Forall P l :=
                   match l with
                   | [] => Forall_nil_2 P
                   | x :: l' => Forall_cons_2 P x l' (ASTNode_induction x) (go l')
                   end) l)
  | ASTObjectNode ps =>
      HObject ps ((fix go l : Forall (fun p => P (snd p)) l :=
                     match l with
                     | [] => Forall_nil_2 _
                     | (k, v) :: l' =>
                         Forall_cons_2 (fun p => P (snd p)) (k, v) l'
                           (ASTNode_induction v) (go l')
                     end) ps)
  | ASTIdentifierNode n => HIdentifier n
  | ASTThisExpressionNode => HThis
  | ASTNonComputedMemberExpressionNode o n => HNonComputed o n (ASTNode_induction o)
  | ASTComputedMemberExpressionNode o p =>
      HComputed o p (ASTNode_induction o) (ASTNode_induction p)
  | ASTCallExpressionNode c l =>
      HCall c l (ASTNode_induction c)
        ((fix go l : Forall P l :=
            match l with
            | [] => Forall_nil_2 P
            | x :: l' => Forall_cons_2 P x l' (ASTNode_induction x) (go l')
            end) l)
  | ASTFilterExpressionNode c l s =>
      HFilter c l s
        ((fix go l : Forall P l :=
            match l with
            | [] => Forall_nil_2 P
            | x :: l' => Forall_cons_2 P x l' (ASTNode_induction x) (go l')
            end) l)
  | ASTAssignmentExpressionNode l r =>
      HAssignment l r (ASTNode_induction l) (ASTNode_induction r)
  | ASTUnaryExpressionNode op a => HUnary op a (ASTNode_induction a)
  | ASTBinaryExpressionNode op l r =>
      HBinary op l r (ASTNode_induction l) (ASTNode_induction r)
  | ASTLogicalExpressionNode op l r =>
      HLogical op l r (ASTNode_induction l) (ASTNode_induction r)
  | ASTConditionalExpressionNode t c a =>
      HConditional t c a (ASTNode_induction t) (ASTNode_induction c)
        (ASTNode_induction a)
  | ASTNGValueParamter => HValueParam
  end.

End NodeInduction.

(** ** The analyses of the AST *)

Section AnalysisTheorems.
Context `{JSNumber}.

Lemma list_sum_In (l : list ASTNode) x :
  In x l -> node_size x <= list_sum (map node_size l).
Proof.
  induction l as [|y l IH]; simpl; [tauto|]. intros [->|Hx]; [lia|].
  specialize (IH Hx). lia.
Qed.

Lemma list_sum_In_snd (ps : list (ObjectKey * ASTNode)) k x :
  In (k, x) ps ->
  node_size x <=
  list_sum (map (fun p : ObjectKey * ASTNode =>
                   match p with (_, v) => node_size v end) ps).
Proof.
  induction ps as [|[k' y] l IH]; simpl; [tauto|]. intros [Heq|Hx].
  - inversion Heq; subst. lia.
  - specialize (IH Hx). lia.
Qed.

(** Every node of [toWatch n] is [n] itself or a strictly smaller tree:
    a node of [toWatch n] that equals [n] as a tree is the node [n]. *)
Lemma toWatch_self (n x : ASTNode) :
  In x (toWatch n) -> x = n \/ node_size x < node_size n.
Proof.
  revert x. induction n using ASTNode_induction; intros x Hx; simpl in Hx;
    try (destruct Hx as [Hx|[]]; left; symmetry; exact Hx); try tauto.
  - right. apply in_flat_map in Hx as (e & He & Hx).
    destruct (constant e); [destruct Hx|].
    rewrite List.Forall_forall in H0.
    pose proof (list_sum_In _ _ He).
    destruct (H0 e He x Hx) as [->|]; simpl; lia.
  - right. apply in_flat_map in Hx as ([k e] & He & Hx).
    destruct (constant e); [destruct Hx|].
    rewrite List.Forall_forall in H0.
    pose proof (list_sum_In_snd _ _ _ He).
    destruct (H0 _ He x Hx) as [->|]; simpl in *; lia.
  - destruct s.
    + right. apply in_flat_map in Hx as (e & He & Hx).
      rewrite List.Forall_forall in H0.
      pose proof (list_sum_In _ _ He).
      destruct (H0 e He x Hx) as [->|]; simpl; lia.
    + destruct Hx as [Hx|[]]; left; symmetry; exact Hx.
  - right. destruct (IHn x Hx) as [->|]; simpl; lia.
  - right. apply in_app_or in Hx as [Hx|Hx].
    + destruct (IHn1 x Hx) as [->|]; simpl; lia.
    + destruct (IHn2 x Hx) as [->|]; simpl; lia.
Qed.

Lemma getInputs_eq (ast : ASTProgramNode) :
  getInputs ast =
  match body ast with
  | [e] => if bool_decide (toWatch e = [e]) then [] else toWatch e
  | _ => []
  end.
Proof.
  unfold getInputs. destruct (body ast) as [|e [|]]; try reflexivity.
  destruct (toWatch e) as [|c [|c' l]] eqn:E; simpl;
    repeat case_bool_decide; simpl; congruence.
Qed.

(** C6.  [getInputs] returns the empty list unless the body has exactly one
    element [e]; then it returns [e.toWatch], except that it returns the
    empty list when [e.toWatch] is the one-element list holding [e]. *)
Theorem getInputs_spec (ast : ASTProgramNode) :
  getInputs ast =
  match body ast with
  | [e] => if bool_decide (toWatch e = [e]) then [] else toWatch e
  | _ => []
  end.
Proof.
  unfold getInputs. destruct (body ast) as [|e [|]]; try reflexivity.
  destruct (toWatch e) as [|c [|c' l]] eqn:E; simpl;
    repeat case_bool_decide; simpl; congruence.
Qed.

Lemma flat_map_nil {A B} (f : A -> list B) (l : list A) :
  (forall x, In x l -> f x = []) -> flat_map f l = [].
Proof.
  induction l as [|a l IH]; simpl; intros Hf; [reflexivity|].
  rewrite (Hf a) by tauto. apply IH. intros; apply Hf; tauto.
Qed.

Lemma Forall_flat_map {A B} (P : B -> Prop) (f : A -> list B) (l : list A) :
  (forall x, In x l -> List.Forall P (f x)) -> List.Forall P (flat_map f l).
Proof.
  induction l as [|a l IH]; simpl; intros Hf; [constructor|].
  apply List.Forall_app. split; [apply Hf; tauto|].
  apply IH. intros; apply Hf; tauto.
Qed.

Lemma flat_map_eq_nil {A B} (f : A -> list B) (l : list A) :
  flat_map f l = [] <-> forall x, In x l -> f x = [].
Proof.
  induction l as [|a l IH]; simpl; [tauto|]. split.
  - intros Happ. apply app_eq_nil in Happ as [Ha Hl].
    intros x [<-|Hx]; [exact Ha | by apply IH].
  - intros Hf. rewrite (Hf a) by tauto. apply IH. intros; apply Hf; tauto.
Qed.

(** C1, as amended.  For a node whose [constant] is true, [toWatch] is what
    the class of the node says: empty for a literal, an array and an object;
    the node itself for a member, assignment, logical and conditional node;
    the [toWatch] of the operands, in order, for a unary, binary and filter
    node (no other class is constant).  So every node of [toWatch] is a
    constant member, assignment, logical or conditional node, whose own
    [toWatch] is the node itself, and [toWatch] is empty exactly when no
    such node is reached through unary, binary and filter nodes; it is
    empty in particular when the tree has no node of these classes. *)
Theorem constant_toWatch (n : ASTNode) :
  constant n = true ->
  match n with
  | ASTLiteralNode _ | ASTArrayExpressionNode _ | ASTObjectNode _ =>
      toWatch n = []
  | ASTNonComputedMemberExpressionNode _ _
  | ASTComputedMemberExpressionNode _ _
  | ASTAssignmentExpressionNode _ _
  | ASTLogicalExpressionNode _ _ _
  | ASTConditionalExpressionNode _ _ _ => toWatch n = [n]
  | ASTUnaryExpressionNode _ a => toWatch n = toWatch a
  | ASTBinaryExpressionNode _ a b => toWatch n = toWatch a ++ toWatch b
  | ASTFilterExpressionNode _ args _ => toWatch n = flat_map toWatch args
  | ASTIdentifierNode _ | ASTThisExpressionNode | ASTCallExpressionNode _ _
  | ASTNGValueParamter => False
  end /\
  List.Forall (fun x => watchesItself x = true /\ constant x = true /\
                        toWatch x = [x]) (toWatch n) /\
  (toWatch n = [] <-> passesNothingOn n = true) /\
  (withoutSelfWatch n = true -> toWatch n = []).
Proof.
  induction n using ASTNode_induction; simpl; intros Hc;
    try discriminate;
    try (split; [reflexivity|]; split; [repeat constructor; assumption|];
         split; [split; discriminate | discriminate]).
  - repeat split; constructor.
  - rewrite forallb_forall in Hc.
    rewrite flat_map_nil; [repeat split; constructor|].
    intros x Hx. by rewrite (Hc x Hx).
  - rewrite forallb_forall in Hc.
    rewrite flat_map_nil; [repeat split; constructor|].
    intros [k v] Hx. by rewrite (Hc _ Hx).
  - apply andb_prop in Hc as [-> Hc]. rewrite forallb_forall in Hc.
    rewrite List.Forall_forall in H0.
    split; [reflexivity|]. split; [|split].
    + apply Forall_flat_map. intros x Hx.
      destruct (H0 x Hx (Hc x Hx)) as (_ & F & _). exact F.
    + rewrite flat_map_eq_nil, forallb_forall.
      split; intros Hall x Hx; destruct (H0 x Hx (Hc x Hx)) as (_ & _ & N & _);
        apply N, Hall, Hx.
    + rewrite forallb_forall. intros Hw. apply flat_map_nil.
      intros x Hx. destruct (H0 x Hx (Hc x Hx)) as (_ & _ & _ & E).
      apply E, Hw, Hx.
  - split; [reflexivity|]. destruct (IHn Hc) as (_ & F & N & E). auto.
  - apply andb_prop in Hc as [Hl Hr].
    destruct (IHn1 Hl) as (_ & F1 & N1 & E1), (IHn2 Hr) as (_ & F2 & N2 & E2).
    split; [reflexivity|]. split; [|split].
    + apply List.Forall_app; tauto.
    + rewrite andb_true_iff, <- N1, <- N2. split.
      * apply app_eq_nil.
      * intros [-> ->]. reflexivity.
    + intros Hw. apply andb_prop in Hw as [W1 W2].
      by rewrite E1, E2.
Qed.

End AnalysisTheorems.

(** The hypothesis of [constant_toWatch] holds of the tree of [!(true && 1)]
    on the example host: its [toWatch] is the logical node. *)
Lemma constant_toWatch_witness :
  let l := ASTLogicalExpressionNode (js "&&") (ASTLiteralNode (VBool true))
             (ASTLiteralNode (VNum (ExampleHost.Dec 1 0))) in
  let n := ASTUnaryExpressionNode (js "!") l in
  constant n = true /\
  toWatch n = [l] /\
  (toWatch n = toWatch l /\
   List.Forall (fun x => watchesItself x = true /\ constant x = true /\
                         toWatch x = [x]) (toWatch n) /\
   (toWatch n = [] <-> passesNothingOn n = true) /\
   (withoutSelfWatch n = true -> toWatch n = [])).
Proof.
  intros l n. split; [reflexivity|]. split; [reflexivity|].
  apply (constant_toWatch n). reflexivity.
Defined.

(** C1 fails as stated: the parser turns [true && false] into a logical
    node that is constant and whose [toWatch] holds the node itself. *)
Lemma constant_toWatch_counterexample :
  ~ (forall (filters : FiltersMap) (text : str) (p : ASTProgramNode) (n : ASTNode),
        ast filters text = Ok p -> In n (body p) ->
        constant n = true -> toWatch n = []).
Proof.
  intros Hclaim.
  pose (n := ASTLogicalExpressionNode (js "&&") (ASTLiteralNode (VBool true))
               (ASTLiteralNode (VBool false))).
  specialize (Hclaim ∅ (js "true && false") (mkProgram [n]) n).
  assert (Hast : ast ∅ (js "true && false") = Ok (mkProgram [n]))
    by reflexivity.
  specialize (Hclaim Hast (or_introl eq_refl) eq_refl).
  discriminate Hclaim.
Qed.

(** ** The lexer *)

Section LexerTheorems.
Context `{JSNumber}.

Lemma str_eqb_single (a b : char) : str_eqb [a] [b] = (a =? b)%N.
Proof.
  unfold str_eqb. destruct (N.eqb_spec a b) as [->|Hne].
  - by rewrite bool_decide_eq_true_2.
  - rewrite bool_decide_eq_false_2; [done | congruence].
Qed.

Lemma str_leb_single (a b : char) : str_leb [a] [b] = (a <=? b)%N.
Proof.
  simpl. destruct (N.ltb_spec a b), (N.eqb_spec a b), (N.leb_spec a b);
    try reflexivity; lia.
Qed.

Lemma isNumber_single (c : char) : isNumber (Some [c]) = isDigitChar c.
Proof.
  unfold isNumber, isDigitChar. change (js "0") with [48%N].
  change (js "9") with [57%N]. by rewrite !str_leb_single.
Qed.

Lemma isExpOperator_single (c : char) :
  isExpOperator (Some [c]) = (c =? 45)%N || (c =? 43)%N || isDigitChar c.
Proof.
  unfold isExpOperator. rewrite isNumber_single.
  change (js "-") with [45%N]. change (js "+") with [43%N].
  by rewrite !str_eqb_single.
Qed.

Lemma lower_mantissa c : isMantissaChar c = true -> toLocaleLowerCase c = c.
Proof.
  unfold isMantissaChar, isDigitChar, toLocaleLowerCase. intros Hc.
  destruct (N.leb_spec 65 c), (N.leb_spec c 90); simpl; try reflexivity.
  destruct (N.eqb_spec c 46), (N.leb_spec 48 c), (N.leb_spec c 57);
    simpl in Hc; try discriminate; lia.
Qed.

Lemma readNumber_loop_cons (c : char) (tl number : str) :
  readNumber_loop (c :: tl) number =
  let ch := toLocaleLowerCase c in
  if str_eqb [ch] (js ".") || isNumber (Some [ch]) then
    readNumber_loop tl (number ++ [ch])
  else
    let nextCh := peek (c :: tl) 1 in
    let prevCh := lastChar number in
    if str_eqb [ch] (js "e") && isExpOperator nextCh then
      readNumber_loop tl (number ++ [ch])
    else if is_e prevCh && isExpOperator (Some [ch]) &&
            truthy_str nextCh && isNumber nextCh then
      readNumber_loop tl (number ++ [ch])
    else if isExpOperator (Some [ch]) && is_e prevCh &&
            (negb (truthy_str nextCh) || negb (isNumber nextCh)) then
      Throw InvalidExponent
    else Ok (number, c :: tl).
Proof. reflexivity. Qed.

Lemma readNumber_loop_mantissa (m rest acc : str) :
  forallb isMantissaChar m = true ->
  readNumber_loop (m ++ rest) acc = readNumber_loop rest (acc ++ m).
Proof.
  revert acc. induction m as [|c m IH]; intros acc Hm.
  - by rewrite app_nil_r.
  - apply andb_prop in Hm as [Hc Hm].
    rewrite <- app_comm_cons, readNumber_loop_cons. cbv zeta.
    rewrite (lower_mantissa c Hc), isNumber_single.
    change (js ".") with [46%N]. rewrite str_eqb_single.
    unfold isMantissaChar in Hc. rewrite Hc.
    rewrite IH by assumption. by rewrite <- app_assoc.
Qed.

Lemma lastChar_snoc (s : str) (c : char) : lastChar (s ++ [c]) = Some [c].
Proof. unfold lastChar. by rewrite last_snoc. Qed.

Lemma peek_1 (c : char) (tl : str) : peek (c :: tl) 1 = Some (take 1 tl).
Proof. reflexivity. Qed.

(** A sign after the exponent marker that no digit follows. *)
Lemma readNumber_loop_invalid (e sign : char) (rest acc : str) :
  (e = code "e" \/ e = code "E") ->
  (sign = code "+" \/ sign = code "-") ->
  isNumber (Some (take 1 rest)) = false ->
  readNumber_loop (e :: sign :: rest) acc = Throw InvalidExponent.
Proof.
  intros He Hs Hrest.
  rewrite readNumber_loop_cons. cbv zeta.
  assert (Hl : toLocaleLowerCase e = 101%N) by (destruct He as [->| ->]; reflexivity).
  rewrite Hl, peek_1. change (take 1 (sign :: rest)) with [sign].
  assert (Hse : isExpOperator (Some [sign]) = true)
    by (destruct Hs as [->| ->]; reflexivity).
  rewrite Hse. change (str_eqb [101%N] (js ".") || isNumber (Some [101%N])) with false.
  change (str_eqb [101%N] (js "e")) with true. cbv iota. simpl andb. cbv iota.
  rewrite readNumber_loop_cons. cbv zeta.
  assert (Hsl : toLocaleLowerCase sign = sign) by (destruct Hs as [->| ->]; reflexivity).
  rewrite Hsl, peek_1, lastChar_snoc, Hse, Hrest.
  destruct Hs as [->| ->]; simpl; rewrite ?andb_false_r, ?orb_true_r; reflexivity.
Qed.

Lemma lex_loop_number (fuel : nat) (d : char) (tl : str) (toks : list LexToken) :
  isDigitChar d = true ->
  lex_loop (S fuel) (d :: tl) toks =
  (r <- readNumber (d :: tl) ;; lex_loop fuel (snd r) (toks ++ [fst r])).
Proof.
  intros Hd. cbn [lex_loop]. by rewrite isNumber_single, Hd.
Qed.


End LexerTheorems.



(** ** The parser and the filter registry *)

Section FilterTheorems.
Context `{JSHost}.
Variable filters : FiltersMap.

Lemma bind_Ok {A B} (m : res A) (f : A -> res B) (b : B) :
  bind m f = Ok b -> exists a, m = Ok a /\ f a = Ok b.
Proof. destruct m; simpl; intros; eauto; discriminate. Qed.

Ltac inv_parse :=
  repeat match goal with
  | H : bind ?m _ = Ok _ |- _ =>
      let a := fresh "r" in let E := fresh "E" in
      apply bind_Ok in H as (a & E & H)
  | H : match expect ?a ?b with _ => _ end = Ok _ |- _ =>
      let E := fresh "E" in destruct (expect a b) as [[?|] ?] eqn:E
  | H : match peekToken ?a ?b with _ => _ end = Ok _ |- _ =>
      let E := fresh "E" in destruct (peekToken a b) as [?|] eqn:E
  | H : match ?l with [] => _ | _ :: _ => _ end = Ok _ |- _ => destruct l
  | H : match LanguageConstants ?l with _ => _ end = Ok _ |- _ =>
      let E := fresh "E" in destruct (LanguageConstants l) eqn:E
  | H : (if ?c then _ else _) = Ok _ |- _ =>
      let E := fresh "E" in destruct c eqn:E
  | H : Ok _ = Ok _ |- _ => injection H as H; subst
  | H : (_, _) = (_, _) |- _ => injection H as H; subst
  | H : Throw _ = Ok _ |- _ => discriminate H
  | H : OutOfFuel = Ok _ |- _ => discriminate H
  end.

Lemma forallb_snoc {A} (p : A -> bool) l x :
  forallb p (l ++ [x]) = forallb p l && p x.
Proof. rewrite forallb_app. simpl. by rewrite andb_true_r. Qed.

Lemma binaryLoop_resolved fuel ops mk sub :
  (forall toks r, sub toks = Ok r -> (filtersResolved filters) (fst r) = true) ->
  (forall op a b, (filtersResolved filters) (mk op a b) = (filtersResolved filters) a && (filtersResolved filters) b) ->
  forall lhs toks r,
    binaryLoop fuel ops mk sub lhs toks = Ok r ->
    (filtersResolved filters) lhs = true -> (filtersResolved filters) (fst r) = true.
Proof.
  intros Hsub Hmk. induction fuel as [|n IH]; intros lhs toks r Hr Hl;
    cbn [binaryLoop] in Hr; [discriminate|].
  inv_parse; [|assumption].
  eapply IH; [eassumption|]. rewrite Hmk, Hl. simpl. eapply Hsub; eassumption.
Qed.

Lemma binaryLevel_resolved fuel ops mk sub :
  (forall toks r, sub toks = Ok r -> (filtersResolved filters) (fst r) = true) ->
  (forall op a b, (filtersResolved filters) (mk op a b) = (filtersResolved filters) a && (filtersResolved filters) b) ->
  forall toks r,
    binaryLevel fuel ops mk sub toks = Ok r -> (filtersResolved filters) (fst r) = true.
Proof.
  intros Hsub Hmk toks r Hr. unfold binaryLevel in Hr. inv_parse.
  eapply binaryLoop_resolved; eauto.
Qed.

Lemma logicalOR_resolved fuel sub :
  (forall toks r, sub toks = Ok r -> (filtersResolved filters) (fst r) = true) ->
  forall toks r, logicalOR fuel sub toks = Ok r -> (filtersResolved filters) (fst r) = true.
Proof.
  intros Hsub. unfold logicalOR, logicalAND, equality, relational, additive,
    multiplicative.
  repeat (apply binaryLevel_resolved; [|reflexivity]). exact Hsub.
Qed.

Local Arguments expect : simpl never.
Local Arguments peekToken : simpl never.
Local Arguments consume : simpl never.
Local Arguments parse_identifier : simpl never.
Local Arguments parse_constant : simpl never.
Local Arguments new_ASTFilterExpressionNode : simpl never.
Local Arguments LanguageConstants : simpl never.
Local Arguments logicalOR : simpl never.
Local Arguments exp1 : simpl never.
Local Arguments exps : simpl never.
Local Arguments js : simpl never.
Local Arguments str_eqb : simpl never.
Local Arguments bind : simpl never.

Definition resolvedResult (f : Tokens -> res (ASTNode * Tokens)) : Prop :=
  forall toks r, f toks = Ok r -> (filtersResolved filters) (fst r) = true.

Definition resolvedList (f : list ASTNode -> Tokens -> res (list ASTNode * Tokens))
    : Prop :=
  forall args toks r,
    f args toks = Ok r -> forallb (filtersResolved filters) args = true ->
    forallb (filtersResolved filters) (fst r) = true.

Definition resolvedProps (ps : list (ObjectKey * ASTNode)) : bool :=
  forallb (fun p => match p with (_, v) => (filtersResolved filters) v end) ps.

Lemma LanguageConstants_resolved name node :
  LanguageConstants name = Some node -> (filtersResolved filters) node = true.
Proof.
  unfold LanguageConstants. intros Hn.
  repeat match type of Hn with
         | (if ?c then _ else _) = _ => destruct c
         end; inversion Hn; reflexivity.
Qed.

Lemma parse_constant_resolved toks r :
  parse_constant toks = Ok r -> (filtersResolved filters) (fst r) = true.
Proof. unfold parse_constant. intros Hr. inv_parse. destruct r0. inv_parse. reflexivity. Qed.

Lemma parser_resolved (n : nat) :
  resolvedResult (parse_filter filters n) /\
  (forall lhs, (filtersResolved filters) lhs = true ->
               resolvedResult (filterLoop filters n lhs)) /\
  resolvedList (filterArgs filters n) /\
  resolvedResult (assignment filters n) /\
  resolvedResult (ternary filters n) /\
  resolvedResult (unary filters n) /\
  resolvedResult (primary filters n) /\
  (forall prim, (filtersResolved filters) prim = true ->
                resolvedResult (postfix filters n prim)) /\
  resolvedList (callArgs filters n) /\
  resolvedResult (parse_object filters n) /\
  (forall ps toks r,
     objectLoop filters n ps toks = Ok r -> resolvedProps ps = true ->
     resolvedProps (fst r) = true) /\
  resolvedResult (arrayDeclaration filters n) /\
  resolvedList (arrayLoop filters n).
Proof.
  induction n as [|n IH].
  { unfold resolvedResult, resolvedList. repeat split; intros; discriminate. }
  destruct IH as (IHfilter & IHfloop & IHfargs & IHassign & IHternary & IHunary &
                  IHprimary & IHpostfix & IHcargs & IHobject & IHoloop &
                  IHarray & IHaloop).
  unfold resolvedResult, resolvedList in *.
  pose proof (logicalOR_resolved n (unary filters n) IHunary) as IHor.
  pose proof LanguageConstants_resolved as HLC.
  pose proof parse_constant_resolved as Hconst.
  repeat split; intros;
    match goal with Hr : _ = Ok _ |- _ => simpl in Hr end;
    try match goal with
        | E : new_ASTFilterExpressionNode _ _ _ = Ok _ |- _ =>
            unfold new_ASTFilterExpressionNode in E
        end;
    inv_parse;
    try match goal with
        | E : new_ASTFilterExpressionNode _ _ _ = Ok _ |- _ =>
            unfold new_ASTFilterExpressionNode in E; inv_parse
        end;
    unfold resolvedProps in *;
    try assumption;
    first
      [ eapply IHfloop; [|eassumption]
      | eapply IHpostfix; [|eassumption]
      | eapply IHfargs; [eassumption|]
      | eapply IHcargs; [eassumption|]
      | eapply IHaloop; [eassumption|]
      | eapply IHoloop; [eassumption|]
      | idtac ];
    cbn [filtersResolved fst];
    try match goal with
        | E : filter_stateful_of _ _ = Ok _ |- _ => rewrite E
        end;
    rewrite ?forallb_snoc; simpl;
    repeat (apply andb_true_intro; split);
    first
      [ assumption
      | reflexivity
      | eapply IHassign; eassumption
      | eapply IHternary; eassumption
      | eapply IHor; eassumption
      | eapply IHunary; eassumption
      | eapply IHprimary; eassumption
      | eapply IHfilter; eassumption
      | eapply IHobject; eassumption
      | eapply IHarray; eassumption
      | eapply HLC; eassumption
      | eapply Hconst; eassumption
      | eapply IHfargs; [eassumption | simpl; rewrite ?andb_true_r; assumption]
      | eapply IHcargs; [eassumption | reflexivity] ].
Qed.

Lemma programLoop_resolved (fuel : nat) (body0 : list ASTNode) (toks : Tokens)
    (p : ASTProgramNode) :
  programLoop filters fuel body0 toks = Ok p ->
  forallb (filtersResolved filters) body0 = true ->
  forallb (filtersResolved filters) (body p) = true.
Proof.
  revert body0 toks. induction fuel as [|n IH]; intros body0 toks Hp Hb;
    simpl in Hp; [discriminate|].
  destruct (parser_resolved n) as (Hfilter & _).
  inv_parse; try (eapply IH; [eassumption|]); cbn [fst body];
    rewrite ?forallb_snoc, ?Hb; simpl; try reflexivity; try assumption;
    eapply Hfilter; eassumption.
Qed.

(** Every tree the parser returns names only filters that [filter(name)]
    finds. *)
Lemma ast_resolved (text : str) (p : ASTProgramNode) :
  ast filters text = Ok p -> forallb (filtersResolved filters) (body p) = true.
Proof.
  unfold ast, program. intros Hp. inv_parse.
  eapply programLoop_resolved; [eassumption|reflexivity].
Qed.

Lemma resolved_not_used (f : str) (n : ASTNode) :
  throws (filter_stateful_of filters f) = true ->
  (filtersResolved filters) n = true -> usesFilter f n = false.
Proof.
  intros Hf. induction n using ASTNode_induction; simpl; intros Hn;
    try reflexivity;
    repeat match goal with
           | H : _ && _ = true |- _ => apply andb_prop in H as [? ?]
           end;
    repeat match goal with
           | IH : (filtersResolved filters) ?x = true -> _,
             H : (filtersResolved filters) ?x = true |- _ => rewrite (IH H); clear IH
           end;
    try reflexivity; try (apply IHn; assumption).
  - rewrite List.Forall_forall in H1. rewrite forallb_forall in Hn.
    apply not_true_is_false. intros He. apply existsb_exists in He as (x & Hx & Hu).
    rewrite (H1 x Hx (Hn x Hx)) in Hu. discriminate.
  - rewrite List.Forall_forall in H1. rewrite forallb_forall in Hn.
    apply not_true_is_false. intros He.
    apply existsb_exists in He as ([k x] & Hx & Hu).
    pose proof (H1 _ Hx (Hn _ Hx)) as Hz. simpl in Hz.
    rewrite Hz in Hu. discriminate.
  - rewrite List.Forall_forall in H1. rewrite forallb_forall in H3.
    apply not_true_is_false. intros He. apply existsb_exists in He as (x & Hx & Hu).
    rewrite (H1 x Hx (H3 x Hx)) in Hu. discriminate.
  - rewrite List.Forall_forall in H1. rewrite forallb_forall in H3.
    apply orb_false_intro.
    + unfold str_eqb. apply bool_decide_eq_false_2. intros ->.
      rewrite Hf in H2. discriminate.
    + apply not_true_is_false. intros He.
      apply existsb_exists in He as (x & Hx & Hu).
      rewrite (H1 x Hx (H3 x Hx)) in Hu. discriminate.
Qed.

End FilterTheorems.

(** ** The routines return: the fuel of the model is enough *)

Section LexerFuel.
Context `{JSNumber}.

Lemma readNumber_loop_length rest number n rest' :
  readNumber_loop rest number = Ok (n, rest') -> length rest' <= length rest.
Proof.
  revert number. induction rest as [|c tl IH]; intros number; simpl.
  - intros [= _ <-]. simpl. lia.
  - repeat match goal with
           | |- context [if ?b then _ else _] => destruct b
           end;
      try discriminate;
      try (intros Hr; apply IH in Hr; lia).
    intros [= _ <-]. simpl. lia.
Qed.

Lemma readNumber_length ch tl r :
  isNumber (Some [ch]) || (str_eqb [ch] (js ".") && isNumber (peek (ch :: tl) 1)) = true ->
  readNumber (ch :: tl) = Ok r -> length (snd r) <= length tl.
Proof.
  intros Hc. unfold readNumber. cbn [readNumber_loop].
  assert (Hfirst : str_eqb [toLocaleLowerCase ch] (js ".") ||
                   isNumber (Some [toLocaleLowerCase ch]) = true).
  { apply orb_true_iff in Hc as [Hn|Hd].
    - rewrite isNumber_single in Hn. unfold isDigitChar in Hn.
      assert (toLocaleLowerCase ch = ch) as ->.
      { unfold toLocaleLowerCase.
        destruct (N.leb_spec 65 ch), (N.leb_spec ch 90); simpl; try reflexivity.
        apply andb_prop in Hn as [_ Hn]. apply N.leb_le in Hn. lia. }
      rewrite isNumber_single. unfold isDigitChar. rewrite Hn. apply orb_true_r.
    - apply andb_prop in Hd as [Hd _]. change (js ".") with [46%N] in Hd.
      rewrite str_eqb_single in Hd.
      apply N.eqb_eq in Hd. subst ch. reflexivity. }
  rewrite Hfirst.
  destruct (readNumber_loop tl ([] ++ [toLocaleLowerCase ch])) as [[n rest']| |] eqn:Hl;
    simpl; try discriminate.
  intros [= <-]. simpl. eapply readNumber_loop_length, Hl.
Qed.

Lemma readString_loop_length quote rest s raw escape r :
  readString_loop quote rest s raw escape = Ok r -> length (snd r) < length rest.
Proof.
  remember (length rest) as n eqn:Hn.
  assert (Hle : length rest <= n) by lia. clear Hn.
  revert rest Hle s raw escape.
  induction n as [|n IH]; intros rest Hle s raw escape;
    (destruct rest as [|ch tl]; cbn [readString_loop length] in *; [intros Hr; discriminate Hr|]); [lia|].
  destruct escape.
  - destruct (str_eqb [ch] (js "u")).
    + destruct (peek (ch :: tl) 4); [|intros Hr; discriminate Hr].
      destruct (negb (matchHex4 s0)); [intros Hr; discriminate Hr|].
      destruct tl as [|a [|b [|c [|d tl']]]]; try (intros Hr; discriminate Hr).
      intros Hr. apply IH in Hr; simpl in *; lia.
    + destruct (ESCAPE_MAP ch); intros Hr; apply IH in Hr; simpl in *; lia.
  - destruct (ch =? quote)%N.
    + intros [= <-]. simpl. lia.
    + destruct (str_eqb [ch] [92%N]); intros Hr; apply IH in Hr; simpl in *; lia.
Qed.

Lemma readString_loop_fuel quote rest s raw escape :
  readString_loop quote rest s raw escape <> OutOfFuel.
Proof.
  remember (length rest) as n eqn:Hn.
  assert (Hle : length rest <= n) by lia. clear Hn.
  revert rest Hle s raw escape.
  induction n as [|n IH]; intros rest Hle s raw escape;
    (destruct rest as [|ch tl]; cbn [readString_loop length] in *; [discriminate|]); [lia|].
  destruct escape.
  - destruct (str_eqb [ch] (js "u")).
    + destruct (peek (ch :: tl) 4); [|discriminate].
      destruct (negb (matchHex4 s0)); [discriminate|].
      destruct tl as [|a [|b [|c [|d tl']]]]; try discriminate.
      apply IH. simpl in *. lia.
    + destruct (ESCAPE_MAP ch); apply IH; lia.
  - destruct (ch =? quote)%N; [discriminate|].
    destruct (str_eqb [ch] [92%N]); apply IH; lia.
Qed.

Lemma readNumber_loop_fuel rest number : readNumber_loop rest number <> OutOfFuel.
Proof.
  revert number. induction rest as [|c rest IH]; intros number; simpl.
  - discriminate.
  - repeat match goal with
           | |- context [if ?b then _ else _] => destruct b
           end; try discriminate; apply IH.
Qed.

Lemma readIdentifier_loop_length rest txt :
  length (snd (readIdentifier_loop rest txt)) <= length rest.
Proof.
  revert txt. induction rest as [|ch tl IH]; intros txt;
    cbn [readIdentifier_loop length snd]; [lia|].
  destruct (isIdentifier (Some [ch]) || isNumber (Some [ch]));
    cbn [length snd]; [|lia].
  specialize (IH (txt ++ [ch])). lia.
Qed.

Lemma readIdentifier_length ch tl :
  isIdentifier (Some [ch]) = true ->
  length (snd (readIdentifier (ch :: tl))) <= length tl.
Proof.
  intros Hi. unfold readIdentifier. cbn [readIdentifier_loop].
  rewrite Hi. cbn [orb].
  pose proof (readIdentifier_loop_length tl ([] ++ [ch])) as Hl.
  destruct (readIdentifier_loop tl ([] ++ [ch])). exact Hl.
Qed.

Lemma findLast_Some {A} (p : A -> bool) (l : list A) (x : A) :
  findLast p l = Some x -> In x l.
Proof.
  unfold findLast. intros Hf. apply find_some in Hf as [Hin _].
  by apply in_rev.
Qed.

Lemma nextStrings_nonempty rest ch s : In s (nextStrings rest ch) -> s <> [].
Proof.
  unfold nextStrings. simpl. intros [<-|Hin]; [discriminate|].
  rewrite !in_app_iff in Hin.
  destruct Hin as [Hin|[Hin|[]]];
    repeat match type of Hin with
           | In _ (match ?x with _ => _ end) => destruct x
           | In _ (if ?x then _ else _) => destruct x
           end; simpl in Hin; try tauto;
    destruct Hin as [<-|[]]; discriminate.
Qed.

Lemma lex_loop_fuel fuel rest tokens :
  length rest <= fuel -> lex_loop fuel rest tokens <> OutOfFuel.
Proof.
  revert rest tokens. induction fuel as [|fuel IH]; intros rest tokens Hlen.
  - destruct rest; [discriminate | simpl in Hlen; lia].
  - destruct rest as [|ch tl]; [discriminate|]. simpl in Hlen.
    cbn [lex_loop].
    destruct (isNumber (Some [ch]) ||
              str_eqb [ch] (js ".") && isNumber (peek (ch :: tl) 1)) eqn:Hnum.
    { destruct (readNumber (ch :: tl)) as [r| |] eqn:Hr; simpl.
      - apply IH. pose proof (readNumber_length _ _ _ Hnum Hr). lia.
      - discriminate.
      - unfold readNumber in Hr.
        destruct (readNumber_loop (ch :: tl) []) as [[n rest']| |] eqn:Hl;
          simpl in Hr; try discriminate.
        by apply readNumber_loop_fuel in Hl. }
    destruct (includesChar [39%N; 34%N] ch).
    { destruct (readString ch (ch :: tl)) as [r| |] eqn:Hr; simpl.
      - apply IH. unfold readString in Hr. simpl in Hr.
        apply readString_loop_length in Hr. lia.
      - discriminate.
      - by apply readString_loop_fuel in Hr. }
    destruct (includesChar (js "[],{}:.()?;") ch).
    { apply IH. lia. }
    destruct (isIdentifier (Some [ch])) eqn:Hid.
    { apply IH. pose proof (readIdentifier_length ch tl Hid). lia. }
    destruct (isWhiteSpace (Some [ch])).
    { apply IH. lia. }
    destruct (findLast (includes OperatorsMap) (nextStrings (ch :: tl) ch)) as [op|] eqn:Hop;
      [|discriminate].
    apply IH. apply findLast_Some, nextStrings_nonempty in Hop.
    destruct op; [done|]. simpl. rewrite length_drop. lia.
Qed.

Lemma lex_total (text : str) : lex text <> OutOfFuel.
Proof. apply lex_loop_fuel. lia. Qed.
End LexerFuel.

Section ParserFuel.
Context `{JSHost}.
Variable filters : FiltersMap.

Ltac inv_parse :=
  repeat match goal with
  | H : bind ?m _ = Ok _ |- _ =>
      let a := fresh "r" in let E := fresh "E" in
      apply bind_Ok in H as (a & E & H)
  | H : match expect ?a ?b with _ => _ end = Ok _ |- _ =>
      let E := fresh "E" in destruct (expect a b) as [[?|] ?] eqn:E
  | H : match peekToken ?a ?b with _ => _ end = Ok _ |- _ =>
      let E := fresh "E" in destruct (peekToken a b) as [?|] eqn:E
  | H : match ?l with [] => _ | _ :: _ => _ end = Ok _ |- _ => destruct l
  | H : match LanguageConstants ?l with _ => _ end = Ok _ |- _ =>
      let E := fresh "E" in destruct (LanguageConstants l) eqn:E
  | H : (if ?c then _ else _) = Ok _ |- _ =>
      let E := fresh "E" in destruct c eqn:E
  | H : (let '(_, _) := ?r in _) = Ok _ |- _ => destruct r
  | H : Ok _ = Ok _ |- _ => injection H as H; subst
  | H : (_, _) = (_, _) |- _ => injection H as H; subst
  | H : Throw _ = Ok _ |- _ => discriminate H
  | H : OutOfFuel = Ok _ |- _ => discriminate H
  end.

Lemma expect_Some ops toks t toks' :
  expect ops toks = (Some t, toks') -> length toks = S (length toks').
Proof.
  unfold expect. destruct (peekToken ops toks) eqn:Hp; [|discriminate].
  intros [= _ <-]. destruct toks; [discriminate|reflexivity].
Qed.

Lemma expect_None ops toks toks' :
  expect ops toks = (None, toks') -> toks' = toks.
Proof.
  unfold expect. destruct (peekToken ops toks); [discriminate|]. by intros [= <-].
Qed.

Lemma consume_length e toks r :
  consume e toks = Ok r -> length toks = S (length (snd r)).
Proof.
  unfold consume. destruct (expect [e] toks) as [[t|] toks'] eqn:He; [|discriminate].
  intros [= <-]. simpl. eapply expect_Some, He.
Qed.

Lemma parse_identifier_length toks r :
  parse_identifier toks = Ok r -> length toks = S (length (snd r)).
Proof.
  unfold parse_identifier. intros Hr. inv_parse.
  apply consume_length in E. exact E.
Qed.

Lemma parse_constant_length toks r :
  parse_constant toks = Ok r -> length toks = S (length (snd r)).
Proof.
  unfold parse_constant. intros Hr. inv_parse.
  apply consume_length in E. exact E.
Qed.

Lemma binaryLoop_length fuel ops mk sub :
  shrinks sub ->
  forall lhs toks r,
    binaryLoop fuel ops mk sub lhs toks = Ok r -> length (snd r) <= length toks.
Proof.
  intros Hsub. induction fuel as [|n IH]; intros lhs toks r Hr;
    cbn [binaryLoop] in Hr; [discriminate|].
  inv_parse.
  - apply IH in Hr. apply Hsub in E0. apply expect_Some in E. lia.
  - apply expect_None in E. subst. simpl. lia.
Qed.

Lemma binaryLevel_length fuel ops mk sub :
  shrinks sub -> shrinks (binaryLevel fuel ops mk sub).
Proof.
  intros Hsub toks r Hr. unfold binaryLevel in Hr. inv_parse.
  apply binaryLoop_length in Hr; [|exact Hsub]. apply Hsub in E. lia.
Qed.

Lemma logicalOR_length fuel sub : shrinks sub -> shrinks (logicalOR fuel sub).
Proof.
  intros Hsub. unfold logicalOR, logicalAND, equality, relational, additive,
    multiplicative.
  repeat apply binaryLevel_length. exact Hsub.
Qed.

Local Arguments expect : simpl never.
Local Arguments peekToken : simpl never.
Local Arguments consume : simpl never.
Local Arguments parse_identifier : simpl never.
Local Arguments parse_constant : simpl never.
Local Arguments new_ASTFilterExpressionNode : simpl never.
Local Arguments LanguageConstants : simpl never.
Local Arguments logicalOR : simpl never.
Local Arguments exp1 : simpl never.
Local Arguments exps : simpl never.
Local Arguments js : simpl never.
Local Arguments str_eqb : simpl never.
Local Arguments bind : simpl never.

Ltac len_facts :=
  repeat match goal with
  | E : expect _ _ = (Some _, _) |- _ => apply expect_Some in E
  | E : expect _ _ = (None, _) |- _ => apply expect_None in E; subst
  | E : consume _ _ = Ok _ |- _ => apply consume_length in E
  | E : parse_identifier _ = Ok _ |- _ => apply parse_identifier_length in E
  | E : parse_constant _ = Ok _ |- _ => apply parse_constant_length in E
  end.

Lemma parser_length (n : nat) :
  shrinks (parse_filter filters n) /\
  (forall lhs, shrinks (filterLoop filters n lhs)) /\
  (forall args, shrinks (filterArgs filters n args)) /\
  shrinks (assignment filters n) /\
  shrinks (ternary filters n) /\
  shrinks (unary filters n) /\
  shrinks (primary filters n) /\
  (forall prim, shrinks (postfix filters n prim)) /\
  (forall args, shrinks (callArgs filters n args)) /\
  shrinks (parse_object filters n) /\
  (forall ps, shrinks (objectLoop filters n ps)) /\
  shrinks (arrayDeclaration filters n) /\
  (forall es, shrinks (arrayLoop filters n es)).
Proof.
  induction n as [|n IH].
  { unfold shrinks. repeat split; intros; discriminate. }
  destruct IH as (IHfilter & IHfloop & IHfargs & IHassign & IHternary & IHunary &
                  IHprimary & IHpostfix & IHcargs & IHobject & IHoloop &
                  IHarray & IHaloop).
  pose proof (logicalOR_length n (unary filters n) IHunary) as IHor.
  unfold shrinks in *.
  repeat split; intros;
    match goal with Hr : _ = Ok _ |- _ => simpl in Hr end;
    inv_parse; len_facts;
    repeat match goal with
    | E : parse_filter _ _ _ = Ok _ |- _ => apply IHfilter in E
    | E : filterLoop _ _ _ _ = Ok _ |- _ => apply IHfloop in E
    | E : filterArgs _ _ _ _ = Ok _ |- _ => apply IHfargs in E
    | E : assignment _ _ _ = Ok _ |- _ => apply IHassign in E
    | E : ternary _ _ _ = Ok _ |- _ => apply IHternary in E
    | E : logicalOR _ _ _ = Ok _ |- _ => apply IHor in E
    | E : unary _ _ _ = Ok _ |- _ => apply IHunary in E
    | E : primary _ _ _ = Ok _ |- _ => apply IHprimary in E
    | E : postfix _ _ _ _ = Ok _ |- _ => apply IHpostfix in E
    | E : callArgs _ _ _ _ = Ok _ |- _ => apply IHcargs in E
    | E : parse_object _ _ _ = Ok _ |- _ => apply IHobject in E
    | E : objectLoop _ _ _ _ = Ok _ |- _ => apply IHoloop in E
    | E : arrayDeclaration _ _ _ = Ok _ |- _ => apply IHarray in E
    | E : arrayLoop _ _ _ _ = Ok _ |- _ => apply IHaloop in E
    end;
    simpl in *; lia.
Qed.

Lemma bind_fuel {A B} (m : res A) (k : A -> res B) :
  m <> OutOfFuel -> (forall a, m = Ok a -> k a <> OutOfFuel) ->
  bind m k <> OutOfFuel.
Proof. destruct m; simpl; intros Hm Hk; [by apply Hk | discriminate | done]. Qed.

Lemma consume_fuel e toks : consume e toks <> OutOfFuel.
Proof. unfold consume. destruct (expect [e] toks) as [[?|] ?]; discriminate. Qed.

Lemma parse_identifier_fuel toks : parse_identifier toks <> OutOfFuel.
Proof.
  unfold parse_identifier. apply bind_fuel; [apply consume_fuel|].
  intros [node toks'] _. destruct (negb (identifier node)); discriminate.
Qed.

Lemma parse_constant_fuel toks : parse_constant toks <> OutOfFuel.
Proof.
  unfold parse_constant. apply bind_fuel; [apply consume_fuel|].
  intros [node toks'] _. discriminate.
Qed.

Lemma new_ASTFilterExpressionNode_fuel callee args :
  new_ASTFilterExpressionNode filters callee args <> OutOfFuel.
Proof.
  unfold new_ASTFilterExpressionNode, filter_stateful_of.
  apply bind_fuel; [|discriminate].
  repeat match goal with
         | |- context [match ?x with _ => _ end] => destruct x
         end; discriminate.
Qed.

Lemma binaryLoop_fuel fuel ops mk sub :
  shrinks sub ->
  forall lhs toks,
    length toks < fuel ->
    (forall toks', length toks' <= length toks -> sub toks' <> OutOfFuel) ->
    binaryLoop fuel ops mk sub lhs toks <> OutOfFuel.
Proof.
  intros Hshr. induction fuel as [|n IH]; intros lhs toks Hlen Hsub; [lia|].
  cbn [binaryLoop].
  destruct (expect ops toks) as [[t|] toks'] eqn:He; [|discriminate].
  apply expect_Some in He.
  apply bind_fuel; [apply Hsub; lia|].
  intros r Hr. apply Hshr in Hr.
  apply IH; [lia|]. intros toks'' Hl. apply Hsub. lia.
Qed.

Lemma binaryLevel_fuel fuel ops mk sub toks :
  shrinks sub ->
  length toks < fuel ->
  (forall toks', length toks' <= length toks -> sub toks' <> OutOfFuel) ->
  binaryLevel fuel ops mk sub toks <> OutOfFuel.
Proof.
  intros Hshr Hlen Hsub. unfold binaryLevel.
  apply bind_fuel; [apply Hsub; lia|].
  intros r Hr. apply Hshr in Hr.
  apply binaryLoop_fuel; [exact Hshr|lia|].
  intros toks' Hl. apply Hsub. lia.
Qed.

Lemma logicalOR_fuel fuel sub toks :
  shrinks sub ->
  length toks < fuel ->
  (forall toks', length toks' <= length toks -> sub toks' <> OutOfFuel) ->
  logicalOR fuel sub toks <> OutOfFuel.
Proof.
  intros Hshr Hlen Hsub.
  unfold logicalOR, logicalAND, equality, relational, additive, multiplicative.
  repeat first
    [ exact Hsub
    | apply binaryLevel_fuel; [repeat apply binaryLevel_length; exact Hshr | lia |];
      let t := fresh "toks'" in let Hl := fresh "Hl" in intros t Hl ].
  all: try (apply Hsub; lia).
Qed.

Ltac fuel_step :=
  repeat first
    [ discriminate
    | apply consume_fuel
    | apply parse_identifier_fuel
    | apply parse_constant_fuel
    | apply new_ASTFilterExpressionNode_fuel
    | match goal with
      | |- bind _ _ <> _ =>
          apply bind_fuel;
          [|let a := fresh "a" in let Ha := fresh "Ha" in intros a Ha]
      | |- match expect ?a ?b with _ => _ end <> _ =>
          let E := fresh "E" in destruct (expect a b) as [[?|] ?] eqn:E
      | |- match peekToken ?a ?b with _ => _ end <> _ =>
          let E := fresh "E" in destruct (peekToken a b) as [?|] eqn:E
      | |- match LanguageConstants ?l with _ => _ end <> _ =>
          let E := fresh "E" in destruct (LanguageConstants l) eqn:E
      | |- match ?l with [] => _ | _ :: _ => _ end <> _ => destruct l
      | |- (if ?c then _ else _) <> _ => destruct c
      end ].

Lemma parser_fuel (n : nat) :
  enough 6 n (parse_filter filters n) /\
  (forall lhs, enough 1 n (filterLoop filters n lhs)) /\
  (forall args, enough 1 n (filterArgs filters n args)) /\
  enough 5 n (assignment filters n) /\
  enough 4 n (ternary filters n) /\
  enough 3 n (unary filters n) /\
  enough 2 n (primary filters n) /\
  (forall prim, enough 1 n (postfix filters n prim)) /\
  (forall args, enough 6 n (callArgs filters n args)) /\
  enough 2 n (parse_object filters n) /\
  (forall ps, enough 1 n (objectLoop filters n ps)) /\
  enough 7 n (arrayDeclaration filters n) /\
  (forall es, enough 6 n (arrayLoop filters n es)).
Proof.
  induction n as [|n IH].
  { unfold enough. repeat split; intros; lia. }
  destruct IH as (IHfilter & IHfloop & IHfargs & IHassign & IHternary & IHunary &
                  IHprimary & IHpostfix & IHcargs & IHobject & IHoloop &
                  IHarray & IHaloop).
  destruct (parser_length n) as (Lfilter & Lfloop & Lfargs & Lassign & Lternary &
                  Lunary & Lprimary & Lpostfix & Lcargs & Lobject & Loloop &
                  Larray & Laloop).
  pose proof (logicalOR_length n (unary filters n) Lunary) as Lor.
  unfold enough, shrinks in *.
  repeat split; intros; simpl; fuel_step;
    inv_parse; len_facts;
    repeat match goal with
    | E : parse_filter _ _ _ = Ok _ |- _ => apply Lfilter in E
    | E : filterLoop _ _ _ _ = Ok _ |- _ => apply Lfloop in E
    | E : filterArgs _ _ _ _ = Ok _ |- _ => apply Lfargs in E
    | E : assignment _ _ _ = Ok _ |- _ => apply Lassign in E
    | E : ternary _ _ _ = Ok _ |- _ => apply Lternary in E
    | E : logicalOR _ _ _ = Ok _ |- _ => apply Lor in E
    | E : unary _ _ _ = Ok _ |- _ => apply Lunary in E
    | E : primary _ _ _ = Ok _ |- _ => apply Lprimary in E
    | E : postfix _ _ _ _ = Ok _ |- _ => apply Lpostfix in E
    | E : callArgs _ _ _ _ = Ok _ |- _ => apply Lcargs in E
    | E : parse_object _ _ _ = Ok _ |- _ => apply Lobject in E
    | E : objectLoop _ _ _ _ = Ok _ |- _ => apply Loloop in E
    | E : arrayDeclaration _ _ _ = Ok _ |- _ => apply Larray in E
    | E : arrayLoop _ _ _ _ = Ok _ |- _ => apply Laloop in E
    end;
    simpl in *;
    first
      [ apply IHfilter; lia
      | apply IHfloop; lia
      | apply IHfargs; lia
      | apply IHassign; lia
      | apply IHternary; lia
      | apply IHunary; lia
      | apply IHprimary; lia
      | apply IHpostfix; lia
      | apply IHcargs; lia
      | apply IHobject; lia
      | apply IHoloop; lia
      | apply IHarray; lia
      | apply IHaloop; lia
      | apply logicalOR_fuel;
          [ intros ? ? ?; eapply Lunary; eassumption
          | lia
          | intros; apply IHunary; lia ] ].
Qed.

Lemma programLoop_fuel (fuel : nat) (body0 : list ASTNode) (toks : Tokens) :
  7 + 7 * length toks <= fuel -> programLoop filters fuel body0 toks <> OutOfFuel.
Proof.
  revert body0 toks. induction fuel as [|n IH]; intros body0 toks Hlen; [lia|].
  destruct (parser_fuel n) as (Ffilter & _).
  destruct (parser_length n) as (Lfilter & _).
  simpl. fuel_step; inv_parse; len_facts;
    try match goal with
        | E : parse_filter _ _ _ = Ok _ |- _ => apply Lfilter in E
        end; simpl in *;
    first [apply Ffilter; simpl; lia | apply IH; simpl; lia].
Qed.

Lemma program_total (toks : Tokens) : program filters toks <> OutOfFuel.
Proof. apply programLoop_fuel. unfold parseFuel. lia. Qed.

End ParserFuel.

Section CompilerFuel.
Context `{JSHost}.
Variable filters : FiltersMap.

Lemma gbind_safe {A B} (m : Gen A) (k : A -> Gen B) :
  safeGen m -> (forall a, safeGen (k a)) -> safeGen (gbind m k).
Proof.
  intros Hm Hk st. unfold gbind. specialize (Hm st).
  destruct (m st) as [[a st']| |]; [apply Hk | discriminate | done].
Qed.

Lemma ret_safe {A} (a : A) : safeGen (ret a).
Proof. intros st. discriminate. Qed.

Lemma lift_safeGen {A} (r : res A) : r <> OutOfFuel -> safeGen (lift r).
Proof. intros Hr st. unfold lift. destruct r; [discriminate..|done]. Qed.

Lemma ensureSafeMemberName_fuel name : ensureSafeMemberName name <> OutOfFuel.
Proof. unfold ensureSafeMemberName. destruct (includes blacklist name); discriminate. Qed.

Lemma push_safe stmt : safeGen (push stmt).
Proof. intros st. discriminate. Qed.

Lemma nextId_safe skip : safeGen (nextId_ skip).
Proof. intros st. discriminate. Qed.

Lemma getState_safe : safeGen getState.
Proof. intros st. discriminate. Qed.

Ltac gen_step :=
  repeat first
    [ assumption
    | apply ret_safe
    | apply push_safe
    | apply nextId_safe
    | apply getState_safe
    | apply lift_safeGen; first [apply ensureSafeMemberName_fuel | discriminate]
    | match goal with
      | |- safeGen (gbind _ _) => apply gbind_safe; [|intros ?]
      | |- safeGen (if_ _ _) => apply push_safe
      | |- safeGen (addEnsureSafeObject _) => apply push_safe
      | |- safeGen (addEnsureSafeFunction _) => apply push_safe
      | |- safeGen (addEnsureSafeMemberName _) => apply push_safe
      | |- safeGen (when ?b _) => destruct b; unfold when
      | |- safeGen (match ?x with _ => _ end) => destruct x
      end ].

Lemma filterVar_safe name : safeGen (filterVar name).
Proof.
  unfold filterVar. gen_step. intros st. discriminate.
Qed.

Lemma recurse_safe (n : ASTNode) : forall create, safeGen (recurse n create).
Proof.
  induction n using ASTNode_induction; intros create; cbn [recurse];
    try (gen_step; fail).
  - apply gbind_safe; [|intros; apply ret_safe].
    induction H1 as [|x l Hx Hl IH]; gen_step. apply Hx.
  - apply gbind_safe; [|intros; apply ret_safe].
    induction H1 as [|[k v] l Hx Hl IH]; gen_step. apply Hx.
  - gen_step. apply IHn.
  - gen_step; [apply IHn1 | apply IHn2].
  - apply gbind_safe; [apply IHn|intros c].
    apply gbind_safe; [|intros; gen_step].
    induction H1 as [|x l Hx Hl IH]; gen_step. apply Hx.
  - apply gbind_safe; [apply filterVar_safe|intros callee].
    apply gbind_safe; [|intros; apply ret_safe].
    induction H1 as [|x l Hx Hl IH]; gen_step. apply Hx.
  - gen_step; [apply IHn1 | apply IHn2].
  - gen_step. apply IHn.
  - gen_step; [apply IHn1 | apply IHn2].
  - gen_step; [apply IHn1 | apply IHn2].
  - gen_step; [apply IHn1 | apply IHn2 | apply IHn3].
Qed.

Lemma recurseBody_safe (l : list ASTNode) : safeGen (recurseBody l).
Proof.
  induction l as [|x l IH]; cbn [recurseBody].
  - apply lift_safeGen. discriminate.
  - destruct l as [|y l]; gen_step; apply recurse_safe.
Qed.

Lemma compileInputs_safe (l : list ASTNode) (index : nat) :
  safeGen (compileInputs l index).
Proof.
  revert index. induction l as [|x l IH]; intros index; cbn [compileInputs].
  - apply ret_safe.
  - repeat (apply gbind_safe; [|intros ?]);
      try apply recurse_safe; try apply IH; try apply push_safe;
      intros st; discriminate.
Qed.

Lemma generate_safe (p : ASTProgramNode) : safeGen (generate p).
Proof.
  unfold generate.
  repeat (apply gbind_safe; [|intros ?]);
    try apply compileInputs_safe; try apply ret_safe;
    try (apply recurseBody_safe);
    try (intros st; discriminate).
  destruct (assignableAST p); [|apply ret_safe].
  repeat (apply gbind_safe; [|intros ?]);
    try apply recurse_safe; try apply push_safe; intros st; discriminate.
Qed.

Lemma compileProgram_total (p : ASTProgramNode) :
  compileProgram filters p <> OutOfFuel.
Proof.
  unfold compileProgram. pose proof (generate_safe p initialState) as Hg.
  destruct (generate p initialState) as [r| |]; simpl; [|discriminate|done].
  unfold newFunction.
  match goal with |- (if ?c then _ else _) <> _ => destruct c end; discriminate.
Qed.
End CompilerFuel.

Section Totality.
Context `{JSHost}.
Variable filters : FiltersMap.

Lemma ast_total (text : str) : ast filters text <> OutOfFuel.
Proof.
  unfold ast. pose proof (lex_total text) as Hl.
  destruct (lex text) as [toks| |]; simpl; [apply program_total | discriminate | done].
Qed.

Lemma compile_total (text : str) : compile filters text <> OutOfFuel.
Proof.
  unfold compile. pose proof (ast_total text) as Ha.
  destruct (ast filters text) as [p| |]; simpl;
    [apply compileProgram_total | discriminate | done].
Qed.

Lemma parse_total (expr : val) : parse filters expr <> OutOfFuel.
Proof.
  destruct expr; try discriminate. unfold parse.
  match goal with |- context [if ?c then _ else _] => destruct c end;
    match goal with
    | |- bind (compile _ ?t) _ <> _ =>
        pose proof (compile_total t) as Hc; destruct (compile filters t)
    end; simpl; first [discriminate | done].
Qed.

End Totality.

(** ** The [parse] entry point *)

Section ParseTheorems.
Context `{JSHost}.
Variable filters : FiltersMap.

(** C10.  Applied to a function, [parse] returns that function, which is
    then called as it is; applied to anything that is neither a string nor
    a function, it returns a function that returns undefined on every
    scope and locals and changes nothing. *)
Theorem parse_non_string (expr : val) :
  match expr with
  | VStr _ => True
  | VFun f =>
      parse filters expr = Ok (TheFunction f) /\
      forall scope locals st,
        callParsed (TheFunction f) scope locals st =
        callValue (VFun f) VUndefined [scope; locals] st
  | _ =>
      parse filters expr = Ok Noop /\
      forall scope locals st,
        callParsed Noop scope locals st = Ok (VUndefined, st)
  end.
Proof. destruct expr; simpl; auto. Qed.

Lemma parse_with_prefix (expr : str) :
  parse filters (VStr (js "::" ++ expr)) =
  (f <- compile filters expr ;; Ok (Compiled f true)).
Proof. reflexivity. Qed.

Lemma parse_without_prefix (expr : str) :
  take 2 expr <> js "::" ->
  parse filters (VStr expr) =
  (f <- compile filters expr ;; Ok (Compiled f false)).
Proof.
  intros Hne. unfold parse.
  assert (Htest : bool_decide (expr !! 0%nat = Some (code ":")) &&
                  bool_decide (expr !! 1%nat = Some (code ":")) = false).
  { destruct expr as [|a [|b expr]]; simpl in *; try reflexivity;
      try apply andb_false_r.
    destruct (decide (a = code ":")) as [->|Ha].
    - destruct (decide (b = code ":")) as [->|Hb]; [done|].
      rewrite (bool_decide_eq_false_2 (Some b = _)) by congruence.
      apply andb_false_r.
    - rewrite (bool_decide_eq_false_2 (Some a = _)) by congruence.
      reflexivity. }
  rewrite Htest. reflexivity.
Qed.

(** C4, as amended.  For an expression that does not itself begin with
    [::], parsing it with and without the prefix [::] ends the same way, and
    it does end: both throw the same error, or both return a function, with
    [oneTime] true and false, and the two functions return the same on
    every scope, locals and store. *)
Theorem parse_oneTime (expr : str) :
  take 2 expr <> js "::" ->
  match parse filters (VStr (js "::" ++ expr)), parse filters (VStr expr) with
  | Ok f, Ok g =>
      oneTime f = Some true /\ oneTime g = Some false /\
      forall scope locals st,
        callParsed f scope locals st = callParsed g scope locals st
  | Throw e, Throw e' => e = e'
  | _, _ => False
  end.
Proof.
  intros Hne.
  rewrite parse_with_prefix, (parse_without_prefix expr Hne).
  pose proof (compile_total filters expr) as Htotal.
  destruct (compile filters expr); simpl; auto.
Qed.

End ParseTheorems.

(** The hypothesis of [parse_oneTime] holds of the expression [a], which
    both calls return a function for. *)
Lemma parse_oneTime_witness :
  take 2 (js "a") <> js "::" /\
  returns (parse ∅ (VStr (js "::" ++ js "a"))) = true /\
  returns (parse ∅ (VStr (js "a"))) = true /\
  match parse ∅ (VStr (js "::" ++ js "a")), parse ∅ (VStr (js "a")) with
  | Ok f, Ok g =>
      oneTime f = Some true /\ oneTime g = Some false /\
      forall scope locals st,
        callParsed f scope locals st = callParsed g scope locals st
  | Throw e, Throw e' => e = e'
  | _, _ => False
  end.
Proof.
  assert (Hne : take 2 (js "a") <> js "::") by discriminate.
  split; [exact Hne|]. split; [reflexivity|]. split; [reflexivity|].
  pose proof (@parse_oneTime ExampleHost.number ExampleHost.host ∅ (js "a") Hne)
    as Hparse.
  assumption.
Defined.

(** C4 fails as stated: the expression [::a] alone is already one-time. *)
Lemma parse_oneTime_counterexample :
  ~ (forall expr : str,
        exists f g,
          parse ∅ (VStr (js "::" ++ expr)) = Ok f /\
          parse ∅ (VStr expr) = Ok g /\
          oneTime f = Some true /\ oneTime g = Some false /\
          forall scope locals st,
            callParsed f scope locals st = callParsed g scope locals st).
Proof.
  intros Hclaim. destruct (Hclaim (js "::a")) as (f & g & _ & Hg & _ & Hone & _).
  change (js "::a") with (js "::" ++ js "a") in Hg.
  rewrite parse_with_prefix in Hg.
  destruct (compile ∅ (js "a")); simpl in Hg; try discriminate Hg.
  injection Hg as <-. discriminate Hone.
Qed.

Section IdentifierTheorems.
Context `{JSHost}.
Variable filters : FiltersMap.

Lemma lift_safe (name : str) :
  includes blacklist name = false -> lift (ensureSafeMemberName name) = ret tt.
Proof. intros Hs. unfold lift, ensureSafeMemberName. by rewrite Hs. Qed.

Lemma compile_identifier (name : str) :
  includes blacklist name = false -> name <> [] ->
  compileProgram filters (mkProgram [ASTIdentifierNode name]) =
  Ok (mkCompiled
        [SIf (EAnd ELocals (EHasOwn ELocals name))
           (EAssign (EVar 1) (EMember ELocals name));
         SIf (EAnd (ENot (EAnd ELocals (EHasOwn ELocals name))) EScope)
           (EAssign (EVar 1) (EMember EScope name));
         SExpr (EGuard EnsureSafeObject (EVar 1));
         SReturn (EVar 1)]
        [] (Some (identifierAssign name)) ∅ false false).
Proof.
  intros Hsafe Hne. destruct name as [|c name']; [done|].
  unfold compileProgram, generate.
  assert (Hin : getInputs (mkProgram [ASTIdentifierNode (c :: name')]) = []).
  { rewrite getInputs_eq. simpl. by rewrite bool_decide_eq_true_2. }
  rewrite Hin.
  cbv beta iota zeta delta
    [recurse recurseProgram recurseBody assignableAST isAssignable body].
  rewrite !(lift_safe _ Hsafe).
  reflexivity.
Qed.

Lemma getVar_setVar rs id v : getVar (setVar rs id v) id = v.
Proof. unfold getVar, setVar. simpl. by rewrite lookup_insert_eq. Qed.

Lemma isIdentifierName_nonempty (name : str) :
  isIdentifierName name = true -> name <> [].
Proof. by destruct name. Qed.

Lemma hasOwnProperty_truthy st (o : val) name :
  truthy o = true ->
  hasOwnProperty st o name = Ok (VBool (ownsProperty st o name)).
Proof. unfold ownsProperty. destruct o; simpl; intros; done. Qed.

Lemma callHasOwnProperty_plain st (o : val) name :
  truthy o = true -> plainHasOwn st o = true ->
  callHasOwnProperty st o name = Ok (VBool (ownsProperty st o name), st).
Proof.
  intros Ho Hp. unfold callHasOwnProperty.
  rewrite (hasOwnProperty_truthy st o name Ho).
  destruct o; try reflexivity. unfold plainHasOwn in Hp.
  apply bool_decide_eq_true_1 in Hp. by rewrite Hp.
Qed.

Lemma getProp_truthy st (o : val) name :
  truthy o = true -> getProp st o name = Ok (getMember st o name).
Proof. destruct o; simpl; intros; done. Qed.

Lemma getVar_unset vars st id :
  vars !! id = None -> getVar (mkRState vars st) id = VUndefined.
Proof. unfold getVar. simpl. by intros ->. Qed.

Lemma ensureSafeObject_undefined st : ensureSafeObject st VUndefined = Ok VUndefined.
Proof. reflexivity. Qed.

Lemma ensureSafeObject_Ok st (x v : val) :
  ensureSafeObject st x = Ok v -> v = x.
Proof.
  unfold ensureSafeObject. intros Hv.
  repeat match type of Hv with
         | (if ?c then _ else _) = _ => destruct c
         end; congruence.
Qed.

Lemma run_identifier (name : str) (s l : val) (st : store) (vars : gmap nat val) id :
  vars !! id = None ->
  plainHasOwn st l = true ->
  execStmts (mkParams (Some s) (Some l) None)
    [SIf (EAnd ELocals (EHasOwn ELocals name))
       (EAssign (EVar id) (EMember ELocals name));
     SIf (EAnd (ENot (EAnd ELocals (EHasOwn ELocals name))) EScope)
       (EAssign (EVar id) (EMember EScope name));
     SExpr (EGuard EnsureSafeObject (EVar id));
     SReturn (EVar id)] (mkRState vars st) =
  (v <- ensureSafeObject st (resolveIdentifier st s l name) ;;
   Ok (Some v, mkRState (if truthy l && ownsProperty st l name then <[id := getMember st l name]> vars
                         else if truthy s then <[id := getMember st s name]> vars else vars) st)).
Proof.
  intros Hid Hplain.
  cbn [execStmts evalExpr readParam param_s param_l bind fst snd rstore rvars].
  unfold resolveIdentifier.
  assert (Hguard : forall x vars',
    (r <- (v <- ensureSafeObject st x ;;
           Ok (v, mkRState (<[id := x]> vars') st)) ;;
     Ok (Some (default VUndefined (rvars (snd r) !! id)), snd r)) =
    (v <- ensureSafeObject st x ;;
     Ok (Some v, mkRState (<[id := x]> vars') st))).
  { intros x vars'. destruct (ensureSafeObject st x) eqn:Hs;
      cbn [bind fst snd rvars]; try reflexivity.
    rewrite lookup_insert_eq. cbn [default].
    by rewrite (ensureSafeObject_Ok _ _ _ Hs). }
  assert (Hprop : forall o, truthy o = true ->
                    getProp st o name = Ok (getMember st o name))
    by (intros; by apply getProp_truthy).
  destruct (truthy l) eqn:Hl;
    [pose proof (callHasOwnProperty_plain st l name Hl Hplain) as Hown;
     destruct (ownsProperty st l name) eqn:Ho|];
    destruct (truthy s) eqn:Hts;
    repeat (cbn [bind fst snd rstore rvars truthy negb andb guard default withStore];
            unfold setVar, getVar;
            rewrite ?lookup_insert_eq, ?Hl, ?Hts, ?Hid;
            rewrite ?ensureSafeObject_undefined;
            try rewrite Hown; rewrite ?Ho;
            rewrite ?(Hprop l) by assumption;
            rewrite ?(Hprop s) by assumption);
    try apply Hguard; reflexivity.
Qed.
Lemma compile_unary_identifier (op name : str) :
  includes blacklist name = false ->
  compileProgram filters
    (mkProgram [ASTUnaryExpressionNode op (ASTIdentifierNode name)]) =
  Ok (mkCompiled
        [SIf (EAnd ELocals (EHasOwn ELocals name)) (EAssign (EVar 1) (EMember ELocals name));
         SIf (EAnd (ENot (EAnd ELocals (EHasOwn ELocals name))) EScope)
           (EAssign (EVar 1) (EMember EScope name));
         SExpr (EGuard EnsureSafeObject (EVar 1));
         SReturn (EUnary op (EIsDefined (EVar 1) (VNum num_zero)))]
        [identifierInput name 0] None ∅ false false).
Proof.
  intros Hsafe.
  unfold compileProgram, generate.
  assert (Hin : getInputs (mkProgram [ASTUnaryExpressionNode op (ASTIdentifierNode name)])
                = [ASTIdentifierNode name]).
  { rewrite getInputs_eq. reflexivity. }
  rewrite Hin.
  cbv beta iota zeta delta
    [recurse recurseProgram recurseBody assignableAST isAssignable body compileInputs].
  rewrite !(lift_safe _ Hsafe).
  reflexivity.
Qed.

Lemma run_identifierInput (name : str) (s : val) (st : store) (vars : gmap nat val) i :
  vars !! i = None ->
  execStmts (mkParams (Some s) None None) (identifierInput name i) (mkRState vars st) =
  (v <- ensureSafeObject st (resolveInput st s name) ;;
   Ok (Some v, mkRState (if truthy s then <[i := getMember st s name]> vars else vars) st)).
Proof.
  intros Hid. unfold identifierInput, resolveInput.
  cbn [execStmts evalExpr readParam param_s param_l bind fst snd rstore rvars truthy negb].
  destruct (truthy s) eqn:Hts;
    repeat (cbn [bind fst snd rstore rvars truthy negb andb guard default];
            unfold setVar, getVar;
            rewrite ?lookup_insert_eq, ?Hts, ?Hid;
            rewrite ?ensureSafeObject_undefined;
            rewrite ?(getProp_truthy st s name) by assumption);
    unfold id.
  - destruct (ensureSafeObject st (getMember st s name)) eqn:Hs;
      cbn [bind fst snd rvars]; try reflexivity.
    rewrite lookup_insert_eq. cbn [default]. by rewrite (ensureSafeObject_Ok _ _ _ Hs).
  - reflexivity.
Qed.


End IdentifierTheorems.



(** ** Call expressions *)

Section CallTheorems.
Context `{JSHost}.
Variable filters : FiltersMap.

Lemma gbind_Ok {A B} (m : Gen A) (f : A -> Gen B) st r :
  gbind m f st = Ok r -> exists a st1, m st = Ok (a, st1) /\ f a st1 = Ok r.
Proof.
  unfold gbind. destruct (m st) as [[a st1]| |]; [|discriminate..].
  intros Hr. by exists a, st1.
Qed.

Lemma getFunction_setFunction fs k c : getFunction (setFunction fs k c) k = c.
Proof.
  unfold getFunction. induction fs as [|[k' c'] fs IH]; simpl.
  - by rewrite bool_decide_eq_true_2.
  - case_bool_decide as Hk; simpl.
    + by rewrite bool_decide_eq_true_2.
    + by rewrite bool_decide_eq_false_2.
Qed.

Lemma push_body stmt st st' :
  push stmt st = Ok (tt, st') ->
  computing st' = computing st /\
  fbody (getFunction (functions st') (computing st')) =
  fbody (getFunction (functions st) (computing st)) ++ [stmt].
Proof.
  unfold push. intros [= <-]. simpl. by rewrite getFunction_setFunction.
Qed.

Lemma gbind_ok {A B} (m : Gen A) (k : A -> Gen B) :
  okGen m -> (forall a, okGen (k a)) -> okGen (gbind m k).
Proof.
  intros Hm Hk st. unfold gbind. specialize (Hm st).
  destruct (m st) as [[a st']| |]; [apply Hk | discriminate..].
Qed.

Lemma ret_ok {A} (a : A) : okGen (ret a).
Proof. intros st. reflexivity. Qed.

Lemma push_ok stmt : okGen (push stmt).
Proof. intros st. reflexivity. Qed.

Lemma nextId_ok skip : okGen (nextId_ skip).
Proof. intros st. reflexivity. Qed.

Lemma getState_ok : okGen getState.
Proof. intros st. reflexivity. Qed.

Lemma ensureSafeMemberName_ok (name : str) :
  includes blacklist name = false -> okGen (lift (ensureSafeMemberName name)).
Proof. intros Hs st. unfold lift, ensureSafeMemberName. by rewrite Hs. Qed.

Ltac ok_step :=
  repeat first
    [ assumption
    | apply ret_ok
    | apply push_ok
    | apply nextId_ok
    | apply getState_ok
    | apply ensureSafeMemberName_ok; assumption
    | match goal with
      | |- okGen (gbind _ _) => apply gbind_ok; [|intros ?]
      | |- okGen (if_ _ _) => apply push_ok
      | |- okGen (addEnsureSafeObject _) => apply push_ok
      | |- okGen (addEnsureSafeFunction _) => apply push_ok
      | |- okGen (addEnsureSafeMemberName _) => apply push_ok
      | |- okGen (when ?b _) => destruct b; unfold when
      | |- okGen (match ?x with _ => _ end) => destruct x
      end ].

Lemma recurse_identifier_ok (name : str) (create : bool) :
  includes blacklist name = false -> okGen (recurse (ASTIdentifierNode name) create).
Proof. intros Hsafe. cbn [recurse]. ok_step. Qed.

Lemma recurse_call_identifier_ok (callee : str) (create : bool) :
  includes blacklist callee = false ->
  okGen (recurse (ASTCallExpressionNode (ASTIdentifierNode callee) []) create).
Proof.
  intros Hsafe. pose proof (recurse_identifier_ok callee false Hsafe) as Hid.
  cbn [recurse] in *. ok_step.
Qed.


Lemma compile_call_identifier (callee : str) :
  includes blacklist callee = false -> isIdentifierName callee = true ->
  compileProgram filters
    (mkProgram [ASTCallExpressionNode (ASTIdentifierNode callee) []]) =
  Ok (mkCompiled (callIdentifierBody callee) [] None ∅ false false).
Proof.
  intros Hsafe Hne%isIdentifierName_nonempty. destruct callee as [|c callee']; [done|].
  unfold compileProgram, generate.
  assert (Hin : getInputs (mkProgram [ASTCallExpressionNode
                  (ASTIdentifierNode (c :: callee')) []]) = []).
  { rewrite getInputs_eq. simpl. by rewrite bool_decide_eq_true_2. }
  rewrite Hin.
  cbv beta iota zeta delta
    [recurse recurseProgram recurseBody assignableAST isAssignable body].
  rewrite !(lift_safe _ Hsafe).
  reflexivity.
Qed.

Lemma ensureSafeObject_falsy st (v : val) :
  truthy v = false -> ensureSafeObject st v = Ok v.
Proof. intros Hv. unfold ensureSafeObject. by rewrite Hv. Qed.

Lemma ensureSafeFunction_falsy st (v : val) :
  truthy v = false -> ensureSafeFunction st v = Ok v.
Proof. intros Hv. unfold ensureSafeFunction. by rewrite Hv. Qed.

Lemma run_call_falsy (callee : str) (s l : val) (st : store) :
  plainHasOwn st l = true ->
  let o := if truthy l && ownsProperty st l callee then l else s in
  truthy o = true ->
  truthy (getMember st o callee) = false ->
  ensureSafeObject st o = Ok o ->
  callBody (mkParams (Some s) (Some l) None) ∅ (callIdentifierBody callee) st =
  Ok (getMember st o callee, st).
Proof.
  intros Hplain o Ho Hv Hobj. subst o.
  unfold callBody, callIdentifierBody, calleeContext.
  cbn [execStmts evalExpr readParam param_s param_l bind fst snd rstore rvars].
  assert (Hprop : forall x, truthy x = true ->
                    getProp st x callee = Ok (getMember st x callee))
    by (intros; by apply getProp_truthy).
  destruct (truthy l) eqn:Hl;
    [pose proof (callHasOwnProperty_plain st l callee Hl Hplain) as Hown;
     destruct (ownsProperty st l callee) eqn:Hc|];
    cbn [andb] in Ho, Hv, Hobj;
    repeat (cbn [bind fst snd rstore rvars truthy negb andb guard default withStore];
            unfold setVar, getVar;
            rewrite ?lookup_insert_eq, ?Hl, ?Ho;
            try rewrite Hown; rewrite ?Hc;
            rewrite ?(Hprop l) by assumption;
            rewrite ?(Hprop s) by assumption;
            rewrite ?Hobj, ?Hv;
            rewrite ?(ensureSafeObject_falsy _ _ Hv);
            rewrite ?(ensureSafeFunction_falsy _ _ Hv));
    reflexivity.
Qed.

Lemma call_code_falsy (callee : ASTNode) (args : list ASTNode) (create : bool)
    (st st' : ASTCompilerState) (code : JSExpr) (ctx : CallContext) :
  recurse (ASTCallExpressionNode callee args) create st = Ok ((code, ctx), st') ->
  exists calleeCode argCodes stmts,
    code = EAnd calleeCode (EGuard EnsureSafeObject (callText calleeCode argCodes)) /\
    fbody (getFunction (functions st') (computing st')) =
      stmts ++ [SExpr (EGuard EnsureSafeFunction calleeCode)] /\
    forall ps rs v rs',
      evalExpr ps calleeCode rs = Ok (v, rs') -> truthy v = false ->
      evalExpr ps code rs = Ok (v, rs') /\
      evalExpr ps (EGuard EnsureSafeFunction calleeCode) rs = Ok (v, rs').
Proof.
  intros Hr. cbn [recurse] in Hr.
  apply gbind_Ok in Hr as (c & s1 & _ & Hr).
  apply gbind_Ok in Hr as (argCodes & s2 & _ & Hr).
  apply gbind_Ok in Hr as (callee' & s3 & _ & Hr).
  apply gbind_Ok in Hr as ([] & s4 & Hpush & Hr).
  injection Hr as <- <- <-.
  apply push_body in Hpush as [_ Hbody].
  exists callee', argCodes, (fbody (getFunction (functions s3) (computing s3))).
  split; [reflexivity|]. split; [exact Hbody|].
  intros ps rs v rs' Hv Hf. split.
  - cbn [evalExpr]. rewrite Hv. cbn [bind fst snd]. by rewrite Hf.
  - cbn [evalExpr]. rewrite Hv. cbn [bind fst snd guard].
    unfold ensureSafeFunction. by rewrite Hf.
Qed.


End CallTheorems.



(** ** The blacklisted member names *)

Section SandboxTheorems.
Context `{JSHost}.

Lemma gbind_throwsOnly {A B} (m : Gen A) (k : A -> Gen B) :
  throwsOnly m -> (forall a, throwsOnly (k a)) -> throwsOnly (gbind m k).
Proof.
  intros Hm Hk st e. unfold gbind. specialize (Hm st).
  destruct (m st) as [[a st']| |]; [apply Hk | | discriminate].
  intros [= <-]. by apply Hm.
Qed.

Lemma ret_throwsOnly {A} (a : A) : throwsOnly (ret a).
Proof. intros st e. discriminate. Qed.
Lemma push_throwsOnly stmt : throwsOnly (push stmt).
Proof. intros st e. discriminate. Qed.
Lemma nextId_throwsOnly skip : throwsOnly (nextId_ skip).
Proof. intros st e. discriminate. Qed.
Lemma getState_throwsOnly : throwsOnly getState.
Proof. intros st e. discriminate. Qed.
Lemma ensureSafeMemberName_throwsOnly name :
  throwsOnly (lift (ensureSafeMemberName name)).
Proof.
  intros st e. unfold lift, ensureSafeMemberName.
  destruct (includes blacklist name); [|discriminate]. intros [= <-]. by left.
Qed.
Lemma leftContext_throwsOnly {A} :
  throwsOnly (lift (Throw UnableToGetLeftContext : res A)).
Proof. intros st e [= <-]. by right. Qed.

Lemma never_throwsOnly {A} (m : Gen A) :
  (forall st, returns (m st) = true) -> throwsOnly m.
Proof. intros Hm st e He. specialize (Hm st). rewrite He in Hm. discriminate. Qed.

Ltac throws_step :=
  repeat first
    [ assumption
    | apply ret_throwsOnly
    | apply push_throwsOnly
    | apply nextId_throwsOnly
    | apply getState_throwsOnly
    | apply ensureSafeMemberName_throwsOnly
    | apply leftContext_throwsOnly
    | match goal with
      | |- throwsOnly (gbind _ _) => apply gbind_throwsOnly; [|intros ?]
      | |- throwsOnly (if_ _ _) => apply push_throwsOnly
      | |- throwsOnly (addEnsureSafeObject _) => apply push_throwsOnly
      | |- throwsOnly (addEnsureSafeFunction _) => apply push_throwsOnly
      | |- throwsOnly (addEnsureSafeMemberName _) => apply push_throwsOnly
      | |- throwsOnly (when ?b _) => destruct b; unfold when
      | |- throwsOnly (match ?x with _ => _ end) => destruct x
      end ].

Lemma filterVar_throwsOnly name : throwsOnly (filterVar name).
Proof. unfold filterVar. throws_step. intros st e. discriminate. Qed.

Lemma recurse_throwsOnly (n : ASTNode) : forall create, throwsOnly (recurse n create).
Proof.
  induction n using ASTNode_induction; intros create; cbn [recurse];
    try (throws_step; fail).
  - apply gbind_throwsOnly; [|intros; apply ret_throwsOnly].
    induction H1 as [|x l Hx Hl IH]; throws_step. apply Hx.
  - apply gbind_throwsOnly; [|intros; apply ret_throwsOnly].
    induction H1 as [|[k v] l Hx Hl IH]; throws_step. apply Hx.
  - throws_step. apply IHn.
  - throws_step; [apply IHn1 | apply IHn2].
  - apply gbind_throwsOnly; [apply IHn|intros c].
    apply gbind_throwsOnly; [|intros; throws_step].
    induction H1 as [|x l Hx Hl IH]; throws_step. apply Hx.
  - apply gbind_throwsOnly; [apply filterVar_throwsOnly|intros callee].
    apply gbind_throwsOnly; [|intros; apply ret_throwsOnly].
    induction H1 as [|x l Hx Hl IH]; throws_step. apply Hx.
  - throws_step; [apply IHn1 | apply IHn2].
  - throws_step. apply IHn.
  - throws_step; [apply IHn1 | apply IHn2].
  - throws_step; [apply IHn1 | apply IHn2].
  - throws_step; [apply IHn1 | apply IHn2 | apply IHn3].
Qed.

Lemma gbind_throwsField {A B} (m : Gen A) (k : A -> Gen B) :
  throwsField m -> (forall a, throwsField (k a)) -> throwsField (gbind m k).
Proof.
  intros Hm Hk st e. unfold gbind. specialize (Hm st).
  destruct (m st) as [[a st']| |]; [apply Hk | | discriminate].
  intros [= <-]. by apply Hm.
Qed.

Lemma never_throwsField {A} (m : Gen A) :
  (forall st, returns (m st) = true) -> throwsField m.
Proof. intros Hm st e He. specialize (Hm st). rewrite He in Hm. discriminate. Qed.

Lemma ensureSafeMemberName_throwsField x :
  throwsField (lift (ensureSafeMemberName x)).
Proof.
  intros st e. unfold lift, ensureSafeMemberName.
  destruct (includes blacklist x); [|discriminate]. by intros [= <-].
Qed.

Ltac field_step :=
  repeat first
    [ assumption
    | apply ensureSafeMemberName_throwsField
    | apply never_throwsField; intros ?; reflexivity
    | match goal with
      | |- throwsField (gbind _ _) => apply gbind_throwsField; [|intros ?]
      | |- throwsField (when ?b _) => destruct b; unfold when
      | |- throwsField (match ?x with _ => _ end) => destruct x
      | IH : _ -> forall create, throwsField (recurse ?x create)
        |- throwsField (recurse ?x _) => apply IH; assumption
      | IH : _ -> throwsField (?f ?l) |- throwsField (?f ?l) => apply IH; assumption
      end ].

Ltac split_cond :=
  repeat match goal with
  | H : hasAssignment _ = false |- _ =>
      progress cbn [hasAssignment existsb] in H
  | H : existsb _ (_ :: _) = false |- _ => cbn [existsb] in H
  | H : _ || _ = false |- _ => apply orb_false_elim in H as [? ?]
  | H : true = false |- _ => discriminate H
  end.

Lemma filterVar_throwsField x : throwsField (filterVar x).
Proof.
  unfold filterVar. field_step.
Qed.

Lemma recurse_throwsField (n : ASTNode) :
  hasAssignment n = false -> forall create, throwsField (recurse n create).
Proof.
  induction n using ASTNode_induction; intros Hc create; cbn [recurse];
    split_cond; try (field_step; fail).
  - apply gbind_throwsField; [|intros; field_step].
    cbn [hasAssignment] in Hc. revert Hc.
    induction H1 as [|x l Hx Hl IH]; intros Hc; split_cond; field_step.
  - apply gbind_throwsField; [|intros; field_step].
    cbn [hasAssignment] in Hc. revert Hc.
    induction H1 as [|[k v] l Hx Hl IH]; intros Hc; cbn [snd] in *; split_cond; field_step.
  - apply gbind_throwsField; [field_step|intros c].
    apply gbind_throwsField; [|intros; field_step].
    match goal with Hl : existsb hasAssignment _ = false |- _ => revert Hl end.
    induction H1 as [|x l Hx Hl IH]; intros Hc'; split_cond; field_step.
  - apply gbind_throwsField; [apply filterVar_throwsField|intros callee].
    apply gbind_throwsField; [|intros; field_step].
    cbn [hasAssignment] in Hc. revert Hc.
    induction H1 as [|x l Hx Hl IH]; intros Hc; split_cond; field_step.
Qed.

Variable filters : FiltersMap.
Variable name : str.
Hypothesis Hname : includes blacklist name = true.
Local Set Default Proof Using "Type*".

Ltac inv_gen :=
  repeat match goal with
  | H : gbind _ _ _ = Ok _ |- _ =>
      let a := fresh "a" in let s := fresh "s" in let E := fresh "E" in
      apply gbind_Ok in H as (a & s & E & H)
  | H : (match ?x with _ => _ end) _ = Ok _ |- _ => destruct x eqn:?
  | H : lift (Throw _) _ = Ok _ |- _ => discriminate H
  end.

Lemma ensureSafeMemberName_Ok x st r :
  lift (ensureSafeMemberName x) st = Ok r -> str_eqb x name = false.
Proof.
  unfold lift, ensureSafeMemberName.
  destruct (includes blacklist x) eqn:Hx; [discriminate|]. intros _.
  unfold str_eqb. apply bool_decide_eq_false_2. intros ->. congruence.
Qed.

Lemma recurse_okClean (n : ASTNode) :
  forall create st r, recurse n create st = Ok r -> readsName name n = false.
Proof.
  induction n using ASTNode_induction; intros create st r Hr;
    cbn [recurse] in Hr; cbn [readsName]; try reflexivity.
  - apply gbind_Ok in Hr as (es & s & E & _). clear r.
    revert st es s E. induction H1 as [|x l Hx Hl IH]; intros st es s E; [reflexivity|].
    inv_gen. cbn [existsb]. erewrite Hx by eassumption. erewrite IH by eassumption. reflexivity.
  - apply gbind_Ok in Hr as (es & s & E & _). clear r.
    revert st es s E. induction H1 as [|[k v] l Hx Hl IH]; intros st es s E; [reflexivity|].
    inv_gen. cbn [existsb]. simpl in Hx. erewrite Hx by eassumption. erewrite IH by eassumption. reflexivity.
  - inv_gen; eapply ensureSafeMemberName_Ok; eassumption.
  - inv_gen;
      match goal with E : lift _ _ = Ok _ |- _ => apply ensureSafeMemberName_Ok in E; rewrite E end;
      erewrite IHn by eassumption; reflexivity.
  - inv_gen; erewrite IHn1 by eassumption; erewrite IHn2 by eassumption; reflexivity.
  - apply gbind_Ok in Hr as (c & s & Ec & Hr). erewrite IHn by eassumption. cbn [orb].
    apply gbind_Ok in Hr as (es & s' & E & _). clear r Ec.
    revert s es s' E. induction H1 as [|x l Hx Hl IH]; intros s es s' E; [reflexivity|].
    inv_gen. cbn [existsb]. erewrite Hx by eassumption. erewrite IH by eassumption. reflexivity.
  - apply gbind_Ok in Hr as (c' & s0 & _ & Hr).
    apply gbind_Ok in Hr as (es & s' & E & _). clear r.
    revert s0 es s' E. induction H1 as [|x l Hx Hl IH]; intros s0 es s' E; [reflexivity|].
    inv_gen. cbn [existsb]. erewrite Hx by eassumption. erewrite IH by eassumption. reflexivity.
  - inv_gen; erewrite IHn1 by eassumption; erewrite IHn2 by eassumption; reflexivity.
  - inv_gen; eapply IHn; eassumption.
  - inv_gen; erewrite IHn1 by eassumption; erewrite IHn2 by eassumption; reflexivity.
  - inv_gen; erewrite IHn1 by eassumption; erewrite IHn2 by eassumption; reflexivity.
  - inv_gen; erewrite IHn1 by eassumption; erewrite IHn2 by eassumption; erewrite IHn3 by eassumption; reflexivity.
Qed.

Lemma recurse_reads (n : ASTNode) (create : bool) (st : ASTCompilerState) :
  readsName name n = true ->
  recurse n create st = Throw DisallowedField \/
  recurse n create st = Throw UnableToGetLeftContext.
Proof.
  intros Hn. destruct (recurse n create st) as [r|e|] eqn:E.
  - apply recurse_okClean in E. congruence.
  - apply recurse_throwsOnly in E as [-> | ->]; auto.
  - by apply recurse_safe in E.
Qed.

Lemma recurse_reads_field (n : ASTNode) (create : bool) (st : ASTCompilerState) :
  readsName name n = true -> hasAssignment n = false ->
  recurse n create st = Throw DisallowedField.
Proof.
  intros Hn Ha. destruct (recurse_reads n create st Hn) as [E|E]; [exact E|].
  apply (recurse_throwsField n Ha) in E. discriminate E.
Qed.

Lemma recurseBody_throwsOnly (l : list ASTNode) :
  l <> [] -> throwsOnly (recurseBody l).
Proof.
  induction l as [|x l IH]; [done|]. intros _. cbn [recurseBody].
  destruct l as [|y l].
  - apply gbind_throwsOnly; [apply recurse_throwsOnly|intros; apply push_throwsOnly].
  - apply gbind_throwsOnly; [apply recurse_throwsOnly|intros].
    apply gbind_throwsOnly; [apply push_throwsOnly|intros]. by apply IH.
Qed.

Lemma recurseBody_okClean (l : list ASTNode) st r :
  recurseBody l st = Ok r -> existsb (readsName name) l = false.
Proof.
  revert st r. induction l as [|x l IH]; intros st r Hr; [reflexivity|].
  cbn [recurseBody] in Hr. cbn [existsb]. destruct l as [|y l].
  - apply gbind_Ok in Hr as (a & s & E & _).
    apply recurse_okClean in E. by rewrite E.
  - apply gbind_Ok in Hr as (a & s & E & Hr).
    apply gbind_Ok in Hr as (u & s' & _ & Hr).
    apply recurse_okClean in E. rewrite E. eapply IH, Hr.
Qed.

Lemma compileInputs_throwsOnly (l : list ASTNode) (index : nat) :
  throwsOnly (compileInputs l index).
Proof.
  revert index. induction l as [|x l IH]; intros index; cbn [compileInputs].
  - apply ret_throwsOnly.
  - repeat (apply gbind_throwsOnly; [|intros ?]);
      try apply recurse_throwsOnly; try apply IH; try apply push_throwsOnly;
      apply never_throwsOnly; intros ?; reflexivity.
Qed.

Lemma generate_throwsOnly (p : ASTProgramNode) :
  body p <> [] -> throwsOnly (generate p).
Proof.
  intros Hp. unfold generate.
  repeat (apply gbind_throwsOnly; [|intros ?]);
    try apply compileInputs_throwsOnly; try apply ret_throwsOnly;
    try (by apply recurseBody_throwsOnly);
    try (apply never_throwsOnly; intros ?; reflexivity).
  destruct (assignableAST p); [|apply ret_throwsOnly].
  repeat (apply gbind_throwsOnly; [|intros ?]);
    try apply recurse_throwsOnly; try apply push_throwsOnly;
    apply never_throwsOnly; intros ?; reflexivity.
Qed.

Lemma generate_okClean (p : ASTProgramNode) st r :
  generate p st = Ok r -> existsb (readsName name) (body p) = false.
Proof.
  unfold generate. intros Hr.
  do 6 (apply gbind_Ok in Hr as (? & ? & _ & Hr)).
  apply gbind_Ok in Hr as (? & ? & E & _).
  eapply recurseBody_okClean, E.
Qed.

Lemma compileProgram_reads (p : ASTProgramNode) :
  existsb (readsName name) (body p) = true ->
  compileProgram filters p = Throw DisallowedField \/
  compileProgram filters p = Throw UnableToGetLeftContext.
Proof.
  intros Hp. unfold compileProgram.
  destruct (generate p initialState) as [r|e|] eqn:E; simpl.
  - apply generate_okClean in E. congruence.
  - apply generate_throwsOnly in E as [-> | ->]; auto.
    intros Hb. rewrite Hb in Hp. discriminate.
  - by apply generate_safe in E.
Qed.

Lemma computed_guard (o p : ASTNode) (create : bool) (st st' : ASTCompilerState)
    (code : JSExpr) (ctx : CallContext) :
  recurse (ASTComputedMemberExpressionNode o p) create st = Ok ((code, ctx), st') ->
  exists ocode pcode stmts extra,
    fbody (getFunction (functions st') (computing st')) =
      stmts ++ SExpr (EGuard EnsureSafeMemberName pcode) :: extra ++
      [SIf ocode (EAssign code
                    (EGuard EnsureSafeObject (computedMember ocode pcode)))] /\
    (forall stmt, In stmt extra ->
       stmt = SIf (ENot (computedMember ocode pcode))
                (EAssign (computedMember ocode pcode) (EObject []))) /\
    forall ps rs rs' rest,
      evalExpr ps pcode rs = Ok (VStr name, rs') ->
      execStmts ps (SExpr (EGuard EnsureSafeMemberName pcode) :: rest) rs =
      Throw DisallowedField.
Proof.
  intros Hr. cbn [recurse] in Hr.
  apply gbind_Ok in Hr as (varId & s1 & _ & Hr).
  apply gbind_Ok in Hr as (l & s2 & _ & Hr).
  apply gbind_Ok in Hr as (r & s3 & _ & Hr).
  apply gbind_Ok in Hr as ([] & s4 & Hguard & Hr).
  apply gbind_Ok in Hr as ([] & s5 & Hwhen & Hr).
  apply gbind_Ok in Hr as ([] & s6 & Hif & Hr).
  injection Hr as <- <- <-.
  apply push_body in Hguard as [Hc4 Hb4].
  apply push_body in Hif as [Hc6 Hb6].
  exists (fst l), (fst r), (fbody (getFunction (functions s3) (computing s3))),
    (if create then [SIf (ENot (computedMember (fst l) (fst r)))
                       (EAssign (computedMember (fst l) (fst r)) (EObject []))]
     else []).
  split; [|split].
  - rewrite Hb6. destruct create; unfold when in Hwhen.
    + apply push_body in Hwhen as [Hc5 Hb5]. rewrite Hb5, Hb4.
      rewrite <- !app_assoc. reflexivity.
    + injection Hwhen as <-. rewrite Hb4. rewrite <- !app_assoc. reflexivity.
  - intros stmt Hin. destruct create; [|destruct Hin].
    destruct Hin as [<-|[]]. reflexivity.
  - intros ps rs rs' rest Hv. cbn [execStmts evalExpr]. rewrite Hv.
    cbn [bind fst snd guard ensureSafeMemberNameV].
    unfold ensureSafeMemberName. rewrite Hname. reflexivity.
Qed.


End SandboxTheorems.



(** ** The digest *)

Section DigestTheorems.
Variable U : Type.
Variable V : Type.
Variable same : V -> V -> bool.
Variable deepEqual : V -> V -> bool.
Variable cloneDeep : V -> V.
Variable callWatch : nat -> Digest.Scope U V -> exn + (V * Digest.Scope U V).
Variable callListener : nat -> V -> V -> Digest.Scope U V -> exn + Digest.Scope U V.
Variable callTask : nat -> Digest.Scope U V -> exn + Digest.Scope U V.

Lemma digestLoop_count (ttl n : nat) (sc : Digest.Scope U V) :
  let r := Digest.digestLoop U V same deepEqual cloneDeep callWatch callListener
             callTask ttl n sc in
  (snd (fst r) = true -> n < fst (fst r) <= n + ttl) /\
  (snd (fst r) = false -> fst (fst r) = n + ttl).
Proof.
  revert n sc. induction ttl as [|ttl IH]; intros n sc; cbn [Digest.digestLoop].
  - simpl. split; [discriminate | lia].
  - destruct (Digest.digestOnce _ _ _ _ _ _ _ _ _ _) as [dirty sc2].
    destruct (dirty || negb (bool_decide (Digest.asyncQueue U V sc2 = []))).
    + specialize (IH (S n) sc2). cbv zeta in IH. destruct IH as [IH1 IH2].
      split; intros Hs; [specialize (IH1 Hs) | specialize (IH2 Hs)]; lia.
    + simpl. split; [lia | discriminate].
Qed.

End DigestTheorems.


(** ** Filters that are not registered *)

Section Unregistered.
Context `{JSHost}.
Variable filters : FiltersMap.
Variable f : str.
Variable F : FilterFunction.
Hypothesis Hreg : filters !! f = None.
Hypothesis Hproto : object_prototype f = VUndefined.
Local Set Default Proof Using "Type*".

(** What a result is free of: filter nodes for [f]. *)
Class Clean (A : Type) := clean : A -> Prop.
#[local] Instance clean_node : Clean ASTNode := fun n => usesFilter f n = false.
#[local] Instance clean_list : Clean (list ASTNode) :=
  fun l => existsb (usesFilter f) l = false.
#[local] Instance clean_props : Clean (list (ObjectKey * ASTNode)) :=
  fun ps => existsb (fun p => match p with (_, v) => usesFilter f v end) ps = false.
#[local] Instance clean_str : Clean str := fun _ => True.
#[local] Instance clean_token : Clean LexToken := fun _ => True.
#[local] Instance clean_tokens : Clean (list LexToken) := fun _ => True.
#[local] Instance clean_key : Clean ObjectKey := fun _ => True.
#[local] Instance clean_program : Clean ASTProgramNode :=
  fun p => existsb (usesFilter f) (body p) = false.
#[local] Instance clean_rest (A : Type) `{Clean A} : Clean (A * Tokens) :=
  fun r => clean (fst r).

(** With [f] registered the computation returns [r]; without, it returns
    the same [r], which has no filter node for [f], or throws a
    TypeError. *)
Definition follows {A} `{Clean A} (x' x : res A) : Prop :=
  forall r, x' = Ok r -> (x = Ok r /\ clean r) \/ x = Throw TypeError.

Lemma follows_bind {A B} `{Clean A} `{Clean B} (m' m : res A) (k' k : A -> res B) :
  follows m' m -> (forall a, clean a -> follows (k' a) (k a)) ->
  follows (bind m' k') (bind m k).
Proof.
  intros Hm Hk r Hr. apply bind_Ok in Hr as (a & Ha & Hr).
  destruct (Hm a Ha) as [[-> Hc]| ->]; simpl; [|by right].
  by apply Hk.
Qed.

Lemma follows_Ok {A} `{Clean A} (x : A) : clean x -> follows (Ok x) (Ok x).
Proof. intros Hc r [= <-]. by left. Qed.

Lemma follows_Throw {A} `{Clean A} (e : exn) (x : res A) : follows (Throw e) x.
Proof. intros r Hr. discriminate Hr. Qed.

Lemma follows_same {A} `{Clean A} (x : res A) :
  (forall r, x = Ok r -> clean r) -> follows x x.
Proof. intros Hc r Hr. left. split; [exact Hr | by apply Hc]. Qed.

Lemma follows_new (c : str) (args : list ASTNode) :
  clean args ->
  follows (new_ASTFilterExpressionNode (register f F filters) c args)
          (new_ASTFilterExpressionNode filters c args).
Proof.
  intros Hargs r. unfold new_ASTFilterExpressionNode, filter_stateful_of, register.
  destruct (decide (c = f)) as [->|Hne].
  - intros _. right. by rewrite Hreg, Hproto.
  - assert (Hl : <[f:=F]> filters !! c = filters !! c)
      by (apply lookup_insert_ne; congruence).
    rewrite Hl. intros Hr. left. split; [exact Hr|].
    destruct (filters !! c) as [g|]; simpl in Hr.
    + injection Hr as <-. unfold clean, clean_node. simpl.
      unfold str_eqb. rewrite bool_decide_eq_false_2 by exact Hne. exact Hargs.
    + destruct (object_prototype c); simpl in Hr; try discriminate Hr;
        injection Hr as <-; unfold clean, clean_node; simpl;
        unfold str_eqb; rewrite bool_decide_eq_false_2 by exact Hne; exact Hargs.
Qed.

Lemma follows_binaryLoop fuel ops mk (sub' sub : Tokens -> res (ASTNode * Tokens)) :
  (forall toks, follows (sub' toks) (sub toks)) ->
  (forall op a b, clean a -> clean b -> clean (mk op a b)) ->
  forall lhs toks, clean lhs ->
    follows (binaryLoop fuel ops mk sub' lhs toks) (binaryLoop fuel ops mk sub lhs toks).
Proof.
  intros Hsub Hmk. induction fuel as [|n IH]; intros lhs toks Hl; cbn [binaryLoop].
  - apply follows_Throw || (intros r Hr; discriminate Hr).
  - destruct (expect ops toks) as [[t|] toks'].
    + apply follows_bind; [apply Hsub|]. intros a Ha. apply IH. by apply Hmk.
    + by apply follows_Ok.
Qed.

Lemma follows_binaryLevel fuel ops mk (sub' sub : Tokens -> res (ASTNode * Tokens)) :
  (forall toks, follows (sub' toks) (sub toks)) ->
  (forall op a b, clean a -> clean b -> clean (mk op a b)) ->
  forall toks, follows (binaryLevel fuel ops mk sub' toks) (binaryLevel fuel ops mk sub toks).
Proof.
  intros Hsub Hmk toks. unfold binaryLevel.
  apply follows_bind; [apply Hsub|]. intros a Ha. by apply follows_binaryLoop.
Qed.

Lemma clean_mkBinary op (a b : ASTNode) : clean a -> clean b -> clean (mkBinary op a b).
Proof. unfold clean, clean_node. simpl. by intros -> ->. Qed.
Lemma clean_mkLogical op (a b : ASTNode) : clean a -> clean b -> clean (mkLogical op a b).
Proof. unfold clean, clean_node. simpl. by intros -> ->. Qed.

Lemma follows_logicalOR fuel (sub' sub : Tokens -> res (ASTNode * Tokens)) :
  (forall toks, follows (sub' toks) (sub toks)) ->
  forall toks, follows (logicalOR fuel sub' toks) (logicalOR fuel sub toks).
Proof.
  intros Hsub. unfold logicalOR, logicalAND, equality, relational, additive,
    multiplicative.
  repeat (apply follows_binaryLevel;
          [|first [apply clean_mkBinary | apply clean_mkLogical]]).
  exact Hsub.
Qed.

Lemma follows_OutOfFuel {A} `{Clean A} (x : res A) : follows OutOfFuel x.
Proof. intros r Hr. discriminate Hr. Qed.

Lemma parse_constant_clean toks r : parse_constant toks = Ok r -> clean r.
Proof.
  unfold parse_constant. intros Hr. apply bind_Ok in Hr as ([node toks'] & _ & Hr).
  injection Hr as <-. reflexivity.
Qed.

Lemma LanguageConstants_clean x (node : ASTNode) :
  LanguageConstants x = Some node -> clean node.
Proof.
  unfold LanguageConstants. intros Hn.
  repeat match type of Hn with
         | (if ?c then _ else _) = _ => destruct c
         end; inversion Hn; reflexivity.
Qed.

Local Arguments expect : simpl never.
Local Arguments peekToken : simpl never.
Local Arguments consume : simpl never.
Local Arguments parse_identifier : simpl never.
Local Arguments parse_constant : simpl never.
Local Arguments new_ASTFilterExpressionNode : simpl never.
Local Arguments LanguageConstants : simpl never.
Local Arguments logicalOR : simpl never.
Local Arguments exp1 : simpl never.
Local Arguments exps : simpl never.
Local Arguments js : simpl never.
Local Arguments str_eqb : simpl never.
Local Arguments bind : simpl never.
Local Arguments register : simpl never.

Ltac clean_solve :=
  cbv delta [clean clean_rest clean_node clean_list clean_props clean_str
             clean_token clean_tokens clean_key clean_program] beta in *;
  cbn [fst snd usesFilter existsb body] in *;
  rewrite ?existsb_app; cbn [existsb];
  repeat match goal with
         | H : _ = false |- _ => rewrite H; clear H
         end;
  first [reflexivity | exact I].

Lemma parser_follows (n : nat) :
  (forall toks, follows (parse_filter (register f F filters) n toks)
                        (parse_filter filters n toks)) /\
  (forall lhs toks, clean lhs ->
     follows (filterLoop (register f F filters) n lhs toks)
             (filterLoop filters n lhs toks)) /\
  (forall args toks, clean args ->
     follows (filterArgs (register f F filters) n args toks)
             (filterArgs filters n args toks)) /\
  (forall toks, follows (assignment (register f F filters) n toks)
                        (assignment filters n toks)) /\
  (forall toks, follows (ternary (register f F filters) n toks)
                        (ternary filters n toks)) /\
  (forall toks, follows (unary (register f F filters) n toks)
                        (unary filters n toks)) /\
  (forall toks, follows (primary (register f F filters) n toks)
                        (primary filters n toks)) /\
  (forall prim toks, clean prim ->
     follows (postfix (register f F filters) n prim toks)
             (postfix filters n prim toks)) /\
  (forall args toks, clean args ->
     follows (callArgs (register f F filters) n args toks)
             (callArgs filters n args toks)) /\
  (forall toks, follows (parse_object (register f F filters) n toks)
                        (parse_object filters n toks)) /\
  (forall ps toks, clean ps ->
     follows (objectLoop (register f F filters) n ps toks)
             (objectLoop filters n ps toks)) /\
  (forall toks, follows (arrayDeclaration (register f F filters) n toks)
                        (arrayDeclaration filters n toks)) /\
  (forall es toks, clean es ->
     follows (arrayLoop (register f F filters) n es toks)
             (arrayLoop filters n es toks)).
Proof.
  induction n as [|n IH].
  { repeat split; intros; apply follows_OutOfFuel. }
  destruct IH as (IHfilter & IHfloop & IHfargs & IHassign & IHternary & IHunary &
                  IHprimary & IHpostfix & IHcargs & IHobject & IHoloop &
                  IHarray & IHaloop).
  pose proof (follows_logicalOR n _ _ IHunary) as IHor.
  repeat split; intros; simpl;
    repeat first
      [ match goal with
        | |- follows (bind _ _) (bind _ _) =>
            apply follows_bind; [|intros ? ?]
        | |- follows (Ok _) (Ok _) => apply follows_Ok
        | |- follows (Throw _) _ => apply follows_Throw
        | |- follows (match expect ?a ?b with _ => _ end) _ =>
            destruct (expect a b) as [[?|] ?]
        | |- follows (match peekToken ?a ?b with _ => _ end) _ =>
            destruct (peekToken a b)
        | |- follows (match LanguageConstants ?l with _ => _ end) _ =>
            let E := fresh "E" in
            destruct (LanguageConstants l) eqn:E;
            [apply LanguageConstants_clean in E|]
        | |- follows (match ?l with [] => _ | _ :: _ => _ end) _ => destruct l
        | |- follows (if ?c then _ else _) _ => destruct c
        | |- follows (consume _ _) _ => apply follows_same; intros; exact I
        | |- follows (parse_identifier _) _ => apply follows_same; intros; exact I
        | |- follows (parse_constant _) _ =>
            apply follows_same; apply parse_constant_clean
        | |- follows (new_ASTFilterExpressionNode _ _ _) _ => apply follows_new
        | |- follows (logicalOR _ _ _) _ => apply IHor
        | |- follows (parse_filter _ _ _) _ => apply IHfilter
        | |- follows (filterLoop _ _ _ _) _ => apply IHfloop
        | |- follows (filterArgs _ _ _ _) _ => apply IHfargs
        | |- follows (assignment _ _ _) _ => apply IHassign
        | |- follows (ternary _ _ _) _ => apply IHternary
        | |- follows (unary _ _ _) _ => apply IHunary
        | |- follows (primary _ _ _) _ => apply IHprimary
        | |- follows (postfix _ _ _ _) _ => apply IHpostfix
        | |- follows (callArgs _ _ _ _) _ => apply IHcargs
        | |- follows (parse_object _ _ _) _ => apply IHobject
        | |- follows (objectLoop _ _ _ _) _ => apply IHoloop
        | |- follows (arrayDeclaration _ _ _) _ => apply IHarray
        | |- follows (arrayLoop _ _ _ _) _ => apply IHaloop
        end ];
    clean_solve.
Qed.

Lemma programLoop_follows (fuel : nat) (body0 : list ASTNode) (toks : Tokens) :
  clean body0 ->
  follows (programLoop (register f F filters) fuel body0 toks)
          (programLoop filters fuel body0 toks).
Proof.
  revert body0 toks. induction fuel as [|n IH]; intros body0 toks Hb;
    [apply follows_OutOfFuel|].
  destruct (parser_follows n) as (Hfilter & _).
  simpl. apply follows_bind.
  - destruct toks; [apply follows_Ok; clean_solve|].
    apply follows_bind; [apply Hfilter|]. intros a Ha.
    apply follows_Ok. clean_solve.
  - intros a Ha. destruct (expect (exp1 ";") (snd a)) as [[?|] ?].
    + apply IH. clean_solve.
    + apply follows_Ok. clean_solve.
Qed.

Lemma ast_follows (text : str) :
  follows (ast (register f F filters) text) (ast filters text).
Proof.
  unfold ast, program. apply follows_bind.
  - apply follows_same. intros; exact I.
  - intros toks _. apply programLoop_follows. reflexivity.
Qed.

Lemma ast_unregistered (text : str) (p : ASTProgramNode) :
  ast (register f F filters) text = Ok p ->
  existsb (usesFilter f) (body p) = true ->
  ast filters text = Throw TypeError.
Proof.
  intros Hp Hu. destruct (ast_follows text p Hp) as [[_ Hc]|Ht]; [|exact Ht].
  unfold clean, clean_program in Hc. congruence.
Qed.
End Unregistered.

Section UnregisteredFilter.
Context `{JSHost}.
Variable filters : FiltersMap.

(** C9, as amended.  For a name [f] that is not registered and that a
    plain object does not inherit, the constructor of the filter node
    throws a TypeError, and no program the parser returns, hence none
    [compile] works on, has a filter node for [f].  A text that the parser
    would turn into a tree with a filter node for [f], were [f] registered,
    makes [ast], [compile] and [parse] throw that TypeError. *)
Theorem unregistered_filter (f : str) :
  filters !! f = None ->
  object_prototype f = VUndefined ->
  (forall args, new_ASTFilterExpressionNode filters f args = Throw TypeError) /\
  (forall text p,
     ast filters text = Ok p -> existsb (usesFilter f) (body p) = false) /\
  (forall text c,
     compile filters text = Ok c ->
     exists p, ast filters text = Ok p /\ existsb (usesFilter f) (body p) = false) /\
  (forall F text p,
     f <> js "__proto__" ->
     ast (register f F filters) text = Ok p ->
     existsb (usesFilter f) (body p) = true ->
     ast filters text = Throw TypeError /\
     compile filters text = Throw TypeError /\
     parse filters (VStr (js "::" ++ text)) = Throw TypeError /\
     (take 2 text <> js "::" -> parse filters (VStr text) = Throw TypeError)).
Proof.
  intros Hreg Hproto.
  assert (Hthrow : filter_stateful_of filters f = Throw TypeError)
    by (unfold filter_stateful_of; by rewrite Hreg, Hproto).
  assert (Hast : forall text p,
    ast filters text = Ok p -> existsb (usesFilter f) (body p) = false).
  { intros text p Hp. apply ast_resolved in Hp.
    rewrite forallb_forall in Hp.
    apply not_true_is_false. intros He. apply existsb_exists in He as (x & Hx & Hu).
    rewrite (resolved_not_used filters f x) in Hu; [discriminate| |apply Hp, Hx].
    by rewrite Hthrow. }
  split; [|split; [|split]].
  - intros args. unfold new_ASTFilterExpressionNode. by rewrite Hthrow.
  - exact Hast.
  - intros text c Hc. unfold compile in Hc.
    destruct (ast filters text) as [p| |] eqn:Hp; try discriminate.
    exists p. split; [reflexivity|]. eapply Hast, Hp.
  - intros F text p _ Hp Hu.
    pose proof (ast_unregistered filters f F Hreg Hproto text p Hp Hu) as Ht.
    assert (Hc : compile filters text = Throw TypeError)
      by (unfold compile; by rewrite Ht).
    split; [exact Ht|]. split; [exact Hc|]. split.
    + rewrite parse_with_prefix. by rewrite Hc.
    + intros Hne. rewrite (parse_without_prefix filters text Hne). by rewrite Hc.
Qed.

End UnregisteredFilter.

(** The hypotheses of [unregistered_filter] hold of the empty registry and
    the name [nope]: parsing [a | nope] throws a TypeError. *)
Lemma unregistered_filter_witness :
  (∅ : FiltersMap) !! js "nope" = None /\
  object_prototype (js "nope") = VUndefined /\
  parse ∅ (VStr (js "a | nope")) = Throw TypeError.
Proof.
  assert (Hreg : (∅ : FiltersMap) !! js "nope" = None) by reflexivity.
  assert (Hproto : object_prototype (js "nope") = VUndefined) by reflexivity.
  split; [exact Hreg|]. split; [exact Hproto|].
  destruct (@unregistered_filter ExampleHost.number ExampleHost.host ∅ (js "nope")
              Hreg Hproto) as (_ & _ & _ & Hthrows).
  assert (Hp : ast (register (js "nope") (mkFilter ExampleHost.fnFirst false) ∅)
                 (js "a | nope") =
               Ok (mkProgram [ASTFilterExpressionNode (js "nope")
                                [ASTIdentifierNode (js "a")] true]))
    by reflexivity.
  assert (Hname : js "nope" <> js "__proto__") by discriminate.
  destruct (Hthrows _ _ _ Hname Hp eq_refl) as (_ & _ & _ & Hparse).
  apply Hparse. discriminate.
Defined.

(** C9 fails as stated: no filter named [toString] is registered, yet
    [a | toString] is parsed; the registry is a plain object, in which
    [toString] is found. *)
Lemma unregistered_filter_counterexample :
  (∅ : FiltersMap) !! js "toString" = None /\
  returns (parse ∅ (VStr (js "a | toString"))) = true.
Proof. split; reflexivity. Qed.

(** ** Further properties of the lexer, the parser and the compiler *)

Section LexerErrors.
Context `{JSNumber}.

Lemma readNumber_loop_throws rest number e :
  readNumber_loop rest number = Throw e -> e = InvalidExponent.
Proof.
  revert number. induction rest as [|c rest IH]; intros number;
    cbn [readNumber_loop]; [discriminate|].
  repeat match goal with
         | |- context [if ?b then _ else _] => destruct b
         end; try discriminate; try apply IH.
  by intros [= <-].
Qed.

Lemma readString_loop_throws quote rest s raw escape e :
  readString_loop quote rest s raw escape = Throw e -> is_lex_error e = true.
Proof.
  remember (length rest) as n eqn:Hn.
  assert (Hle : length rest <= n) by lia. clear Hn.
  revert rest Hle s raw escape.
  induction n as [|n IH]; intros rest Hle s raw escape;
    (destruct rest as [|ch tl]; cbn [readString_loop length] in *;
     [by intros [= <-]|]); [lia|].
  destruct escape.
  - destruct (str_eqb [ch] (js "u")).
    + destruct (peek (ch :: tl) 4); [|by intros [= <-]].
      destruct (negb (matchHex4 s0)); [by intros [= <-]|].
      destruct tl as [|a [|b [|c [|d tl']]]]; try (by intros [= <-]).
      apply IH. simpl in *. lia.
    + destruct (ESCAPE_MAP ch); apply IH; lia.
  - destruct (ch =? quote)%N; [discriminate|].
    destruct (str_eqb [ch] [92%N]); apply IH; lia.
Qed.

Lemma lex_loop_throws fuel rest tokens e :
  lex_loop fuel rest tokens = Throw e -> is_lex_error e = true.
Proof.
  revert rest tokens. induction fuel as [|fuel IH]; intros rest tokens;
    (destruct rest as [|ch tl]; [discriminate|]); cbn [lex_loop]; [discriminate|].
  repeat match goal with
         | |- context [if ?b then _ else _] => destruct b
         end.
  - destruct (readNumber (ch :: tl)) as [r|e'|] eqn:Hr; simpl;
      [apply IH| |discriminate].
    intros [= <-]. unfold readNumber in Hr.
    destruct (readNumber_loop (ch :: tl) []) as [[n rest']|e''|] eqn:Hl;
      simpl in Hr; try discriminate.
    injection Hr as <-. by apply readNumber_loop_throws in Hl as ->.
  - destruct (readString ch (ch :: tl)) as [r|e'|] eqn:Hr; simpl;
      [apply IH| |discriminate].
    intros [= <-]. unfold readString in Hr. eapply readString_loop_throws, Hr.
  - apply IH.
  - apply IH.
  - apply IH.
  - destruct (findLast _ _); [apply IH|]. by intros [= <-].
Qed.

(** X1.  Every text is lexed: [lex] returns the tokens or throws one of the
    errors of the lexer, of which there are four. *)
Theorem lex_ends (text : str) :
  match lex text with
  | Ok _ => True
  | Throw e => is_lex_error e = true
  | OutOfFuel => False
  end.
Proof.
  destruct (lex text) as [toks|e|] eqn:Hl; [exact I| |by apply lex_total in Hl].
  eapply lex_loop_throws, Hl.
Qed.
End LexerErrors.

Section ParserConsumes.
Context `{JSHost}.
Variable filters : FiltersMap.

Ltac inv_parse :=
  repeat match goal with
  | H : bind ?m _ = Ok _ |- _ =>
      let a := fresh "r" in let E := fresh "E" in
      apply bind_Ok in H as (a & E & H)
  | H : match expect ?a ?b with _ => _ end = Ok _ |- _ =>
      let E := fresh "E" in destruct (expect a b) as [[?|] ?] eqn:E
  | H : match peekToken ?a ?b with _ => _ end = Ok _ |- _ =>
      let E := fresh "E" in destruct (peekToken a b) as [?|] eqn:E
  | H : match ?l with [] => _ | _ :: _ => _ end = Ok _ |- _ => destruct l
  | H : match LanguageConstants ?l with _ => _ end = Ok _ |- _ =>
      let E := fresh "E" in destruct (LanguageConstants l) eqn:E
  | H : (if ?c then _ else _) = Ok _ |- _ =>
      let E := fresh "E" in destruct c eqn:E
  | H : (let '(_, _) := ?r in _) = Ok _ |- _ => destruct r
  | H : Ok _ = Ok _ |- _ => injection H as H; subst
  | H : (_, _) = (_, _) |- _ => injection H as H; subst
  | H : Throw _ = Ok _ |- _ => discriminate H
  | H : OutOfFuel = Ok _ |- _ => discriminate H
  end.

Ltac len_facts :=
  repeat match goal with
  | E : expect _ _ = (Some _, _) |- _ => apply expect_Some in E
  | E : expect _ _ = (None, _) |- _ => apply expect_None in E; subst
  | E : consume _ _ = Ok _ |- _ => apply consume_length in E
  | E : parse_identifier _ = Ok _ |- _ => apply parse_identifier_length in E
  | E : parse_constant _ = Ok _ |- _ => apply parse_constant_length in E
  end.

Lemma consumes_shrinks {A} (f : Tokens -> res (A * Tokens)) :
  consumes f -> shrinks f.
Proof. intros Hf toks r Hr. apply Hf in Hr. lia. Qed.

Lemma binaryLevel_consumes fuel ops mk sub :
  consumes sub -> consumes (binaryLevel fuel ops mk sub).
Proof.
  intros Hsub toks r Hr. unfold binaryLevel in Hr. inv_parse.
  apply binaryLoop_length in Hr; [|by apply consumes_shrinks].
  apply Hsub in E. lia.
Qed.

Lemma logicalOR_consumes fuel sub : consumes sub -> consumes (logicalOR fuel sub).
Proof.
  intros Hsub. unfold logicalOR, logicalAND, equality, relational, additive,
    multiplicative.
  repeat apply binaryLevel_consumes. exact Hsub.
Qed.

Local Arguments expect : simpl never.
Local Arguments peekToken : simpl never.
Local Arguments consume : simpl never.
Local Arguments parse_identifier : simpl never.
Local Arguments parse_constant : simpl never.
Local Arguments new_ASTFilterExpressionNode : simpl never.
Local Arguments LanguageConstants : simpl never.
Local Arguments logicalOR : simpl never.
Local Arguments exp1 : simpl never.
Local Arguments exps : simpl never.
Local Arguments js : simpl never.
Local Arguments str_eqb : simpl never.
Local Arguments bind : simpl never.

Lemma parser_consumes (n : nat) :
  consumes (parse_filter filters n) /\
  consumes (assignment filters n) /\
  consumes (ternary filters n) /\
  consumes (unary filters n) /\
  consumes (primary filters n).
Proof.
  induction n as [|n IH].
  { unfold consumes. repeat split; intros; discriminate. }
  destruct IH as (IHfilter & IHassign & IHternary & IHunary & IHprimary).
  destruct (parser_length filters n) as (Lfilter & Lfloop & Lfargs & Lassign & Lternary &
                  Lunary & Lprimary & Lpostfix & Lcargs & Lobject & Loloop &
                  Larray & Laloop).
  pose proof (logicalOR_consumes n (unary filters n) IHunary) as IHor.
  unfold consumes, shrinks in *.
  repeat split; intros;
    match goal with Hr : _ = Ok _ |- _ => simpl in Hr end;
    inv_parse; len_facts;
    repeat match goal with
    | E : parse_filter _ _ _ = Ok _ |- _ => apply IHfilter in E
    | E : filterLoop _ _ _ _ = Ok _ |- _ => apply Lfloop in E
    | E : assignment _ _ _ = Ok _ |- _ => apply IHassign in E
    | E : ternary _ _ _ = Ok _ |- _ => apply IHternary in E
    | E : logicalOR _ _ _ = Ok _ |- _ => apply IHor in E
    | E : unary _ _ _ = Ok _ |- _ => apply IHunary in E
    | E : primary _ _ _ = Ok _ |- _ => apply IHprimary in E
    | E : postfix _ _ _ _ = Ok _ |- _ => apply Lpostfix in E
    | E : parse_object _ _ _ = Ok _ |- _ => apply Lobject in E
    | E : arrayDeclaration _ _ _ = Ok _ |- _ => apply Larray in E
    end;
    simpl in *; lia.
Qed.

(** X2.  An expression takes at least one token: when [filter()] returns, fewer
    tokens are left than it was given. *)
Theorem filter_consumes (n : nat) (toks : Tokens) (node : ASTNode) (rest : Tokens) :
  parse_filter filters n toks = Ok (node, rest) -> length rest < length toks.
Proof.
  intros Hr. destruct (parser_consumes n) as (Hfilter & _).
  apply Hfilter in Hr. exact Hr.
Qed.
End ParserConsumes.

Section MoreTheorems.
Context `{JSHost}.
Variable filters : FiltersMap.

(** X3.  [parse] ends on every argument: it returns or it throws. *)
Theorem parse_ends (expr : val) :
  returns (parse filters expr) || throws (parse filters expr) = true.
Proof.
  pose proof (parse_total filters expr) as Ht.
  destruct (parse filters expr); [reflexivity..|done].
Qed.

Lemma toWatch_cases (n : ASTNode) :
  toWatch n = [n] \/ forall x, In x (toWatch n) -> node_size x < node_size n.
Proof.
  destruct n; simpl; try (left; reflexivity);
    try (right; intros x []; fail).
  - right. intros x Hx. apply in_flat_map in Hx as (e & He & Hx).
    destruct (constant e); [destruct Hx|].
    pose proof (list_sum_In _ _ He).
    destruct (toWatch_self e x Hx) as [->|]; lia.
  - right. intros x Hx. apply in_flat_map in Hx as ([k e] & He & Hx).
    destruct (constant e); [destruct Hx|].
    pose proof (list_sum_In_snd _ _ _ He).
    destruct (toWatch_self e x Hx) as [->|]; simpl in *; lia.
  - destruct stateless; [right|left; reflexivity].
    intros x Hx. apply in_flat_map in Hx as (e & He & Hx).
    pose proof (list_sum_In _ _ He).
    destruct (toWatch_self e x Hx) as [->|]; lia.
  - right. intros x Hx. destruct (toWatch_self _ x Hx) as [->|]; lia.
  - right. intros x Hx. apply in_app_or in Hx as [Hx|Hx];
      destruct (toWatch_self _ x Hx) as [->|]; lia.
Qed.

(** X4.  The inputs of a program are nodes of the [toWatch] of its only
    statement, each a strictly smaller tree than that statement. *)
Theorem inputs_smaller (p : ASTProgramNode) (input : ASTNode) :
  In input (getInputs p) ->
  exists e, body p = [e] /\ In input (toWatch e) /\ node_size input < node_size e.
Proof.
  rewrite getInputs_eq. destruct (body p) as [|e [|]]; try (intros []).
  case_bool_decide as Hself; [intros []|]. intros Hin.
  exists e. split; [reflexivity|]. split; [exact Hin|].
  destruct (toWatch_cases e) as [Hs|Hs]; [congruence|]. by apply Hs.
Qed.

(** X5.  Every filter node of a program the parser returns names a filter that
    [filter(name)] finds. *)
Theorem parser_resolves_filters (text : str) (p : ASTProgramNode) :
  ast filters text = Ok p -> forallb (filtersResolved filters) (body p) = true.
Proof. apply ast_resolved. Qed.

(** X6.  [recurse] returns, or throws 'disallowed field' or 'Unable to get
    leftContext', and nothing else. *)
Theorem recurse_ends (n : ASTNode) (create : bool) (st : ASTCompilerState) :
  match recurse n create st with
  | Ok _ => True
  | Throw e => e = DisallowedField \/ e = UnableToGetLeftContext
  | OutOfFuel => False
  end.
Proof.
  destruct (recurse n create st) as [r|e|] eqn:E; [exact I| |].
  - eapply recurse_throwsOnly, E.
  - by apply recurse_safe in E.
Qed.

(** X7.  [ensureSafeObject] and [ensureSafeFunction] return their argument when
    they return, and throw a security error otherwise, which they do on
    truthy values only. *)
Theorem ensureSafe_returns_argument (st : store) (v : val) :
  match ensureSafeObject st v with
  | Ok w => w = v
  | Throw e => is_security_error e = true /\ truthy v = true
  | OutOfFuel => False
  end /\
  match ensureSafeFunction st v with
  | Ok w => w = v
  | Throw e => is_security_error e = true /\ truthy v = true
  | OutOfFuel => False
  end.
Proof.
  unfold ensureSafeObject, ensureSafeFunction.
  split; destruct (truthy v); try reflexivity;
    repeat match goal with
           | |- context [if ?c then _ else _] => destruct c
           end; try reflexivity; by split.
Qed.

(** X8.  After [register(name, factory)] for a name other than
    [__proto__], [filter(name)] is the filter the factory has made, with
    its [$stateful], and every other name is looked up as before. *)
Theorem register_filter (name : str) (F : FilterFunction) :
  name <> js "__proto__" ->
  filter (register name F filters) name = VFun (filter_fn F) /\
  filter_stateful_of (register name F filters) name = Ok (filter_stateful F) /\
  forall other, other <> name ->
    filter (register name F filters) other = filter filters other /\
    filter_stateful_of (register name F filters) other =
    filter_stateful_of filters other.
Proof.
  intros _. unfold filter, filter_stateful_of, register.
  assert (Hl : <[name:=F]> filters !! name = Some F) by apply lookup_insert_eq.
  rewrite Hl. split; [reflexivity|]. split; [reflexivity|].
  intros other Hne.
  assert (Ho : <[name:=F]> filters !! other = filters !! other)
    by (apply lookup_insert_ne; congruence).
  by rewrite Ho.
Qed.

Lemma blank_char (ch : char) :
  isWhiteSpace (Some [ch]) = true ->
  ch = 32%N \/ ch = 13%N \/ ch = 9%N \/ ch = 10%N \/ ch = 11%N \/ ch = 160%N.
Proof.
  unfold isWhiteSpace. change (js " ") with [32%N]. rewrite !str_eqb_single.
  rewrite !orb_true_iff, !N.eqb_eq. tauto.
Qed.

Lemma lex_loop_blank (fuel : nat) (text : str) (toks : list LexToken) :
  isBlank text = true -> length text <= fuel -> lex_loop fuel text toks = Ok toks.
Proof.
  revert text toks. induction fuel as [|fuel IH]; intros text toks Hb Hlen;
    (destruct text as [|ch tl]; [reflexivity|]); simpl in Hlen; [lia|].
  unfold isBlank in Hb. cbn [forallb] in Hb. apply andb_prop in Hb as [Hch Htl].
  assert (Hstep : lex_loop (S fuel) (ch :: tl) toks = lex_loop fuel tl toks).
  { apply blank_char in Hch.
    destruct Hch as [->|[->|[->|[->|[->| ->]]]]]; cbn [lex_loop];
      repeat match goal with
             | |- context [peek ?r ?n] => generalize (peek r n); intros ?
             end;
      reflexivity. }
  rewrite Hstep. apply IH; [exact Htl | lia].
Qed.

(** X9.  A text of white space only has no tokens; compiling it throws
    'Unknown ASTNode type', since the body of its program is empty. *)
Theorem blank_text (text : str) :
  isBlank text = true ->
  lex text = Ok [] /\
  compile filters text = Throw UnknownASTNodeType /\
  parse filters (VStr text) = Throw UnknownASTNodeType.
Proof.
  intros Hb.
  assert (Hlex : lex text = Ok []) by (apply lex_loop_blank; [exact Hb|lia]).
  assert (Hc : compile filters text = Throw UnknownASTNodeType).
  { unfold compile, ast. rewrite Hlex. reflexivity. }
  split; [exact Hlex|]. split; [exact Hc|].
  rewrite parse_without_prefix; [by rewrite Hc|].
  destruct text as [|a [|b text]]; try discriminate.
  intros [= -> ->]. discriminate Hb.
Qed.
End MoreTheorems.

Section GeneratorReturns.
Context `{JSHost}.

Ltac inv_gen :=
  repeat match goal with
  | H : gbind _ _ _ = Ok _ |- _ =>
      let a := fresh "a" in let s := fresh "s" in let E := fresh "E" in
      apply gbind_Ok in H as (a & s & E & H)
  | H : (match ?x with _ => _ end) _ = Ok _ |- _ => destruct x eqn:?
  | H : lift (Throw _) _ = Ok _ |- _ => discriminate H
  end.

Lemma ensureSafeMemberName_accepts x st r :
  lift (ensureSafeMemberName x) st = Ok r -> includes blacklist x = false.
Proof.
  unfold lift, ensureSafeMemberName.
  destruct (includes blacklist x); [discriminate|done].
Qed.

Lemma recurse_Ok_safe (n : ASTNode) :
  forall create st r, recurse n create st = Ok r -> readsBlacklisted n = false.
Proof.
  induction n using ASTNode_induction; intros create st r Hr;
    cbn [recurse] in Hr; cbn [readsBlacklisted]; try reflexivity.
  - apply gbind_Ok in Hr as (es & s & E & _). clear r.
    revert st es s E. induction H1 as [|x l Hx Hl IH]; intros st es s E; [reflexivity|].
    inv_gen. cbn [existsb]. erewrite Hx by eassumption. erewrite IH by eassumption. reflexivity.
  - apply gbind_Ok in Hr as (es & s & E & _). clear r.
    revert st es s E. induction H1 as [|[k v] l Hx Hl IH]; intros st es s E; [reflexivity|].
    inv_gen. cbn [existsb]. simpl in Hx. erewrite Hx by eassumption. erewrite IH by eassumption. reflexivity.
  - inv_gen; eapply ensureSafeMemberName_accepts; eassumption.
  - inv_gen;
      match goal with E : lift _ _ = Ok _ |- _ => apply ensureSafeMemberName_accepts in E; rewrite E end;
      erewrite IHn by eassumption; reflexivity.
  - inv_gen; erewrite IHn1 by eassumption; erewrite IHn2 by eassumption; reflexivity.
  - apply gbind_Ok in Hr as (c & s & Ec & Hr). erewrite IHn by eassumption. cbn [orb].
    apply gbind_Ok in Hr as (es & s' & E & _). clear r Ec.
    revert s es s' E. induction H1 as [|x l Hx Hl IH]; intros s es s' E; [reflexivity|].
    inv_gen. cbn [existsb]. erewrite Hx by eassumption. erewrite IH by eassumption. reflexivity.
  - apply gbind_Ok in Hr as (c' & s0 & _ & Hr).
    apply gbind_Ok in Hr as (es & s' & E & _). clear r.
    revert s0 es s' E. induction H1 as [|x l Hx Hl IH]; intros s0 es s' E; [reflexivity|].
    inv_gen. cbn [existsb]. erewrite Hx by eassumption. erewrite IH by eassumption. reflexivity.
  - inv_gen; erewrite IHn1 by eassumption; erewrite IHn2 by eassumption; reflexivity.
  - inv_gen; eapply IHn; eassumption.
  - inv_gen; erewrite IHn1 by eassumption; erewrite IHn2 by eassumption; reflexivity.
  - inv_gen; erewrite IHn1 by eassumption; erewrite IHn2 by eassumption; reflexivity.
  - inv_gen; erewrite IHn1 by eassumption; erewrite IHn2 by eassumption; erewrite IHn3 by eassumption; reflexivity.
Qed.

Ltac split_safe :=
  repeat match goal with
  | H : hasAssignment _ = false |- _ =>
      progress cbn [hasAssignment existsb] in H
  | H : readsBlacklisted _ = false |- _ =>
      progress cbn [readsBlacklisted existsb] in H
  | H : existsb _ (_ :: _) = false |- _ => cbn [existsb] in H
  | H : _ || _ = false |- _ => apply orb_false_elim in H as [? ?]
  | H : true = false |- _ => discriminate H
  end.

Ltac ok_step :=
  repeat first
    [ assumption
    | apply ret_ok
    | apply push_ok
    | apply nextId_ok
    | apply getState_ok
    | apply ensureSafeMemberName_ok; assumption
    | match goal with
      | |- okGen (gbind _ _) => apply gbind_ok; [|intros ?]
      | |- okGen (if_ _ _) => apply push_ok
      | |- okGen (addEnsureSafeObject _) => apply push_ok
      | |- okGen (addEnsureSafeFunction _) => apply push_ok
      | |- okGen (addEnsureSafeMemberName _) => apply push_ok
      | |- okGen (when ?b _) => destruct b; unfold when
      | |- okGen (match ?x with _ => _ end) => destruct x
      | IH : _ -> _ -> forall create, okGen (recurse ?x create)
        |- okGen (recurse ?x _) => apply IH; assumption
      | IH : _ -> _ -> okGen (?f ?l) |- okGen (?f ?l) => apply IH; assumption
      end ].

Lemma filterVar_ok x : okGen (filterVar x).
Proof. unfold filterVar. ok_step; try (intros st; reflexivity). Qed.

Lemma recurse_safe_Ok (n : ASTNode) :
  readsBlacklisted n = false -> hasAssignment n = false ->
  forall create, okGen (recurse n create).
Proof.
  induction n using ASTNode_induction; intros Hs Ha create; cbn [recurse];
    split_safe; try (ok_step; fail).
  - apply gbind_ok; [|intros; ok_step].
    cbn [hasAssignment readsBlacklisted] in Hs, Ha. revert Hs Ha.
    induction H1 as [|x l Hx Hl IH]; intros Hs Ha; split_safe; ok_step.
  - apply gbind_ok; [|intros; ok_step].
    cbn [hasAssignment readsBlacklisted] in Hs, Ha. revert Hs Ha.
    induction H1 as [|[k v] l Hx Hl IH]; intros Hs Ha; cbn [snd] in *;
      split_safe; ok_step.
  - apply gbind_ok; [ok_step|intros c].
    apply gbind_ok; [|intros; ok_step].
    repeat match goal with Hl : existsb _ _ = false |- _ => revert Hl end.
    induction H1 as [|x l Hx Hl IH]; intros Hs' Ha'; split_safe; ok_step.
  - apply gbind_ok; [apply filterVar_ok|intros callee].
    apply gbind_ok; [|intros; ok_step].
    cbn [hasAssignment readsBlacklisted] in Hs, Ha. revert Hs Ha.
    induction H1 as [|x l Hx Hl IH]; intros Hs Ha; split_safe; ok_step.
Qed.

(** X10.  On a tree without assignment, [recurse] returns exactly when the
    tree reads none of the blacklisted names as an identifier or as a
    non-computed property. *)
Theorem recurse_returns_iff (n : ASTNode) (create : bool) (st : ASTCompilerState) :
  hasAssignment n = false ->
  (returns (recurse n create st) = true <-> readsBlacklisted n = false).
Proof.
  intros Ha. split.
  - destruct (recurse n create st) as [r| |] eqn:E; try discriminate.
    intros _. eapply recurse_Ok_safe, E.
  - intros Hs. by apply recurse_safe_Ok.
Qed.
End GeneratorReturns.

(** [filter_consumes] on the one token of [a]. *)
Lemma filter_consumes_witness :
  parse_filter ∅ 40 [mkToken (js "a") None true] = Ok (ASTIdentifierNode (js "a"), []) /\
  length ([] : Tokens) < length [mkToken (js "a") None true].
Proof.
  assert (Hr : parse_filter ∅ 40 [mkToken (js "a") None true] =
               Ok (ASTIdentifierNode (js "a"), [])) by reflexivity.
  split; [exact Hr|].
  exact (@filter_consumes ExampleHost.number ExampleHost.host ∅ _ _ _ _ Hr).
Defined.

(** [inputs_smaller] on [!a], whose input is [a]. *)
Lemma inputs_smaller_witness :
  let a := ASTIdentifierNode (js "a") in
  let p := mkProgram [ASTUnaryExpressionNode (js "!") a] in
  In a (getInputs p) /\
  exists e, body p = [e] /\ In a (toWatch e) /\ node_size a < node_size e.
Proof.
  intros a p. assert (Hin : In a (getInputs p)) by (left; reflexivity).
  split; [exact Hin|].
  exact (inputs_smaller p a Hin).
Defined.

(** [parser_resolves_filters] on [a | toString] with the empty registry. *)
Lemma parser_resolves_filters_witness :
  let p := mkProgram [ASTFilterExpressionNode (js "toString")
                        [ASTIdentifierNode (js "a")] true] in
  ast ∅ (js "a | toString") = Ok p /\
  forallb (filtersResolved ∅) (body p) = true.
Proof.
  intros p. assert (Hp : ast ∅ (js "a | toString") = Ok p) by reflexivity.
  split; [exact Hp|].
  exact (@parser_resolves_filters ExampleHost.number ExampleHost.host ∅ _ _ Hp).
Defined.

(** [blank_text] on two spaces. *)
Lemma blank_text_witness :
  isBlank (js "  ") = true /\
  lex (js "  ") = Ok [] /\
  compile ∅ (js "  ") = Throw UnknownASTNodeType /\
  parse ∅ (VStr (js "  ")) = Throw UnknownASTNodeType.
Proof.
  assert (Hb : isBlank (js "  ") = true) by reflexivity.
  split; [exact Hb|].
  exact (@blank_text ExampleHost.number ExampleHost.host ∅ (js "  ") Hb).
Defined.

(** [recurse_returns_iff] on the identifier [a]. *)
Lemma recurse_returns_iff_witness :
  hasAssignment (ASTIdentifierNode (js "a")) = false /\
  (returns (recurse (ASTIdentifierNode (js "a")) false initialState) = true <->
   readsBlacklisted (ASTIdentifierNode (js "a")) = false).
Proof.
  split; [reflexivity|].
  apply recurse_returns_iff. reflexivity.
Defined.

(** [register_filter] on the name [upcase]. *)
Lemma register_filter_witness :
  js "upcase" <> js "__proto__" /\
  filter (register (js "upcase") (mkFilter ExampleHost.fnFirst false) ∅)
    (js "upcase") = VFun ExampleHost.fnFirst.
Proof.
  assert (Hname : js "upcase" <> js "__proto__") by discriminate.
  split; [exact Hname|].
  destruct (@register_filter ExampleHost.number ExampleHost.host ∅ (js "upcase")
              (mkFilter ExampleHost.fnFirst false) Hname) as (Hfound & _).
  exact Hfound.
Defined.
